(** * mapfre_agentkit: the A2A protocol runtime, embedded and verified

    A shallow embedding of the security and dispatch plumbing of
    [mapfre_agentkit]: the credential strategies, the authentication
    middleware, the outbound header interceptors, the task executors, the
    remote-agent registry and the streaming event normaliser.

    Python values are typed the way the code uses them.  Strings are
    sequences of code points below 128 (header names, scopes and ids are
    ASCII tokens); a [dict] is a [gmap]; a [set] is a [gset]; a call that
    may raise returns [res A], the sum of the raised exception and the
    value.  Network and cryptographic collaborators are parameters of the
    operations that use them. *)

From Stdlib Require Import ZArith Ascii String.
From stdpp Require Import gmap strings list fin_maps.

Local Open Scope string_scope.

(** ** Python primitives *)

Module Py.

(** Exception classes that the runtime raises or catches.  All of them
    derive from [Exception]; [mro] lists a class followed by its
    ancestors, nearest first. *)
Inductive a2a_error := InternalError | UnsupportedOperationError.

Inductive exn_class :=
| Exception
| JWKSFetchError | JWKSParseError | JWKSConfigError
| InvalidAuthHeader | ConfigurationError
| PyJWTError | InvalidTokenError | ExpiredSignatureError | DecodeError
| InvalidKeyError
| LookupError | IndexError | KeyError
| TypeError | ValueError | AttributeError | RuntimeError
| RequestException | ReqTimeout | ConnectionError | HTTPError
| HTTPStatusError
| ValidationError
| ServerError (error : a2a_error).

Definition mro (c : exn_class) : list exn_class :=
  match c with
  | Exception => [Exception]
  | InvalidTokenError => [InvalidTokenError; PyJWTError; Exception]
  | ExpiredSignatureError =>
      [ExpiredSignatureError; InvalidTokenError; PyJWTError; Exception]
  | DecodeError => [DecodeError; InvalidTokenError; PyJWTError; Exception]
  | InvalidKeyError => [InvalidKeyError; PyJWTError; Exception]
  | IndexError => [IndexError; LookupError; Exception]
  | KeyError => [KeyError; LookupError; Exception]
  | ReqTimeout => [ReqTimeout; RequestException; Exception]
  | ConnectionError => [ConnectionError; RequestException; Exception]
  | HTTPError => [HTTPError; RequestException; Exception]
  | ValidationError => [ValidationError; ValueError; Exception]
  | c => [c; Exception]
  end.

Global Instance a2a_error_eq_dec : EqDecision a2a_error.
Proof. solve_decision. Defined.

Global Instance exn_class_eq_dec : EqDecision exn_class.
Proof. solve_decision. Defined.

(** A raised exception: its class and the message it was built with. *)
Record exn := Raise { exn_cls : exn_class; exn_msg : string }.

Definition isinstance (e : exn) (c : exn_class) : bool :=
  bool_decide (c ∈ mro (exn_cls e)).

(** The outcome of a call that may raise. *)
Definition res (A : Type) : Type := exn + A.

Definition ok {A} (a : A) : res A := inr a.
Definition raise {A} (c : exn_class) (msg : string) : res A :=
  inl (Raise c msg).

Definition bind {A B} (r : res A) (k : A → res B) : res B :=
  match r with
  | inl e => inl e
  | inr a => k a
  end.

Notation "'let?' x := r 'in' k" := (bind r (fun x => k))
  (at level 10, x name, r at level 100, k at level 200).

(** [str.lower] on ASCII text. *)
Definition lower_ascii (c : ascii) : ascii :=
  let n := nat_of_ascii c in
  if (65 <=? n)%nat && (n <=? 90)%nat then ascii_of_nat (n + 32) else c.

Fixpoint lower (s : string) : string :=
  match s with
  | EmptyString => EmptyString
  | String c s' => String (lower_ascii c) (lower s')
  end.

(** [s.startswith(p)]. *)
Definition startswith (s p : string) : bool := String.prefix p s.

(** [sub in s]. *)
Fixpoint str_contains (sub s : string) : bool :=
  String.prefix sub s ||
  match s with
  | EmptyString => false
  | String _ s' => str_contains sub s'
  end.

(** The characters [str.split()] treats as separators. *)
Definition isspace (c : ascii) : bool :=
  let n := nat_of_ascii c in
  ((9 <=? n)%nat && (n <=? 13)%nat) ||
  ((28 <=? n)%nat && (n <=? 32)%nat).

(** [s.split()]: the maximal runs of non-space characters, in order.
    [cur] is the word being read, in reverse. *)
Fixpoint split_go (cur : option string) (s : string) : list string :=
  match s with
  | EmptyString =>
      match cur with
      | Some w => [String.rev w]
      | None => []
      end
  | String c s' =>
      if isspace c then
        match cur with
        | Some w => String.rev w :: split_go None s'
        | None => split_go None s'
        end
      else
        split_go (Some (String c (default EmptyString cur))) s'
  end.

Definition split_ws (s : string) : list string := split_go None s.

(** [s.split(sep)] for a non-empty separator: [skip] counts the characters
    of a separator occurrence still to be passed over, [cur] is the piece
    being read, in reverse. *)
Fixpoint split_sep_go (sep : string) (skip : nat) (cur s : string)
  : list string :=
  match s with
  | EmptyString => [String.rev cur]
  | String c s' =>
      match skip with
      | S k => split_sep_go sep k cur s'
      | O =>
          if String.prefix sep s then
            String.rev cur
              :: split_sep_go sep (String.length sep - 1) EmptyString s'
          else split_sep_go sep 0 (String c cur) s'
      end
  end.

Definition split_sep (s sep : string) : list string :=
  split_sep_go sep 0 EmptyString s.

(** Truth value of a string and of an optional string ([None] and the empty
    string are false). *)
Definition truthy_str (s : string) : bool :=
  negb (bool_decide (s = EmptyString)).

Definition truthy_opt_str (o : option string) : bool :=
  match o with
  | Some s => truthy_str s
  | None => false
  end.

(** [x in l] for a list of strings. *)
Definition str_in (x : string) (l : list string) : bool :=
  bool_decide (x ∈ l).

(** An asynchronous generator, unfolded: it stops, yields an item and goes
    on, or raises. *)
Inductive Stream (A : Type) :=
| Stop
| Yield (item : A) (rest : Stream A)
| Throw (e : exn).
Arguments Stop {A}.
Arguments Yield {A} _ _.
Arguments Throw {A} _.

(** A [try] statement's [except] clauses: the first clause whose class the
    exception is an instance of handles it; [None] when the exception
    propagates. *)
Definition except {A} (clauses : list (exn_class * (exn → A))) (e : exn)
  : option A :=
  (fun clause => clause.2 e)
    <$> List.find (fun clause => isinstance e clause.1) clauses.

(** [repr] of a string and [str] of a list of strings, as an f-string
    interpolates them. *)
Definition hex_digit (n : nat) : ascii :=
  if (n <? 10)%nat then ascii_of_nat (48 + n) else ascii_of_nat (87 + n).

Definition backslash : ascii := ascii_of_nat 92.
Definition double_quote : ascii := ascii_of_nat 34.
Definition single_quote : ascii := ascii_of_nat 39.

Definition repr_char (quote c : ascii) : string :=
  let n := nat_of_ascii c in
  let bs := String backslash EmptyString in
  if bool_decide (c = quote) || bool_decide (n = 92%nat)
  then bs +:+ String c EmptyString
  else if bool_decide (n = 9%nat) then bs +:+ "t"
  else if bool_decide (n = 10%nat) then bs +:+ "n"
  else if bool_decide (n = 13%nat) then bs +:+ "r"
  else if (n <? 32)%nat || bool_decide (n = 127%nat)
  then bs +:+ "x" +:+ String (hex_digit (n / 16))
                        (String (hex_digit (n mod 16)) EmptyString)
  else String c EmptyString.

Fixpoint repr_chars (quote : ascii) (s : string) : string :=
  match s with
  | EmptyString => EmptyString
  | String c s' => repr_char quote c +:+ repr_chars quote s'
  end.

Definition repr_str (s : string) : string :=
  let quote :=
    if str_contains (String single_quote EmptyString) s
       && negb (str_contains (String double_quote EmptyString) s)
    then double_quote else single_quote in
  String quote (repr_chars quote s) +:+ String quote EmptyString.

Fixpoint join (sep : string) (l : list string) : string :=
  match l with
  | [] => EmptyString
  | [x] => x
  | x :: l' => x +:+ sep +:+ join sep l'
  end.

Definition str_list (l : list string) : string :=
  "[" +:+ join ", " (repr_str <$> l) +:+ "]".

End Py.

Import Py.

(** ** HTTP requests and the gateway's responses (Starlette) *)

Module Http.

Record Request := {
  url_path : string;
  (** the raw header list; names are lower-case, as ASGI delivers them *)
  req_headers : list (string * string)
}.

(** [request.headers.get(name)]: the lookup key is lower-cased and
    compared with the raw names; the first match wins. *)
Definition headers_get (h : list (string * string)) (name : string)
  : option string :=
  snd <$> List.find (fun kv => bool_decide (kv.1 = lower name)) h.

Inductive Body :=
| PlainText (text : string)
| Json (fields : list (string * string)).

Record Response := {
  status_code : Z;
  media_type : string;
  body : Body
}.

Definition PlainTextResponse (text : string) (status : Z) (media : string)
  : Response :=
  {| status_code := status; media_type := media; body := PlainText text |}.

Definition JSONResponse (fields : list (string * string)) (status : Z)
  : Response :=
  {| status_code := status; media_type := "application/json";
     body := Json fields |}.

End Http.

Import Http.

(** ** Credential strategies (a2a/auth/credential_services) *)

Module Cognito.

(** The JSON object the token endpoint answers with. *)
Record TokenData := {
  td_access_token : option string;
  td_expires_in : option Z
}.

(** The form posted to the token endpoint. *)
Record TokenRequest := {
  post_url : string;
  grant_type : string;
  post_client_id : string;
  post_client_secret : string;
  post_scope : string
}.

(** [CognitoM2MCredentialService]: configuration and the token cache.
    Times are seconds since the epoch; the clock is read on [Z], where the
    source compares and adds the readings of [time.time()]. *)
Record CognitoM2MCredentialService := {
  client_id : string;
  client_secret : string;
  scope : string;
  token_url : string;
  _access_token : option string;
  _expires_at : Z
}.

(** What a call left behind: its outcome, the service afterwards and the
    requests it sent to the token endpoint, oldest first. *)
Record Run (A : Type) := {
  outcome : res A;
  after : CognitoM2MCredentialService;
  posted : list TokenRequest
}.
Arguments outcome {A} _.
Arguments after {A} _.
Arguments posted {A} _.

Definition set_access_token (self : CognitoM2MCredentialService)
  (tok : string) : CognitoM2MCredentialService :=
  {| client_id := client_id self; client_secret := client_secret self;
     scope := scope self; token_url := token_url self;
     _access_token := Some tok; _expires_at := _expires_at self |}.

Definition set_expires_at (self : CognitoM2MCredentialService)
  (t : Z) : CognitoM2MCredentialService :=
  {| client_id := client_id self; client_secret := client_secret self;
     scope := scope self; token_url := token_url self;
     _access_token := _access_token self; _expires_at := t |}.

(** [_fetch_token]: one POST to the token endpoint.  [reply] is what
    [client.post], [raise_for_status] and [response.json] produce;
    [now] is the clock when the expiry is recorded. *)
Definition _fetch_token (self : CognitoM2MCredentialService)
  (reply : res TokenData) (now : Z) : Run unit :=
  let request :=
    {| post_url := token_url self; grant_type := "client_credentials";
       post_client_id := client_id self;
       post_client_secret := client_secret self;
       post_scope := scope self |} in
  match reply with
  | inl e => {| outcome := inl e; after := self; posted := [request] |}
  | inr token_data =>
      match td_access_token token_data with
      | None =>
          {| outcome := raise KeyError "access_token"; after := self;
             posted := [request] |}
      | Some tok =>
          let self1 := set_access_token self tok in
          let self2 :=
            set_expires_at self1
              (now + default 3600%Z (td_expires_in token_data) - 60)%Z in
          {| outcome := ok tt; after := self2; posted := [request] |}
      end
  end.

(** [get_credentials]: [now] is the clock at the freshness test, [now']
    the clock when a fetched token's expiry is recorded. *)
Definition get_credentials (self : CognitoM2MCredentialService)
  (reply : res TokenData) (now now' : Z) : Run (option string) :=
  if negb (truthy_opt_str (_access_token self))
     || bool_decide (now > _expires_at self)%Z
  then
    let r := _fetch_token self reply now' in
    match outcome r with
    | inl e => {| outcome := inl e; after := after r; posted := posted r |}
    | inr _ =>
        {| outcome := ok (_access_token (after r)); after := after r;
           posted := posted r |}
    end
  else {| outcome := ok (_access_token self); after := self; posted := [] |}.

(** [get_token]: the bearer value of the [Authorization] header. *)
Definition get_token (request : Request) : res string :=
  let auth_header := headers_get (req_headers request) "Authorization" in
  if negb (truthy_opt_str auth_header)
     || negb (startswith (default "" auth_header) "Bearer ")
  then raise InvalidAuthHeader "Missing or malformed Authorization header."
  else
    match split_sep (default "" auth_header) "Bearer " !! 1%nat with
    | Some token => ok token
    | None => raise IndexError "list index out of range"
    end.

End Cognito.

(** [Cognito.get_keys] and the rest of the strategy interface need the
    security scheme, the key set and the token payload. *)

Module Auth.

(** config/auth_config.py *)
Inductive AuthType := NO_AUTH | COGNITO.

Global Instance AuthType_eq_dec : EqDecision AuthType.
Proof. solve_decision. Defined.

(** A security requirement in OpenAPI form: scheme names with their
    scopes, in declaration order. *)
Definition Requirement := list (string * list string).

Record AuthConfig := {
  type : AuthType;
  auth_security : option (list Requirement)
}.

(** The part of an a2a [SecurityScheme] the runtime reads: its description
    holds the JWKS endpoint. *)
Record SecurityScheme := { description : string }.

(** A JWK set (key id and key material) and a validated token payload.
    Of the payload the gateway reads the [scope] claim only: it may be
    absent, and when present it is a JSON value, text or something else
    (a list, a number, null), of which only text has [split]. *)
Definition KeySet := list (string * string).

Inductive ScopeClaim :=
| ScopeText (s : string)
| ScopeOther (shown : string).

Record Payload := { payload_scope : option ScopeClaim }.

(** The collaborators behind the Cognito strategy: the HTTP client used
    for the JWKS endpoint ([requests.get], [raise_for_status], [json]) and
    the JWT library ([validate_token]). *)
Record Collaborators := {
  jwks_get : string → res KeySet;
  validate_token : string → KeySet → res Payload
}.

(** [CognitoM2MCredentialService.get_keys] *)
Definition get_keys (http : string → res KeySet) (config : SecurityScheme)
  : res KeySet :=
  let jwt_endpoint := description config in
  match http jwt_endpoint with
  | inr keys => ok keys
  | inl e =>
      let rethrow c prefix (e : exn) : res KeySet :=
        raise c (prefix +:+ exn_msg e) in
      default (inl e)
        (except
           [ (ReqTimeout, rethrow JWKSFetchError "JWKS endpoint timeout: ");
             (ConnectionError,
               rethrow JWKSFetchError "JWKS endpoint connection error: ");
             (HTTPError, rethrow JWKSFetchError "JWKS endpoint HTTP error: ");
             (RequestException,
               rethrow JWKSFetchError "JWKS endpoint request failed: ");
             (ValueError,
               rethrow JWKSParseError
                 "Invalid JSON response from JWKS endpoint: ");
             (TypeError,
               rethrow JWKSConfigError "Invalid config or response type: ") ]
           e)
  end.

(** An entry of the agent card's [security] list. *)
Inductive SecurityRequirement :=
| ReqName (scheme_name : string)
| ReqMapping (entries : list (string * list string))
| ReqOther.

Record AgentCard := {
  name : string;
  card_description : string;
  security : option (list SecurityRequirement);
  security_schemes : option (gmap string SecurityScheme)
}.

(** a2a/auth/middleware.py *)
Record Middleware := {
  public_paths : gset string;
  (** [a2a_auth]: empty, or holding the [required_claims] entry *)
  a2a_auth : option (list string);
  credential_service : AuthType;
  (** the attribute is only set when the card declares security *)
  security_scheme : option SecurityScheme
}.

(** The body of the [try] in [__init__], before the [except] clauses. *)
Definition init_body (agent_card : AgentCard) (auth : option AuthConfig)
  (paths : gset string) : res Middleware :=
  match security agent_card with
  | Some (sec_req :: _) =>
      let? chosen :=
        match sec_req with
        | ReqName scheme_name => ok (scheme_name, [])
        | ReqMapping [] => raise IndexError "list index out of range"
        | ReqMapping ((scheme_name, required_claims) :: _) =>
            ok (scheme_name, required_claims)
        | ReqOther =>
            raise ConfigurationError "Invalid security requirement format"
        end in
      let? scheme :=
        match security_schemes agent_card with
        | None => raise TypeError "'NoneType' object is not subscriptable"
        | Some schemes =>
            match schemes !! chosen.1 with
            | Some scheme => ok scheme
            | None => raise KeyError chosen.1
            end
        end in
      let? kind :=
        match auth with
        | Some cfg => ok (type cfg)
        | None =>
            raise AttributeError "'NoneType' object has no attribute 'type'"
        end in
      ok {| public_paths := paths; a2a_auth := Some chosen.2;
            credential_service := kind; security_scheme := Some scheme |}
  | Some [] | None =>
      ok {| public_paths := paths; a2a_auth := None;
            credential_service := NO_AUTH; security_scheme := None |}
  end.

(** [Middleware.__init__] *)
Definition __init__ (agent_card : AgentCard) (auth : option AuthConfig)
  (public_paths : option (list string)) : res Middleware :=
  match init_body agent_card auth (list_to_set (default [] public_paths)) with
  | inr self => ok self
  | inl e =>
      default (inl e)
        (except
           [ (IndexError,
               fun _ => raise ConfigurationError
                          "No security requirements specified");
             (KeyError,
               fun _ => raise ConfigurationError
                          "Invalid agent card structure");
             (TypeError,
               fun _ => raise ConfigurationError "Malformed agent card") ]
           e)
  end.

Definition accepts_event_stream (request : Request) : bool :=
  let accept_header := default "" (headers_get (req_headers request) "accept") in
  str_contains "text/event-stream" accept_header.

Definition _forbidden (reason : string) (request : Request) : Response :=
  if accepts_event_stream request then
    PlainTextResponse ("error forbidden: " +:+ reason) 403 "text/event-stream"
  else JSONResponse [("error", "forbidden"); ("reason", reason)] 403.

Definition _unauthorized (reason : string) (request : Request) : Response :=
  if accepts_event_stream request then
    PlainTextResponse ("error unauthorized: " +:+ reason) 401
      "text/event-stream"
  else JSONResponse [("error", "unauthorized"); ("reason", reason)] 401.

Definition _service_unavailable (reason : string) (request : Request)
  : Response :=
  if accepts_event_stream request then
    PlainTextResponse ("error service unavailable: " +:+ reason) 503
      "text/event-stream"
  else JSONResponse [("error", "service_unavailable"); ("reason", reason)] 503.

(** How [dispatch] ends: the request goes on to the next handler, the
    gateway answers itself, or an exception leaves [dispatch]. *)
Inductive Dispatched :=
| CallNext
| Respond (response : Response)
| Propagate (e : exn).

(** The three statements of the [try] in [dispatch]. *)
Definition authenticate (self : Middleware) (env : Collaborators)
  (request : Request) : res Payload :=
  let? scheme :=
    match security_scheme self with
    | Some scheme => ok scheme
    | None =>
        raise AttributeError
          "'Middleware' object has no attribute 'security_scheme'"
    end in
  let? keys := get_keys (jwks_get env) scheme in
  let? token := Cognito.get_token request in
  validate_token env token keys.

(** The [except] clauses of [dispatch], in source order. *)
Definition auth_failure_clauses (request : Request)
  : list (exn_class * (exn → Response)) :=
  [ (JWKSFetchError,
      fun _ => _service_unavailable "Unable to fetch JWKS" request);
    (JWKSParseError, fun _ => _unauthorized "Invalid JWKS format" request);
    (JWKSConfigError,
      fun _ => _unauthorized "Invalid JWKS configuration" request);
    (ExpiredSignatureError, fun _ => _unauthorized "Expired JWT" request);
    (InvalidTokenError, fun _ => _unauthorized "Invalid JWT" request);
    (PyJWTError, fun _ => _unauthorized "Invalid JWT" request);
    (InvalidAuthHeader,
      fun _ => _unauthorized "Invalid auth header" request);
    (Exception, fun _ => _unauthorized "Unexpected error" request) ].

(** The claims of [required] that the scopes lack, in order. *)
Definition missing_claims (required scopes : list string) : list string :=
  List.filter (fun claim => negb (str_in claim scopes)) required.

(** The check after the [try]: required claims against the scopes.
    [payload.get("scope", "").split()] comes first and stands outside
    the [try]. *)
Definition check_claims (self : Middleware) (payload : Payload)
  (request : Request) : Dispatched :=
  match default (ScopeText "") (payload_scope payload) with
  | ScopeOther _ =>
      Propagate (Raise AttributeError "object has no attribute 'split'")
  | ScopeText scope =>
      let scopes := split_ws scope in
      match a2a_auth self with
      | None => Propagate (Raise KeyError "required_claims")
      | Some required_claims =>
          let missing := missing_claims required_claims scopes in
          match missing with
          | _ :: _ =>
              Respond
                (_forbidden ("Missing required claims: " +:+ str_list missing)
                   request)
          | [] => CallNext
          end
      end
  end.

(** [Middleware.dispatch] *)
Definition dispatch (self : Middleware) (env : Collaborators)
  (request : Request) : Dispatched :=
  if bool_decide (url_path request ∈ public_paths self)
     || bool_decide (credential_service self = NO_AUTH)
  then CallNext
  else
    match authenticate self env request with
    | inl e =>
        match except (auth_failure_clauses request) e with
        | Some response => Respond response
        | None => Propagate e
        end
    | inr payload => check_claims self payload request
    end.

End Auth.

(** ** Call contexts and outbound header interceptors *)

Module Context.

(** A value held in a header map: the interceptors only tell text and
    bytes from everything else. *)
Inductive PyValue :=
| Str (s : string)
| Bytes (b : string)
| Other (shown : string).

Definition is_str_or_bytes (v : PyValue) : bool :=
  match v with
  | Str _ | Bytes _ => true
  | Other _ => false
  end.

(** An entry of a call context's [state]: a plain value or a nested
    dictionary of header values. *)
Inductive StateValue :=
| Leaf (v : PyValue)
| Dict (d : gmap string PyValue).

(** [ClientCallContext] and [ServerCallContext]: the [state] bag. *)
Record CallContext := { state : gmap string StateValue }.

(** The transport options of an outbound call: the [headers] entry and the
    remaining entries. *)
Record HttpKwargs := {
  headers : option (gmap string PyValue);
  other_options : gmap string string
}.

End Context.

Import Context.

Module HeadersPropagation.

(** a2a/interceptors/headers_propagation_interceptor.py *)
Record HeadersPropagationInterceptor := {
  allowed_prefixes : list string;
  allowed_names : gset string;
  allow_authorization : bool;
  _blocked : gset string
}.

Definition hop_by_hop : gset string :=
  {[ "connection"; "keep-alive"; "transfer-encoding"; "te"; "trailer";
     "upgrade"; "host"; "content-length" ]}.

(** [x or default] for an optional sequence: an absent or empty one gives
    the default. *)
Definition or_default (given : option (list string)) (dflt : list string)
  : list string :=
  match given with
  | Some (x :: l) => x :: l
  | Some [] | None => dflt
  end.

Definition __init__ (prefixes names : option (list string))
  (allow_auth : bool) : HeadersPropagationInterceptor :=
  {| allowed_prefixes := lower <$> or_default prefixes ["x-mapfre-"];
     allowed_names :=
       list_to_set
         (lower <$> or_default names
                      ["x-request-id"; "x-correlation-id"; "accept-language"]);
     allow_authorization := allow_auth;
     _blocked :=
       if negb allow_auth
       then hop_by_hop ∪ {[ "authorization" ]} ∪ {[ "cookie" ]}
       else hop_by_hop |}.

Definition _is_allowed (self : HeadersPropagationInterceptor) (name : string)
  : bool :=
  let lower_name := lower name in
  if bool_decide (lower_name ∈ _blocked self) then false
  else if bool_decide (lower_name ∈ allowed_names self) then true
  else existsb (fun p => startswith lower_name p) (allowed_prefixes self).

(** One turn of the loop over [candidate_headers.items()]: the pair is
    ([headers], [added]). *)
Definition forward_one (self : HeadersPropagationInterceptor)
  (k : string) (v : PyValue)
  (acc : gmap string PyValue * gmap string PyValue)
  : gmap string PyValue * gmap string PyValue :=
  if is_str_or_bytes v && _is_allowed self k
  then (<[k:=v]> acc.1, <[k:=v]> acc.2)
  else acc.

Definition forward (self : HeadersPropagationInterceptor)
  (candidate_headers hdrs : gmap string PyValue)
  : gmap string PyValue * gmap string PyValue :=
  map_fold (forward_one self) (hdrs, ∅) candidate_headers.

(** [intercept]: the payload is returned as it came; the result is the
    transport options and the [added] dictionary that is logged. *)
Definition intercept (self : HeadersPropagationInterceptor)
  (http_kwargs : HttpKwargs) (context : option CallContext)
  : HttpKwargs * gmap string PyValue :=
  match context with
  | None => (http_kwargs, ∅)
  | Some ctx =>
      if bool_decide (state ctx = ∅) then (http_kwargs, ∅)
      else
        let candidate_headers :=
          match state ctx !! "propagation_headers" with
          | Some (Dict d) => Some d
          | _ => None
          end in
        match candidate_headers with
        | None => (http_kwargs, ∅)
        | Some d =>
            if bool_decide (d = ∅) then (http_kwargs, ∅)
            else
              let hdrs := default ∅ (headers http_kwargs) in
              let r := forward self d hdrs in
              ({| headers := Some r.1;
                  other_options := other_options http_kwargs |}, r.2)
        end
  end.

End HeadersPropagation.

(** ** Executor helpers (a2a/executors/utils/utils.py) *)

Module Utils.

Definition DEFAULT_USER_ID : string := "self".

(** An a2a message part and a Gen AI part.  A text part has its text and
    an optional [metadata] dictionary. *)
Inductive A2APart :=
| TextPart (text : string) (metadata : option (gmap string PyValue))
| FilePart (bytes mime_type : string)
| DataPart.

Record GenaiPart := {
  part_text : option string;
  inline_data : option (string * string);
  file_data : option string
}.

Definition text_part (t : string) : GenaiPart :=
  {| part_text := Some t; inline_data := None; file_data := None |}.

Definition convert_a2a_part_to_genai (part : A2APart) : res GenaiPart :=
  match part with
  | TextPart t _ => ok (text_part t)
  | _ => raise ValueError "Unsupported part type"
  end.

Definition convert_genai_part_to_a2a (part : GenaiPart) : res A2APart :=
  if truthy_opt_str (part_text part)
  then ok (TextPart (default "" (part_text part)) None)
  else
    match inline_data part with
    | Some (data, mime) => ok (FilePart data mime)
    | None => raise ValueError "Unsupported part type"
    end.

(** A list comprehension whose element expression may raise. *)
Fixpoint traverse {A B} (f : A → res B) (l : list A) : res (list B) :=
  match l with
  | [] => ok []
  | x :: l' =>
      let? y := f x in
      let? ys := traverse f l' in
      ok (y :: ys)
  end.

Record Message := { parts : list A2APart }.

Record RequestContext := {
  call_context : CallContext;
  context_id : string;
  task_id : string;
  message : option Message;
  has_current_task : bool
}.

(** [state.get(key, {})] read as a dictionary. *)
Definition state_dict (ctx : CallContext) (key : string)
  : res (gmap string PyValue) :=
  match state ctx !! key with
  | None => ok ∅
  | Some (Dict d) => ok d
  | Some (Leaf _) => raise AttributeError "object has no attribute 'get'"
  end.

Definition keep_header (acc : gmap string PyValue) (k : string) (v : PyValue)
  : gmap string PyValue :=
  if is_str_or_bytes v && startswith k "x-mapfre-" then <[k:=v]> acc else acc.

(** [get_propagated_headers]: [setdefault] hands back the inner, empty
    dictionary, which the loop then fills and the function returns. *)
Definition get_propagated_headers (request : RequestContext)
  : res (gmap string PyValue) :=
  let? hdrs := state_dict (call_context request) "headers" in
  ok (map_fold (fun k v acc => keep_header acc k v) ∅ hdrs).

(** [types.UserContent(parts=...)] of google-genai: the parts are
    required, and a list without any is refused. *)
Definition UserContent (parts : list GenaiPart) : res (list GenaiPart) :=
  match parts with
  | [] => raise ValueError "content parts are required."
  | _ :: _ => ok parts
  end.

(** The keyword arguments [generate_payload] builds; the task updater is
    threaded separately by the executors. *)
Record ExecPayload := {
  user_id : PyValue;
  session_id : PyValue;
  new_message : list GenaiPart;
  propagation_headers : gmap string PyValue
}.

Definition generate_payload (request : RequestContext) : res ExecPayload :=
  match message request with
  | None => raise ValueError "Request message cannot be None"
  | Some msg =>
      let? h1 := state_dict (call_context request) "headers" in
      let uid := default (Str DEFAULT_USER_ID) (h1 !! "x-mapfre-user-id") in
      let? h2 := state_dict (call_context request) "headers" in
      let sid :=
        default (Str (context_id request)) (h2 !! "x-mapfre-session-id") in
      let? converted := traverse convert_a2a_part_to_genai (parts msg) in
      let? content := UserContent converted in
      let? propagated := get_propagated_headers request in
      ok {| user_id := uid; session_id := sid; new_message := content;
            propagation_headers := propagated |}
  end.

End Utils.

(** ** Task executors (a2a/executors) *)

Module Executor.

Import Utils.

Inductive TaskState :=
| submitted | working | completed | failed | input_required.

Global Instance TaskState_eq_dec : EqDecision TaskState.
Proof. solve_decision. Defined.

(** What a [TaskUpdater] puts on the event queue, where the caller reads
    it. *)
Inductive QueueEvent :=
| StatusUpdate (st : TaskState) (msg : option (list A2APart)) (final : bool)
| ArtifactUpdate (artifact : list A2APart) (name : option string).

(** The a2a SDK behind the updater: given the event about to be queued and
    the queue so far, it either raises or accepts the event. *)
Definition Sdk := QueueEvent → list QueueEvent → option exn.

Definition enqueue (sdk : Sdk) (ev : QueueEvent) (queue : list QueueEvent)
  : res (list QueueEvent) :=
  match sdk ev queue with
  | Some e => inl e
  | None => ok (queue ++ [ev])%list
  end.

Definition update_status (sdk : Sdk) (st : TaskState)
  (msg : option (list A2APart)) (final : bool) :=
  enqueue sdk (StatusUpdate st msg final).

Definition add_artifact (sdk : Sdk) (artifact : list A2APart)
  (name : option string) :=
  enqueue sdk (ArtifactUpdate artifact name).

Definition complete (sdk : Sdk) := update_status sdk completed None true.

(** The state an executor run leaves behind: the exception that left the
    call, if any, the active-session set and the event queue. *)
Record Ran := {
  raised : option exn;
  active_sessions : gset string;
  queue : list QueueEvent
}.

(** *** ADK *)

Record Event := {
  is_final_response : bool;
  content : option (list GenaiPart);
  function_calls : list string
}.

Record Session := { session_obj_id : string }.

(** The ADK runner: its session service and its event generator. *)
Record Runner := {
  get_session : PyValue → PyValue → res (option Session);
  create_session : PyValue → PyValue → res Session;
  run_async :
    string → PyValue → list GenaiPart → gmap string PyValue → Stream Event
}.

Definition has_payload (part : GenaiPart) : bool :=
  truthy_opt_str (part_text part)
  || bool_decide (is_Some (file_data part))
  || bool_decide (is_Some (inline_data part)).

Definition has_text (part : GenaiPart) : bool :=
  truthy_opt_str (part_text part).

(** The body of the [async for] in [ADKAgentA2AExecutor._process_request]:
    the exception that leaves the loop, if any, and the queue. *)
Fixpoint adk_consume (sdk : Sdk) (events : Stream Event)
  (queue : list QueueEvent) : option exn * list QueueEvent :=
  match events with
  | Stop => (None, queue)
  | Throw e => (Some e, queue)
  | Yield event rest =>
      if is_final_response event then
        match traverse convert_genai_part_to_a2a
                (List.filter has_payload (default [] (content event))) with
        | inl e => (Some e, queue)
        | inr a2a_parts =>
            match add_artifact sdk a2a_parts None queue with
            | inl e => (Some e, queue)
            | inr queue1 =>
                match update_status sdk completed None true queue1 with
                | inl e => (Some e, queue1)
                | inr queue2 => (None, queue2)
                end
            end
        end
      else
        match function_calls event with
        | [] =>
            match traverse convert_genai_part_to_a2a
                    (List.filter has_text (default [] (content event))) with
            | inl e => (Some e, queue)
            | inr message_parts =>
                match update_status sdk working (Some message_parts) false
                        queue with
                | inl e => (Some e, queue)
                | inr queue1 => adk_consume sdk rest queue1
                end
            end
        | _ :: _ => adk_consume sdk rest queue
        end
  end.

(** [_upsert_session] *)
Definition _upsert_session (runner : Runner) (sid uid : PyValue)
  : res Session :=
  let? found := get_session runner uid sid in
  match found with
  | Some session => ok session
  | None => create_session runner uid sid
  end.

(** [ADKAgentA2AExecutor._process_request]: the session id is added, the
    events are consumed inside [try], and [finally] discards the id. *)
Definition adk_process_request (runner : Runner) (sdk : Sdk)
  (payload : ExecPayload) (active : gset string) (queue : list QueueEvent)
  : Ran :=
  match _upsert_session runner (session_id payload) (user_id payload) with
  | inl e => {| raised := Some e; active_sessions := active; queue := queue |}
  | inr session_obj =>
      let sid := session_obj_id session_obj in
      let active1 := active ∪ {[ sid ]} in
      let r :=
        adk_consume sdk
          (run_async runner sid (user_id payload) (new_message payload)
             (propagation_headers payload))
          queue in
      {| raised := r.1; active_sessions := active1 ∖ {[ sid ]};
         queue := r.2 |}
  end.

(** The statements of [execute] that both executors share, up to the call
    of [_process_request]. *)
Definition execute_with
  (process : ExecPayload → gset string → list QueueEvent → Ran)
  (sdk : Sdk) (context : RequestContext) (active : gset string)
  (queue : list QueueEvent) : Ran :=
  let stop e q := {| raised := Some e; active_sessions := active; queue := q |} in
  let announced :=
    if has_current_task context then ok queue
    else update_status sdk submitted None false queue in
  match announced with
  | inl e => stop e queue
  | inr queue1 =>
      match update_status sdk working None false queue1 with
      | inl e => stop e queue1
      | inr queue2 =>
          match generate_payload context with
          | inl e => stop e queue2
          | inr payload => process payload active queue2
          end
      end
  end.

Definition adk_execute (runner : Runner) (sdk : Sdk) :=
  execute_with (adk_process_request runner sdk) sdk.

(** *** LangChain *)

(** An item of the agent executor's stream, with the defaults of
    [item.get] applied. *)
Record Item := {
  is_task_complete : bool;
  require_user_input : bool;
  item_content : string
}.

(** [str.strip()] *)
Fixpoint lstrip (s : string) : string :=
  match s with
  | String c s' => if isspace c then lstrip s' else s
  | EmptyString => EmptyString
  end.

Definition strip (s : string) : string :=
  String.rev (lstrip (String.rev (lstrip s))).

(** The query text gathered from the parts that carry text. *)
Fixpoint gather_query (query : string) (l : list GenaiPart) : string :=
  match l with
  | [] => query
  | part :: l' =>
      if truthy_opt_str (part_text part)
      then gather_query (query +:+ default "" (part_text part) +:+ " ") l'
      else gather_query query l'
  end.

(** The body of the [async for] in
    [LangChainAgentA2AExecutor._process_request]. *)
Fixpoint langchain_consume (sdk : Sdk) (items : Stream Item)
  (queue : list QueueEvent) : option exn * list QueueEvent :=
  match items with
  | Stop => (None, queue)
  | Throw e => (Some e, queue)
  | Yield item rest =>
      if require_user_input item then
        match convert_genai_part_to_a2a (text_part (item_content item)) with
        | inl e => (Some e, queue)
        | inr part =>
            match update_status sdk input_required (Some [part]) true queue
            with
            | inl e => (Some e, queue)
            | inr queue1 => langchain_consume sdk rest queue1
            end
        end
      else if is_task_complete item then
        match convert_genai_part_to_a2a (text_part (item_content item)) with
        | inl e => (Some e, queue)
        | inr part =>
            match add_artifact sdk [part] (Some "final_agent_response") queue
            with
            | inl e => (Some e, queue)
            | inr queue1 =>
                match complete sdk queue1 with
                | inl e => (Some e, queue1)
                | inr queue2 => langchain_consume sdk rest queue2
                end
            end
        end
      else langchain_consume sdk rest queue
  end.

(** The statements inside [try]. *)
Definition langchain_try (sdk : Sdk)
  (stream : string → PyValue → gmap string PyValue → Stream Item)
  (payload : ExecPayload) (queue : list QueueEvent)
  : option exn * list QueueEvent :=
  let query := strip (gather_query "" (new_message payload)) in
  if negb (truthy_str query) then
    match convert_genai_part_to_a2a
            (text_part "No text content found in the message") with
    | inl e => (Some e, queue)
    | inr part =>
        match update_status sdk failed (Some [part]) true queue with
        | inl e => (Some e, queue)
        | inr queue1 => (None, queue1)
        end
    end
  else
    langchain_consume sdk
      (stream query (session_id payload) (propagation_headers payload)) queue.

(** [LangChainAgentA2AExecutor._process_request]: the [except Exception]
    clause reports [failed] and raises the classified error. *)
Definition langchain_process_request (sdk : Sdk)
  (stream : string → PyValue → gmap string PyValue → Stream Item)
  (payload : ExecPayload) (active : gset string) (queue : list QueueEvent)
  : Ran :=
  match langchain_try sdk stream payload queue with
  | (None, queue1) =>
      {| raised := None; active_sessions := active; queue := queue1 |}
  | (Some e, queue1) =>
      if isinstance e Exception then
        match convert_genai_part_to_a2a
                (text_part ("Error processing request: " +:+ exn_msg e)) with
        | inl e' =>
            {| raised := Some e'; active_sessions := active; queue := queue1 |}
        | inr part =>
            match update_status sdk failed (Some [part]) true queue1 with
            | inl e' =>
                {| raised := Some e'; active_sessions := active;
                   queue := queue1 |}
            | inr queue2 =>
                {| raised := Some (Raise (ServerError InternalError) "");
                   active_sessions := active; queue := queue2 |}
            end
        end
      else {| raised := Some e; active_sessions := active; queue := queue1 |}
  end.

Definition langchain_execute (sdk : Sdk)
  (stream : string → PyValue → gmap string PyValue → Stream Item) :=
  execute_with (langchain_process_request sdk stream) sdk.

End Executor.

(** ** Remote-agent registry
    (agents/frameworks/a2a_agent_communication.py,
     a2a/client/remote_agent_connector.py) *)

Module Registry.

Import Auth.

(** The mapping under a remote agent's [auth] key, before validation. *)
Record RawAuth := {
  raw_type : option string;
  raw_security : option (list Requirement)
}.

(** One entry of [remote_agent_configs]. *)
Record RemoteConfig := {
  url : option string;
  auth : option RawAuth
}.

(** [AuthConfig] built from the unpacked mapping: unpacking [None] is a
    [TypeError]; the [type] entry must name a member of [AuthType] and
    defaults to [NO_AUTH]. *)
Definition make_AuthConfig (mapping : option RawAuth) : res AuthConfig :=
  match mapping with
  | None => raise TypeError "argument after ** must be a mapping, not NoneType"
  | Some raw =>
      let? kind :=
        match raw_type raw with
        | None => ok NO_AUTH
        | Some t =>
            if bool_decide (t = "noauth") then ok NO_AUTH
            else if bool_decide (t = "cognito") then ok COGNITO
            else raise ValidationError "type: input should be 'noauth' or 'cognito'"
        end in
      ok {| type := kind; auth_security := raw_security raw |}
  end.

Inductive Interceptor :=
| SessionInterceptor
| AuthInterceptor (kind : AuthType) (scope : option string).

(** [RemoteAgentConnections]: the card and the interceptor chain of the
    dedicated client. *)
Record RemoteAgentConnections := {
  card : AgentCard;
  interceptors : list Interceptor
}.

(** The outside world of the registry: the card resolver and the client
    factory, each of which may raise. *)
Record World := {
  get_agent_card : option string → res AgentCard;
  factory_create : AgentCard → list Interceptor → option exn
}.

(** [RemoteAgentConnections.__init__] *)
Definition connect (world : World) (agent_card : AgentCard)
  (auth_config : AuthConfig) : res RemoteAgentConnections :=
  let chain :=
    match type auth_config, auth_security auth_config with
    | COGNITO, Some (first_scheme :: _) =>
        let scopes :=
          match first_scheme with
          | (_, scope_list) :: _ => Some (join " " scope_list)
          | [] => None
          end in
        [SessionInterceptor; AuthInterceptor (type auth_config) scopes]
    | _, _ => [SessionInterceptor]
    end in
  match factory_create world agent_card chain with
  | Some e => inl e
  | None => ok {| card := agent_card; interceptors := chain |}
  end.

(** [A2AAgentCommunicationBase]; the [agents] summary, a rendering of
    [cards], is left out. *)
Record A2AAgentCommunicationBase := {
  remote_agent_connections : gmap string RemoteAgentConnections;
  cards : gmap string AgentCard;
  is_initialized : bool;
  remote_agent_configs : option (list RemoteConfig)
}.

Definition new (configs : option (list RemoteConfig))
  : A2AAgentCommunicationBase :=
  {| remote_agent_connections := ∅; cards := ∅; is_initialized := false;
     remote_agent_configs := configs |}.

Definition store (self : A2AAgentCommunicationBase)
  (c : RemoteAgentConnections) : A2AAgentCommunicationBase :=
  {| remote_agent_connections :=
       <[name (card c) := c]> (remote_agent_connections self);
     cards := <[name (card c) := card c]> (cards self);
     is_initialized := is_initialized self;
     remote_agent_configs := remote_agent_configs self |}.

Definition set_initialized (self : A2AAgentCommunicationBase)
  : A2AAgentCommunicationBase :=
  {| remote_agent_connections := remote_agent_connections self;
     cards := cards self; is_initialized := true;
     remote_agent_configs := remote_agent_configs self |}.

(** The statements inside the [try] of the loop body. *)
Definition attempt (world : World) (address : option string)
  (auth_config : AuthConfig) : res RemoteAgentConnections :=
  let? agent_card := get_agent_card world address in
  connect world agent_card auth_config.

(** The [for] loop of [initialize]: the exception that leaves it, if any,
    and the registry. *)
Fixpoint connect_each (world : World) (configs : list RemoteConfig)
  (self : A2AAgentCommunicationBase)
  : option exn * A2AAgentCommunicationBase :=
  match configs with
  | [] => (None, self)
  | config :: configs' =>
      let address := url config in
      match make_AuthConfig (auth config) with
      | inl e => (Some e, self)
      | inr auth_config =>
          match attempt world address auth_config with
          | inr connection =>
              connect_each world configs' (store self connection)
          | inl e =>
              if isinstance e Exception
              then connect_each world configs' self
              else (Some e, self)
          end
      end
  end.

(** A config dictionary is true when it has an entry. *)
Definition truthy_config (config : RemoteConfig) : bool :=
  bool_decide (is_Some (url config)) || bool_decide (is_Some (auth config)).

(** [initialize] *)
Definition initialize (world : World) (self : A2AAgentCommunicationBase)
  : option exn * A2AAgentCommunicationBase :=
  match remote_agent_configs self with
  | None | Some [] => (None, set_initialized self)
  | Some (first :: rest) =>
      if negb (truthy_config first) then (None, set_initialized self)
      else
        match connect_each world (first :: rest) self with
        | (Some e, self1) => (Some e, self1)
        | (None, self1) => (None, set_initialized self1)
        end
  end.

End Registry.

(** ** Streaming event normaliser (a2a/client/app_client.py) *)

Module AppClient.

(** Attribute and dictionary values. *)
#[warnings="-register-all"]
Inductive JV :=
| JNone
| JBool (b : bool)
| JNum (n : Z)
| JStr (s : string)
| JList (l : list JV).

Definition truthy (v : JV) : bool :=
  match v with
  | JNone => false
  | JBool b => b
  | JNum n => negb (n =? 0)%Z
  | JStr s => truthy_str s
  | JList [] => false
  | JList (_ :: _) => true
  end.

(** How an object turns into a dictionary: a pydantic model
    ([model_dump(exclude_none=True)]), an object with [_asdict] ([pairs]
    is what [dict(item)] makes of it; a named tuple is such an object,
    and comes here only as the first field of a pair, since an item that
    is a tuple is unpacked first), a plain [dict], or none of these (not
    iterable: only [str] applies). *)
Inductive Shape :=
| Model (dump : gmap string JV)
| WithAsdict (asdict : gmap string JV) (pairs : res (gmap string JV))
| Mapping (d : gmap string JV)
| Opaque (shown : string).

(** A response object: the attributes the normaliser probes with
    [hasattr] and [getattr] ([None] when the attribute is missing). *)
Record Obj := {
  attr_artifacts : option JV;
  attr_id : option JV;
  attr_parts : option JV;
  attr_event : option string;
  attr_type : option string;
  shape : Shape
}.

Inductive Root :=
| ErrorResponse (error : gmap string JV)
| Result (event_payload : Obj).

(** What the low-level client yields: an object with a [root], a tuple
    (plain or named, with its fields in order), or an object that is no
    tuple. *)
Inductive Item :=
| Rooted (root : Root)
| Tupled (fields : list Obj)
| Object (o : Obj).

Record NormalizedEvent := {
  event : string;
  data : gmap string JV;
  id : string
}.

(** [x.model_dump(exclude_none=True) if hasattr(x, "model_dump") else dict(x)] *)
Definition to_dict (o : Obj) : res (gmap string JV) :=
  match shape o with
  | Model dump => ok dump
  | Mapping d => ok d
  | WithAsdict _ pairs => pairs
  | Opaque _ => raise TypeError "object is not iterable"
  end.

(** The fallback payload of the last branch. *)
Definition to_payload (o : Obj) : gmap string JV :=
  match shape o with
  | Model dump => dump
  | WithAsdict asdict _ => asdict
  | Mapping d => d
  | Opaque shown => {[ "value" := JStr shown ]}
  end.

Definition message_event (o : Obj) (rid : string) : res NormalizedEvent :=
  let? d := to_dict o in
  ok {| event := "message";
        data := <["id" := default (JStr rid) (attr_id o)]> d;
        id := rid |}.

Definition first_true (a b : option string) (dflt : string) : string :=
  if truthy_opt_str a then default "" a
  else if truthy_opt_str b then default "" b
  else dflt.

(** [item, _ = item]: a tuple is unpacked into its first field, and only
    a pair can be. *)
Definition unpack (fields : list Obj) : res Obj :=
  match fields with
  | [first; _] => ok first
  | [] | [_] => raise ValueError "not enough values to unpack (expected 2)"
  | _ => raise ValueError "too many values to unpack (expected 2)"
  end.

(** The body of the [async for] in [send_message], for an object that is
    no tuple, or for the first field of a pair. *)
Definition normalize_object (o : Obj) (rid : string) : res NormalizedEvent :=
  if match attr_artifacts o with Some v => truthy v | None => false end
  then message_event o rid
  else if bool_decide (is_Some (attr_parts o)) then message_event o rid
  else
    ok {| event := first_true (attr_event o) (attr_type o) "update";
          data := to_payload o;
          id := rid |}.

(** The loop of [send_message]: the events yielded, oldest first, and the
    exception that ended the generator, if any. *)
Fixpoint normalize (rid : string) (items : Stream Item)
  : list NormalizedEvent * option exn :=
  match items with
  | Stop => ([], None)
  | Throw e => ([], Some e)
  | Yield item rest =>
      match item with
      | Rooted (ErrorResponse err) =>
          ([ {| event := "error"; data := err; id := rid |} ], None)
      | Rooted (Result event_payload) =>
          match message_event event_payload rid with
          | inl e => ([], Some e)
          | inr ev => let r := normalize rid rest in (ev :: r.1, r.2)
          end
      | Tupled fields =>
          match (let? first := unpack fields in normalize_object first rid)
          with
          | inl e => ([], Some e)
          | inr ev => let r := normalize rid rest in (ev :: r.1, r.2)
          end
      | Object o =>
          match normalize_object o rid with
          | inl e => ([], Some e)
          | inr ev => let r := normalize rid rest in (ev :: r.1, r.2)
          end
      end
  end.

(** The message handed to the low-level client. *)
Record OutMessage := {
  out_text : string;
  message_id : string;
  out_context_id : option string
}.

(** [send_message]: [uuid] is the value [uuid4().hex] would give. *)
Definition send_message (client : OutMessage → Stream Item) (uuid : string)
  (text : string) (message_id context_id request_id : option string)
  : list NormalizedEvent * option exn :=
  let mid := if truthy_opt_str message_id then default "" message_id else uuid in
  let rid := if truthy_opt_str request_id then default "" request_id else mid in
  let message :=
    {| out_text := text; message_id := mid; out_context_id := context_id |} in
  normalize rid (client message).

End AppClient.

(** ** Broad forwarding (a2a/interceptors/session_interceptor.py) *)

Module SessionForwarding.

(** The inner loop over a nested [propagation_headers] dictionary. *)
Definition copy_header (k : string) (v : PyValue)
  (hdrs : gmap string PyValue) : gmap string PyValue :=
  if is_str_or_bytes v then <[k:=v]> hdrs else hdrs.

Definition flatten (d hdrs : gmap string PyValue) : gmap string PyValue :=
  map_fold copy_header hdrs d.

(** One turn of the loop over [context.state.items()]. *)
Definition forward_entry (hdrs : gmap string PyValue)
  (entry : string * StateValue) : gmap string PyValue :=
  match entry with
  | (key, Dict d) =>
      if bool_decide (key = "propagation_headers") then flatten d hdrs
      else hdrs
  | (key, Leaf v) => if is_str_or_bytes v then <[key:=v]> hdrs else hdrs
  end.

(** [SessionInterceptor.intercept]: the context's state is given as its
    items, in the order the dictionary yields them. *)
Definition intercept (http_kwargs : HttpKwargs)
  (context : option (list (string * StateValue))) : HttpKwargs :=
  match context with
  | None | Some [] => http_kwargs
  | Some items =>
      let hdrs := default ∅ (headers http_kwargs) in
      {| headers := Some (fold_left forward_entry items hdrs);
         other_options := other_options http_kwargs |}
  end.

End SessionForwarding.

(** ** Cancellation (a2a/executors/adk/agent_a2a_executor.py) *)

Module Cancellation.

Import Utils Executor.

(** [session_id in self._active_sessions]: the set holds text, so only a
    text value can be a member (the value is taken to be hashable, as
    text and bytes are). *)
Definition member (v : PyValue) (active : gset string) : bool :=
  match v with
  | Str s => bool_decide (s ∈ active)
  | _ => false
  end.

Definition discard (v : PyValue) (active : gset string) : gset string :=
  match v with
  | Str s => active ∖ {[ s ]}
  | _ => active
  end.

(** [ADKAgentA2AExecutor.cancel] *)
Definition adk_cancel (context : RequestContext) (active : gset string)
  (queue : list QueueEvent) : Ran :=
  match state_dict (call_context context) "headers" with
  | inl e => {| raised := Some e; active_sessions := active; queue := queue |}
  | inr hdrs =>
      let session_id :=
        default (Str (context_id context)) (hdrs !! "x-mapfre-session-id") in
      let active1 :=
        if member session_id active then discard session_id active
        else active in
      {| raised := Some (Raise (ServerError UnsupportedOperationError) "");
         active_sessions := active1; queue := queue |}
  end.

End Cancellation.

(** ** Delegation to a remote agent
    (agents/frameworks/adk/agent_builder.py) *)

Module Delegation.

Import Registry.

(** The entries of the tool context's state that [send_message] reads and
    writes: the context id kept per remote agent, the task id and the id
    of the incoming message. *)
Record ToolState := {
  remote_agent_contexts : option (gmap string string);
  state_task_id : option string;
  input_message_id : option string
}.

(** The message built for the remote agent. *)
Record OutboundMessage := {
  role : string;
  text : string;
  message_id : string;
  msg_task_id : option string;
  msg_context_id : option string
}.

(** [A2AAgentCommunicationBase.create_send_message_payload]: [uuid] is the
    value of [uuid4().hex]; an id is only set when it is true. *)
Definition create_send_message_payload (uuid body : string)
  (task_id context_id : option string) : OutboundMessage :=
  {| role := "user"; text := body; message_id := uuid;
     msg_task_id := if truthy_opt_str task_id then task_id else None;
     msg_context_id := if truthy_opt_str context_id then context_id else None |}.

(** What the connection yields: a task, possibly paired with an update,
    or something else. *)
Inductive Reply :=
| TaskReply (task : string)
| PairReply (first : option string)
| OtherReply.

(** The last item of the response stream, or the exception that ended
    it. *)
Fixpoint last_reply (last : option Reply) (replies : Stream Reply)
  : res (option Reply) :=
  match replies with
  | Stop => ok last
  | Throw e => inl e
  | Yield reply rest => last_reply (Some reply) rest
  end.

Definition set_context (st : ToolState) (agent_name cid : string)
  : ToolState :=
  {| remote_agent_contexts :=
       Some (<[agent_name := cid]> (default ∅ (remote_agent_contexts st)));
     state_task_id := state_task_id st;
     input_message_id := input_message_id st |}.

(** [ADKAgentStrategy.send_message]: [fresh_context], [fresh_message] and
    [fresh_payload] are the three values [uuid4] would give; [transport]
    is the connection's [send_message].  The result is the task returned
    (or the exception raised) and the state afterwards. *)
Definition send_message
  (connections : gmap string RemoteAgentConnections)
  (transport :
     RemoteAgentConnections → OutboundMessage → ToolState → Stream Reply)
  (fresh_context fresh_message fresh_payload : string)
  (agent_name task : string) (st : ToolState)
  : res (option string) * ToolState :=
  match connections !! agent_name with
  | None =>
      (raise ValueError ("Agent '" +:+ agent_name +:+ "' not found."), st)
  | Some client =>
      let st1 :=
        match remote_agent_contexts st with
        | None =>
            {| remote_agent_contexts := Some ∅;
               state_task_id := state_task_id st;
               input_message_id := input_message_id st |}
        | Some _ => st
        end in
      let st2 :=
        match default ∅ (remote_agent_contexts st1) !! agent_name with
        | None => set_context st1 agent_name fresh_context
        | Some _ => st1
        end in
      let context_id := default ∅ (remote_agent_contexts st2) !! agent_name in
      let task_id := state_task_id st2 in
      let message_id := default fresh_message (input_message_id st2) in
      let payload :=
        create_send_message_payload fresh_payload task task_id context_id in
      let message :=
        {| role := role payload; text := text payload;
           message_id := message_id; msg_task_id := msg_task_id payload;
           msg_context_id := msg_context_id payload |} in
      match last_reply None (transport client message st2) with
      | inl e => (inl e, st2)
      | inr send_response =>
          (ok match send_response with
              | Some (TaskReply t) => Some t
              | Some (PairReply first) => first
              | Some OtherReply | None => None
              end, st2)
      end
  end.

End Delegation.

(** * Properties *)

(** ** Exceptions and [except] clauses *)

Lemma isinstance_Exception (e : exn) : isinstance e Exception = true.
Proof.
  destruct e as [c msg]. unfold isinstance. apply bool_decide_eq_true.
  destruct c; simpl; set_solver.
Qed.

Lemma except_catch_all {A} (clauses : list (exn_class * (exn → A)))
  (h : exn → A) (e : exn) :
  is_Some (except (clauses ++ [(Exception, h)])%list e).
Proof.
  unfold except.
  destruct (List.find _ _) as [clause|] eqn:Hfind; [by eexists|].
  exfalso.
  assert (In (Exception, h) (clauses ++ [(Exception, h)])%list) as Hin
    by (apply in_or_app; right; by left).
  pose proof (find_none _ _ Hfind _ Hin) as Hno. simpl in Hno.
  by rewrite isinstance_Exception in Hno.
Qed.

(** ** Text *)

Lemma append_cons (c : ascii) (s t : string) :
  String c s +:+ t = String c (s +:+ t).
Proof. reflexivity. Qed.

Lemma append_empty (s : string) : s +:+ "" = s.
Proof.
  induction s as [|c s IH]; [done|]. by rewrite append_cons, IH.
Qed.

Lemma prefix_split (p s : string) :
  String.prefix p s = true → ∃ rest, s = p +:+ rest.
Proof.
  revert s. induction p as [|a p IH]; intros s.
  - intros _. by exists s.
  - destruct s as [|b s]; simpl; [discriminate|].
    destruct (ascii_dec a b) as [->|]; [|discriminate].
    intros [rest ->]%IH. by exists rest.
Qed.

Lemma prefix_app (p rest : string) : String.prefix p (p +:+ rest) = true.
Proof.
  induction p as [|a p IH]; simpl; [by destruct rest|].
  by destruct (ascii_dec a a).
Qed.

Lemma prefix_refl (s : string) : String.prefix s s = true.
Proof.
  induction s as [|a s IH]; simpl; [done|]. by destruct (ascii_dec a a).
Qed.

Lemma prefix_app_l (p s t : string) :
  String.prefix p s = true → String.prefix p (s +:+ t) = true.
Proof.
  revert s. induction p as [|a p IH]; intros s; [by destruct (s +:+ t)|].
  destruct s as [|b s]; simpl; [discriminate|].
  destruct (ascii_dec a b); [apply IH | discriminate].
Qed.

Lemma str_contains_prefix (sub s : string) :
  String.prefix sub s = true → str_contains sub s = true.
Proof.
  intros H. destruct s as [|c s].
  - change (str_contains sub "") with (String.prefix sub "" || false).
    by rewrite H.
  - change (str_contains sub (String c s))
      with (String.prefix sub (String c s) || str_contains sub s).
    by rewrite H.
Qed.

Lemma str_contains_app_r (sub p s : string) :
  str_contains sub s = true → str_contains sub (p +:+ s) = true.
Proof.
  intros Hs. induction p as [|c p IH]; [done|]. rewrite append_cons.
  change (str_contains sub (String c (p +:+ s)))
    with (String.prefix sub (String c (p +:+ s)) || str_contains sub (p +:+ s)).
  rewrite IH. apply orb_true_r.
Qed.

Lemma str_contains_app_l (sub s t : string) :
  str_contains sub s = true → str_contains sub (s +:+ t) = true.
Proof.
  induction s as [|c s IH].
  - change (str_contains sub "") with (String.prefix sub "" || false).
    rewrite orb_false_r. intros H. apply str_contains_prefix.
    by apply (prefix_app_l sub "" t).
  - change (str_contains sub (String c s))
      with (String.prefix sub (String c s) || str_contains sub s).
    intros [H|H]%orb_true_iff.
    + apply str_contains_prefix. by apply prefix_app_l.
    + rewrite append_cons.
      change (str_contains sub (String c (s +:+ t)))
        with (String.prefix sub (String c (s +:+ t))
              || str_contains sub (s +:+ t)).
      rewrite IH by done. apply orb_true_r.
Qed.

(** Every element of a joined list occurs in the joined text. *)
Lemma str_contains_join (sep x : string) (l : list string) :
  x ∈ l → str_contains x (join sep l) = true.
Proof.
  induction l as [|y l IH]; intros Hin; [by apply elem_of_nil in Hin|].
  apply elem_of_cons in Hin as [->|Hin].
  - destruct l as [|z l]; simpl.
    + apply str_contains_prefix, prefix_refl.
    + apply str_contains_app_l, str_contains_prefix, prefix_refl.
  - destruct l as [|z l]; [by apply elem_of_nil in Hin|].
    change (join sep (y :: z :: l)) with (y +:+ sep +:+ join sep (z :: l)).
    by apply str_contains_app_r, str_contains_app_r, IH.
Qed.

(** ** Cognito credential service *)

Section CognitoCache.

Import Cognito.
Local Open Scope Z_scope.

Variable self : CognitoM2MCredentialService.
Variable reply : res TokenData.

(** A successful fetch records the expiry with the skew already taken
    off: [now + expires_in - 60], with [expires_in] defaulting to 3600. *)
Lemma fetch_token_records_expiry (now : Z) (token_data : TokenData)
  (tok : string) :
  td_access_token token_data = Some tok →
  let r := _fetch_token self (inr token_data) now in
  outcome r = ok tt
  ∧ _access_token (after r) = Some tok
  ∧ _expires_at (after r)
    = now + default 3600 (td_expires_in token_data) - 60
  ∧ length (posted r) = 1%nat.
Proof. intros Htok. unfold _fetch_token. rewrite Htok. by simpl. Qed.

Lemma get_credentials_cached (now now' : Z) :
  truthy_opt_str (_access_token self) = true →
  now ≤ _expires_at self →
  get_credentials self reply now now'
  = {| outcome := ok (_access_token self); after := self; posted := [] |}.
Proof.
  intros Htok Hle. unfold get_credentials. rewrite Htok. simpl.
  rewrite bool_decide_eq_false_2; [done | lia].
Qed.

Lemma get_credentials_refetch (now now' : Z) :
  now > _expires_at self →
  posted (get_credentials self reply now now')
  = posted (_fetch_token self reply now')
  ∧ length (posted (get_credentials self reply now now')) = 1%nat.
Proof.
  intros Hgt. unfold get_credentials.
  rewrite (bool_decide_eq_true_2 _ Hgt), orb_true_r.
  unfold _fetch_token.
  destruct reply as [e|td]; simpl; [done|].
  destruct (td_access_token td); by simpl.
Qed.

End CognitoCache.

(** C4, as the code has it.  For a cached, non-empty token with recorded
    expiry [e = _expires_at] (which a fetch sets to the clock plus
    [expires_in] minus 60 seconds), [get_credentials] at a time [now ≤ e]
    returns the cached token and sends nothing to the token endpoint, and
    at a time [now > e] it sends exactly one client-credentials request.
    The 60-second skew is inside [e]; it is not taken off a second time. *)
Theorem get_credentials_reuse_until_recorded_expiry
  (self : Cognito.CognitoM2MCredentialService)
  (reply : res Cognito.TokenData) (now now' : Z) :
  truthy_opt_str (Cognito._access_token self) = true →
  ((now ≤ Cognito._expires_at self)%Z →
     Cognito.outcome (Cognito.get_credentials self reply now now')
     = ok (Cognito._access_token self)
     ∧ Cognito.after (Cognito.get_credentials self reply now now') = self
     ∧ Cognito.posted (Cognito.get_credentials self reply now now') = [])
  ∧ ((now > Cognito._expires_at self)%Z →
     ∃ request,
       Cognito.posted (Cognito.get_credentials self reply now now')
       = [request]
       ∧ Cognito.grant_type request = "client_credentials"
       ∧ Cognito.post_url request = Cognito.token_url self).
Proof.
  intros Htok. split.
  - intros Hle. by rewrite get_credentials_cached.
  - intros Hgt.
    destruct (get_credentials_refetch self reply now now' Hgt) as [-> _].
    unfold Cognito._fetch_token.
    destruct reply as [e|td]; simpl; [by eexists|].
    destruct (Cognito.td_access_token td); simpl; by eexists.
Qed.

Definition cached_service : Cognito.CognitoM2MCredentialService :=
  {| Cognito.client_id := "client"; Cognito.client_secret := "secret";
     Cognito.scope := "agents/read";
     Cognito.token_url := "https://auth.example/oauth2/token";
     Cognito._access_token := Some "tok"; Cognito._expires_at := 1000 |}.

Definition fresh_reply : res Cognito.TokenData :=
  ok {| Cognito.td_access_token := Some "tok2";
        Cognito.td_expires_in := Some 3600%Z |}.

Lemma get_credentials_reuse_until_recorded_expiry_witness :
  Cognito.posted (Cognito.get_credentials cached_service fresh_reply 1000 1000)
  = [].
Proof.
  apply (get_credentials_reuse_until_recorded_expiry
           cached_service fresh_reply 1000 1000).
  - reflexivity.
  - simpl. lia.
Defined.

(** C4, as stated, fails: sixty seconds before the recorded expiry, the
    instant from which a new fetch is said to be mandatory, the cached
    token is returned and the token endpoint is not contacted. *)
Lemma get_credentials_no_refetch_sixty_before_expiry :
  let e := Cognito._expires_at cached_service in
  let now := (e - 60)%Z in
  (now >= e - 60)%Z
  ∧ Cognito.get_credentials cached_service fresh_reply now now
    = {| Cognito.outcome := ok (Some "tok");
         Cognito.after := cached_service;
         Cognito.posted := [] |}.
Proof. split; [simpl; lia | reflexivity]. Qed.

(** ** Authentication gateway *)

Section Gateway.

Import Auth.

(** A gateway that is not the NoAuth one was built from a declared
    security requirement: the scheme and the required claims are set. *)
Lemma init_protected_has_scheme (card : AgentCard) (auth : option AuthConfig)
  (paths : option (list string)) (self : Middleware) :
  __init__ card auth paths = ok self →
  credential_service self ≠ NO_AUTH →
  is_Some (a2a_auth self) ∧ is_Some (security_scheme self).
Proof.
  unfold __init__, init_body.
  destruct (security card) as [[|sec_req rest]|]; simpl.
  - intros [= <-]. by simpl.
  - destruct sec_req as [scheme_name|[|[scheme_name claims] entries]|]; simpl;
      try discriminate;
      (destruct (security_schemes card) as [schemes|]; simpl;
       [destruct (schemes !! scheme_name); simpl|]; try discriminate;
       destruct auth; simpl; try discriminate;
       intros [= <-]; simpl; eauto).
  - intros [= <-]. by simpl.
Qed.

Lemma dispatch_protected (self : Middleware) (env : Collaborators)
  (request : Request) :
  url_path request ∉ public_paths self →
  credential_service self ≠ NO_AUTH →
  dispatch self env request
  = match authenticate self env request with
    | inl e =>
        match except (auth_failure_clauses request) e with
        | Some response => Respond response
        | None => Propagate e
        end
    | inr payload => check_claims self payload request
    end.
Proof.
  intros Hpath Hkind. unfold dispatch.
  by rewrite (bool_decide_eq_false_2 _ Hpath), (bool_decide_eq_false_2 _ Hkind).
Qed.

Lemma status_unauthorized (reason : string) (request : Request) :
  status_code (_unauthorized reason request) = 401%Z.
Proof. unfold _unauthorized. by destruct (accepts_event_stream request). Qed.

Lemma status_forbidden (reason : string) (request : Request) :
  status_code (_forbidden reason request) = 403%Z.
Proof. unfold _forbidden. by destruct (accepts_event_stream request). Qed.

Lemma status_service_unavailable (reason : string) (request : Request) :
  status_code (_service_unavailable reason request) = 503%Z.
Proof.
  unfold _service_unavailable. by destruct (accepts_event_stream request).
Qed.

(** The clauses map every exception to one response: a JWKS fetch failure
    to the 503 one, anything else to a 401. *)
Lemma auth_failure_clauses_total (request : Request) (e : exn) :
  (isinstance e JWKSFetchError = true
   ∧ except (auth_failure_clauses request) e
     = Some (_service_unavailable "Unable to fetch JWKS" request))
  ∨ (isinstance e JWKSFetchError = false
     ∧ ∃ reason,
         except (auth_failure_clauses request) e
         = Some (_unauthorized reason request)).
Proof.
  destruct e as [c msg].
  destruct c; try (left; split; reflexivity);
    right; (split; [reflexivity | eexists; reflexivity]).
Qed.

End Gateway.

(** A gateway configured for NoAuth, and any public path, lets every
    request through without looking at it. *)
Lemma dispatch_bypass (self : Auth.Middleware) (env : Auth.Collaborators)
  (request : Request) :
  url_path request ∈ Auth.public_paths self
  ∨ Auth.credential_service self = Auth.NO_AUTH →
  Auth.dispatch self env request = Auth.CallNext.
Proof.
  intros Hbypass. unfold Auth.dispatch.
  destruct Hbypass as [Hpath|Hkind].
  - by rewrite (bool_decide_eq_true_2 _ Hpath).
  - by rewrite (bool_decide_eq_true_2 _ Hkind), orb_true_r.
Qed.

(** The text of a payload's [scope] claim: the empty string when the
    claim is absent, nothing when it is not text. *)
Definition scope_text (payload : Auth.Payload) : option string :=
  match Auth.payload_scope payload with
  | None => Some ""
  | Some (Auth.ScopeText scope) => Some scope
  | Some (Auth.ScopeOther _) => None
  end.

Lemma check_claims_text (self : Auth.Middleware) (payload : Auth.Payload)
  (request : Request) (scope : string) :
  scope_text payload = Some scope →
  Auth.check_claims self payload request
  = match Auth.a2a_auth self with
    | None => Auth.Propagate (Raise KeyError "required_claims")
    | Some required =>
        match Auth.missing_claims required (split_ws scope) with
        | _ :: _ =>
            Auth.Respond
              (Auth._forbidden
                 ("Missing required claims: "
                  +:+ str_list
                        (Auth.missing_claims required (split_ws scope)))
                 request)
        | [] => Auth.CallNext
        end
    end.
Proof.
  unfold scope_text, Auth.check_claims.
  destruct (Auth.payload_scope payload) as [[s|shown]|]; simpl;
    [intros [= <-]|discriminate|intros [= <-]]; reflexivity.
Qed.

Lemma check_claims_not_text (self : Auth.Middleware) (payload : Auth.Payload)
  (request : Request) :
  scope_text payload = None →
  Auth.check_claims self payload request
  = Auth.Propagate (Raise AttributeError "object has no attribute 'split'").
Proof.
  unfold scope_text, Auth.check_claims.
  by destruct (Auth.payload_scope payload) as [[s|shown]|].
Qed.

(** The one exception that leaves the [dispatch] of a gateway that the
    constructor built is the [AttributeError] of [split], for a validated
    payload whose [scope] is not text. *)
Lemma dispatch_propagates_only_from_split (card : Auth.AgentCard)
  (auth : option Auth.AuthConfig) (paths : option (list string))
  (self : Auth.Middleware) (env : Auth.Collaborators) (request : Request)
  (e : exn) :
  Auth.__init__ card auth paths = ok self →
  Auth.dispatch self env request = Auth.Propagate e →
  exn_cls e = AttributeError
  ∧ ∃ payload,
      Auth.authenticate self env request = inr payload
      ∧ scope_text payload = None.
Proof.
  intros Hinit.
  destruct (decide (url_path request ∈ Auth.public_paths self)) as [Hin|Hpath];
    [by rewrite dispatch_bypass by auto|].
  destruct (decide (Auth.credential_service self = Auth.NO_AUTH))
    as [Hno|Hkind]; [by rewrite dispatch_bypass by auto|].
  rewrite (dispatch_protected self env request Hpath Hkind).
  destruct (Auth.authenticate self env request) as [e'|payload].
  - destruct (auth_failure_clauses_total request e')
      as [[_ ->]|[_ [reason ->]]]; discriminate.
  - destruct (init_protected_has_scheme card auth paths self Hinit Hkind)
      as [[required Hreq] _].
    destruct (scope_text payload) as [scope|] eqn:Hscope.
    + rewrite (check_claims_text _ _ _ _ Hscope), Hreq.
      destruct (Auth.missing_claims _ _); discriminate.
    + rewrite (check_claims_not_text _ _ _ Hscope). intros [= <-].
      split; [done|]. by exists payload.
Qed.

(** C1.  On a protected path of a gateway that is not the NoAuth one, an
    exception raised by [get_keys], [get_token] or [validate_token] never
    leaves [dispatch]: it becomes exactly one response, with status 503
    when it is a [JWKSFetchError] and 401 in every other case (JWKS parse
    and configuration errors, expired or invalid tokens, a missing or
    malformed [Authorization] header, anything unexpected). *)
Theorem dispatch_auth_failure_fail_closed (self : Auth.Middleware)
  (env : Auth.Collaborators) (request : Request) (e : exn) :
  url_path request ∉ Auth.public_paths self →
  Auth.credential_service self ≠ Auth.NO_AUTH →
  Auth.authenticate self env request = inl e →
  ∃ response,
    Auth.dispatch self env request = Auth.Respond response
    ∧ status_code response
      = (if isinstance e JWKSFetchError then 503 else 401)%Z
    ∧ (isinstance e JWKSFetchError = true →
       response = Auth._service_unavailable "Unable to fetch JWKS" request)
    ∧ (isinstance e JWKSFetchError = false →
       ∃ reason, response = Auth._unauthorized reason request).
Proof.
  intros Hpath Hkind Hauth.
  rewrite (dispatch_protected self env request Hpath Hkind), Hauth.
  destruct (auth_failure_clauses_total request e)
    as [[Hfetch ->]|[Hfetch [reason ->]]]; rewrite Hfetch.
  - eexists. split; [reflexivity|].
    split; [apply status_service_unavailable|]. split; [done|]. discriminate.
  - eexists. split; [reflexivity|].
    split; [apply status_unauthorized|]. split; [discriminate|]. eauto.
Qed.

Definition jwks_scheme : Auth.SecurityScheme :=
  {| Auth.description := "https://idp.example/.well-known/jwks.json" |}.

Definition protected_gateway : Auth.Middleware :=
  {| Auth.public_paths := {[ "/health" ]};
     Auth.a2a_auth := Some ["admin"];
     Auth.credential_service := Auth.COGNITO;
     Auth.security_scheme := Some jwks_scheme |}.

(** An identity provider that serves one key and accepts every token,
    reading the payload's scope off the token text. *)
Definition lenient_idp : Auth.Collaborators :=
  {| Auth.jwks_get := fun _ => ok [("kid-1", "key-1")];
     Auth.validate_token :=
       fun token _ =>
         ok {| Auth.payload_scope := Some (Auth.ScopeText token) |} |}.

Definition anonymous_request : Request :=
  {| url_path := "/tasks"; req_headers := [("accept", "application/json")] |}.

Lemma dispatch_auth_failure_fail_closed_witness :
  ∃ response,
    Auth.dispatch protected_gateway lenient_idp anonymous_request
    = Auth.Respond response
    ∧ status_code response = 401%Z.
Proof.
  destruct (dispatch_auth_failure_fail_closed protected_gateway lenient_idp
              anonymous_request
              (Raise InvalidAuthHeader
                 "Missing or malformed Authorization header."))
    as [response [Hd [Hs _]]].
  - simpl. intros H%elem_of_singleton. discriminate H.
  - discriminate.
  - reflexivity.
  - exists response. split; [exact Hd | exact Hs].
Defined.

(** The scheme name the first security requirement refers to, and whether
    the card declares it. *)
Definition first_scheme_name (sec_req : Auth.SecurityRequirement)
  : option string :=
  match sec_req with
  | Auth.ReqName scheme_name => Some scheme_name
  | Auth.ReqMapping ((scheme_name, _) :: _) => Some scheme_name
  | Auth.ReqMapping [] | Auth.ReqOther => None
  end.

Definition declares (card : Auth.AgentCard) (scheme_name : string) : Prop :=
  ∃ schemes scheme,
    Auth.security_schemes card = Some schemes
    ∧ schemes !! scheme_name = Some scheme.

(** [r] raised an exception of exactly the class [c]. *)
Definition raises {A} (r : res A) (c : exn_class) : Prop :=
  ∃ msg, r = raise c msg.

(** What construction does with the agent card's security list.  A list
    that is empty or absent does not make construction fail: the gateway
    is built with the NoAuth strategy and no required claims.
    Construction raises a [ConfigurationError] when the first security
    requirement has the wrong shape (neither a scheme name nor a
    mapping), is a mapping with no entry, or names a scheme the card does
    not declare. *)
Lemma init_configuration_errors (card : Auth.AgentCard)
  (auth : option Auth.AuthConfig) (paths : option (list string)) :
  (Auth.security card = None ∨ Auth.security card = Some [] →
   ∃ self,
     Auth.__init__ card auth paths = ok self
     ∧ Auth.credential_service self = Auth.NO_AUTH
     ∧ Auth.a2a_auth self = None)
  ∧ (∀ sec_req rest,
       Auth.security card = Some (sec_req :: rest) →
       match first_scheme_name sec_req with
       | None => True
       | Some scheme_name => ¬ declares card scheme_name
       end →
       raises (Auth.__init__ card auth paths) ConfigurationError).
Proof.
  split.
  - intros Hsec. unfold Auth.__init__, Auth.init_body.
    destruct Hsec as [-> | ->]; simpl; eexists; by split.
  - intros sec_req rest Hsec Hbad. unfold Auth.__init__, Auth.init_body.
    rewrite Hsec.
    destruct sec_req as [scheme_name|[|[scheme_name claims] entries]|];
      simpl in *; try (eexists; reflexivity);
      (destruct (Auth.security_schemes card) as [schemes|] eqn:Hschemes;
         simpl; [|eexists; reflexivity];
       destruct (schemes !! scheme_name) as [scheme|] eqn:Hlookup;
         simpl; [|eexists; reflexivity];
       exfalso; apply Hbad; by exists schemes, scheme).
Qed.

Definition open_card : Auth.AgentCard :=
  {| Auth.name := "billing-agent";
     Auth.card_description := "Answers billing questions";
     Auth.security := Some [];
     Auth.security_schemes := Some {[ "cognito" := jwks_scheme ]} |}.

Definition undeclared_card : Auth.AgentCard :=
  {| Auth.name := "billing-agent";
     Auth.card_description := "Answers billing questions";
     Auth.security := Some [Auth.ReqMapping [("oauth", ["admin"])]];
     Auth.security_schemes := Some {[ "cognito" := jwks_scheme ]} |}.

Definition cognito_auth : Auth.AuthConfig :=
  {| Auth.type := Auth.COGNITO; Auth.auth_security := None |}.

Lemma init_configuration_errors_witness :
  (∃ self,
     Auth.__init__ open_card (Some cognito_auth) None = ok self
     ∧ Auth.credential_service self = Auth.NO_AUTH
     ∧ Auth.a2a_auth self = None)
  ∧ raises (Auth.__init__ undeclared_card (Some cognito_auth) None)
      ConfigurationError.
Proof.
  split.
  - apply (init_configuration_errors open_card (Some cognito_auth) None).
    right. reflexivity.
  - apply (proj2 (init_configuration_errors undeclared_card
                      (Some cognito_auth) None)
             (Auth.ReqMapping [("oauth", ["admin"])]) []).
    + reflexivity.
    + simpl. intros [schemes [scheme [Hs Hl]]]. injection Hs as <-.
      rewrite lookup_singleton_ne in Hl; discriminate.
Defined.

(** C2.  An empty security list is not refused.  The constructor's
    handler for [IndexError] logs that the security requirements list is
    empty and raises [ConfigurationError], but the guard
    [if agent_card.security:] keeps an empty list away from the indexing
    that would raise: the constructor returns the NoAuth gateway, and
    that gateway forwards every request without authentication. *)
Theorem init_empty_security_list_does_not_raise :
  Auth.security open_card = Some []
  ∧ Auth.__init__ open_card (Some cognito_auth) None
    = ok {| Auth.public_paths := ∅; Auth.a2a_auth := None;
            Auth.credential_service := Auth.NO_AUTH;
            Auth.security_scheme := None |}
  ∧ ¬ raises (Auth.__init__ open_card (Some cognito_auth) None)
        ConfigurationError
  ∧ ∀ env request,
      Auth.dispatch
        {| Auth.public_paths := ∅; Auth.a2a_auth := None;
           Auth.credential_service := Auth.NO_AUTH;
           Auth.security_scheme := None |} env request
      = Auth.CallNext.
Proof.
  split; [reflexivity|]. split; [reflexivity|]. split.
  - intros [msg H]. discriminate H.
  - intros env request. apply dispatch_bypass. by right.
Qed.

(** The handler that speaks of an empty list is reached by an empty
    mapping instead. *)
Example empty_requirement_mapping_is_refused :
  Auth.__init__
    {| Auth.name := "billing-agent";
       Auth.card_description := "Answers billing questions";
       Auth.security := Some [Auth.ReqMapping []];
       Auth.security_schemes := Some {[ "cognito" := jwks_scheme ]} |}
    (Some cognito_auth) None
  = raise ConfigurationError "No security requirements specified".
Proof. reflexivity. Qed.

(** C3.  Once the token is validated and its [scope] is text (or absent,
    which counts as the empty text), the request goes on to the next
    handler exactly when every required claim is one of the
    whitespace-separated words of the scope.  Otherwise the gateway
    answers 403, and the reason in the body is [Missing required claims: ]
    followed by the list of the required claims that the scope lacks, and
    only those, each of them quoted in it. *)
Theorem dispatch_required_claims (card : Auth.AgentCard)
  (auth : option Auth.AuthConfig) (paths : option (list string))
  (self : Auth.Middleware) (env : Auth.Collaborators) (request : Request)
  (payload : Auth.Payload) (scope : string) :
  Auth.__init__ card auth paths = ok self →
  url_path request ∉ Auth.public_paths self →
  Auth.credential_service self ≠ Auth.NO_AUTH →
  Auth.authenticate self env request = inr payload →
  scope_text payload = Some scope →
  ∃ required,
    Auth.a2a_auth self = Some required
    ∧ let scopes := split_ws scope in
      let missing := Auth.missing_claims required scopes in
      let reason :=
        "Missing required claims: [" +:+ join ", " (repr_str <$> missing)
        +:+ "]" in
      (∀ claim, claim ∈ missing ↔ claim ∈ required ∧ claim ∉ scopes)
      ∧ (∀ claim, claim ∈ missing → str_contains (repr_str claim) reason = true)
      ∧ (Auth.dispatch self env request = Auth.CallNext
         ↔ ∀ claim, claim ∈ required → claim ∈ scopes)
      ∧ (¬ (∀ claim, claim ∈ required → claim ∈ scopes) →
         ∃ response,
           Auth.dispatch self env request = Auth.Respond response
           ∧ status_code response = 403%Z
           ∧ (if Auth.accepts_event_stream request
              then media_type response = "text/event-stream"
                   ∧ body response
                     = PlainText ("error forbidden: " +:+ reason)
              else media_type response = "application/json"
                   ∧ body response
                     = Json [("error", "forbidden"); ("reason", reason)])).
Proof.
  intros Hinit Hpath Hkind Hauth Hscope.
  destruct (init_protected_has_scheme card auth paths self Hinit Hkind)
    as [[required Hreq] _].
  exists required. split; [exact Hreq|]. intros scopes missing reason.
  assert (∀ claim, claim ∈ missing ↔ claim ∈ required ∧ claim ∉ scopes)
    as Hmissing.
  { intros claim. unfold missing, Auth.missing_claims.
    rewrite !list_elem_of_In, filter_In, <- !list_elem_of_In.
    unfold str_in. rewrite negb_true_iff, bool_decide_eq_false. tauto. }
  assert ((∀ claim, claim ∈ required → claim ∈ scopes) ↔ missing = [])
    as Hall.
  { split.
    - intros Hsub. destruct missing as [|claim l] eqn:Hm; [done|].
      exfalso. destruct (Hmissing claim) as [[Hin Hnot] _]; [by left|].
      by apply Hnot, Hsub.
    - intros Hnil claim Hin.
      destruct (decide (claim ∈ scopes)) as [|Hnot]; [done|].
      exfalso. assert (claim ∈ missing) as Hc by by apply Hmissing.
      rewrite Hnil in Hc. by apply not_elem_of_nil in Hc. }
  rewrite (dispatch_protected self env request Hpath Hkind), Hauth.
  rewrite (check_claims_text self payload request scope Hscope), Hreq.
  fold scopes. fold missing.
  split; [exact Hmissing|]. split; [|split].
  - intros claim Hin. unfold reason.
    apply str_contains_app_r, str_contains_app_l, str_contains_join.
    apply list_elem_of_fmap. by exists claim.
  - rewrite Hall. destruct missing; [done|]. split; discriminate.
  - intros Hnot.
    assert (missing ≠ []) as Hne by (intros Hnil; by apply Hnot, Hall).
    destruct missing as [|claim l] eqn:Hm; [done|].
    eexists. split; [reflexivity|]. unfold Auth._forbidden.
    destruct (Auth.accepts_event_stream request); by repeat split.
Qed.

(** The card of the specification's scenario: the requirement
    [{"read": ["admin"]}] over a declared scheme. *)
Definition admin_card : Auth.AgentCard :=
  {| Auth.name := "billing-agent";
     Auth.card_description := "Answers billing questions";
     Auth.security := Some [Auth.ReqMapping [("read", ["admin"])]];
     Auth.security_schemes := Some {[ "read" := jwks_scheme ]} |}.

Definition admin_gateway : Auth.Middleware :=
  {| Auth.public_paths := list_to_set ["/health"];
     Auth.a2a_auth := Some ["admin"];
     Auth.credential_service := Auth.COGNITO;
     Auth.security_scheme := Some jwks_scheme |}.

Definition bearer_request (token : string) : Request :=
  {| url_path := "/tasks";
     req_headers :=
       [("accept", "application/json");
        ("authorization", "Bearer " +:+ token)] |}.

Lemma admin_gateway_built :
  Auth.__init__ admin_card (Some cognito_auth) (Some ["/health"])
  = ok admin_gateway.
Proof. reflexivity. Qed.

(** An identity provider whose tokens carry their scopes as a list. *)
Definition list_scope_idp : Auth.Collaborators :=
  {| Auth.jwks_get := fun _ => ok [("kid-1", "key-1")];
     Auth.validate_token :=
       fun _ _ =>
         ok {| Auth.payload_scope := Some (Auth.ScopeOther "['admin']") |} |}.

Lemma dispatch_required_claims_witness :
  ∃ response,
    Auth.dispatch admin_gateway lenient_idp (bearer_request "read write")
    = Auth.Respond response
    ∧ status_code response = 403%Z
    ∧ body response
      = Json [("error", "forbidden");
              ("reason", "Missing required claims: ['admin']")].
Proof.
  destruct (dispatch_required_claims admin_card (Some cognito_auth)
              (Some ["/health"]) admin_gateway lenient_idp
              (bearer_request "read write")
              {| Auth.payload_scope := Some (Auth.ScopeText "read write") |}
              "read write")
    as [required [Hreq [_ [_ [_ Hdeny]]]]].
  - reflexivity.
  - simpl. intros [H%elem_of_singleton|H%elem_of_empty]%elem_of_union.
    + discriminate H.
    + exact H.
  - discriminate.
  - reflexivity.
  - reflexivity.
  - injection Hreq as <-.
    destruct Hdeny as [response [Hd [Hs Hb]]].
    + intros Hall. specialize (Hall "admin" ltac:(by left)).
      apply list_elem_of_In in Hall. simpl in Hall.
      destruct Hall as [H|[H|[]]]; discriminate H.
    + exists response. split; [exact Hd|]. split; [exact Hs|].
      exact (proj2 Hb).
Defined.

(** C3, as stated for every validated payload, fails: for a payload whose
    [scope] is a list, [split] raises outside the [try]; the request is
    neither passed on nor answered with a 403, although the required
    claim is among the scopes granted. *)
Lemma dispatch_list_scope_is_not_answered :
  Auth.dispatch admin_gateway list_scope_idp (bearer_request "tok")
  = Auth.Propagate (Raise AttributeError "object has no attribute 'split'")
  ∧ Auth.dispatch admin_gateway list_scope_idp (bearer_request "tok")
    ≠ Auth.CallNext
  ∧ ∀ response,
      Auth.dispatch admin_gateway list_scope_idp (bearer_request "tok")
      ≠ Auth.Respond response.
Proof. split; [reflexivity|]. split; [discriminate|]. discriminate. Qed.

(** A scope that holds every required claim is accepted, whatever else it
    holds; one that lacks [admin] is refused with a reason naming it. *)
Example superset_of_required_scopes_is_accepted :
  Auth.dispatch admin_gateway lenient_idp
    (bearer_request "billing:read admin  profile")
  = Auth.CallNext.
Proof. reflexivity. Qed.

Example missing_admin_is_forbidden :
  Auth.dispatch admin_gateway lenient_idp (bearer_request "read write")
  = Auth.Respond
      (JSONResponse
         [("error", "forbidden");
          ("reason", "Missing required claims: ['admin']")] 403).
Proof. reflexivity. Qed.

Example missing_header_is_unauthorized :
  Auth.dispatch admin_gateway lenient_idp anonymous_request
  = Auth.Respond
      (JSONResponse
         [("error", "unauthorized"); ("reason", "Invalid auth header")] 401).
Proof. reflexivity. Qed.

Example jwks_outage_is_service_unavailable :
  Auth.dispatch admin_gateway
    {| Auth.jwks_get := fun _ => raise ConnectionError "connection refused";
       Auth.validate_token := Auth.validate_token lenient_idp |}
    (bearer_request "admin")
  = Auth.Respond
      (JSONResponse
         [("error", "service_unavailable");
          ("reason", "Unable to fetch JWKS")] 503).
Proof. reflexivity. Qed.

(** ** Header propagation *)

Section Propagation.

Import HeadersPropagation.

Variable self : HeadersPropagationInterceptor.

Definition kept (k : string) (v : PyValue) : bool :=
  is_str_or_bytes v && _is_allowed self k.

(** The loop adds exactly the entries that pass the test, and writes the
    same entries over the headers it was given. *)
Lemma forward_lookup (d hdrs : gmap string PyValue) (k : string) :
  (forward self d hdrs).2 !! k
  = match d !! k with
    | Some v => if kept k v then Some v else None
    | None => None
    end
  ∧ (forward self d hdrs).1 !! k
    = match (forward self d hdrs).2 !! k with
      | Some v => Some v
      | None => hdrs !! k
      end.
Proof.
  unfold forward.
  apply (map_fold_weak_ind
           (fun acc m =>
              acc.2 !! k
              = match m !! k with
                | Some v => if kept k v then Some v else None
                | None => None
                end
              ∧ acc.1 !! k
                = match acc.2 !! k with
                  | Some v => Some v
                  | None => hdrs !! k
                  end)).
  - simpl. by rewrite !lookup_empty.
  - intros i x m acc Hfresh [Hadded Hhdrs]. unfold forward_one. fold (kept i x).
    destruct (decide (i = k)) as [->|Hne].
    + rewrite lookup_insert_eq. rewrite Hfresh in Hadded.
      destruct (kept k x); simpl.
      * by rewrite !lookup_insert_eq.
      * by rewrite Hhdrs, Hadded.
    + rewrite lookup_insert_ne by done.
      destruct (kept i x); simpl; [|done].
      by rewrite !lookup_insert_ne.
Qed.

End Propagation.

Lemma default_blocked_elem (x : string) :
  x ∈ HeadersPropagation._blocked
        (HeadersPropagation.__init__ None None false)
  ↔ x ∈ ["connection"; "keep-alive"; "transfer-encoding"; "te"; "trailer";
         "upgrade"; "host"; "content-length"; "authorization"; "cookie"].
Proof.
  change (HeadersPropagation._blocked
            (HeadersPropagation.__init__ None None false))
    with (HeadersPropagation.hop_by_hop ∪ {[ "authorization" ]}
          ∪ {[ "cookie" ]}).
  unfold HeadersPropagation.hop_by_hop.
  rewrite !elem_of_union, !elem_of_singleton, !elem_of_cons, elem_of_nil.
  tauto.
Qed.

Lemma default_names_elem (x : string) :
  x ∈ HeadersPropagation.allowed_names
        (HeadersPropagation.__init__ None None false)
  ↔ x ∈ ["x-request-id"; "x-correlation-id"; "accept-language"].
Proof.
  change (HeadersPropagation.allowed_names
            (HeadersPropagation.__init__ None None false))
    with (list_to_set
            ["x-request-id"; "x-correlation-id"; "accept-language"]
          : gset string).
  apply elem_of_list_to_set.
Qed.

(** What the default configuration lets through. *)
Lemma default_is_allowed (k : string) :
  HeadersPropagation._is_allowed
    (HeadersPropagation.__init__ None None false) k = true
  ↔ (lower k ∉ ["connection"; "keep-alive"; "transfer-encoding"; "te";
                "trailer"; "upgrade"; "host"; "content-length";
                "authorization"; "cookie"])
    ∧ (lower k ∈ ["x-request-id"; "x-correlation-id"; "accept-language"]
       ∨ startswith (lower k) "x-mapfre-" = true).
Proof.
  unfold HeadersPropagation._is_allowed.
  rewrite <- default_blocked_elem, <- default_names_elem.
  change (HeadersPropagation.allowed_prefixes
            (HeadersPropagation.__init__ None None false))
    with ["x-mapfre-"].
  simpl existsb. rewrite orb_false_r.
  repeat case_bool_decide; try tauto.
  split; [discriminate | tauto].
Qed.

(** C5.  With the default configuration, the headers that [intercept]
    adds are exactly the entries of [propagation_headers] whose value is
    text or bytes and whose lower-cased name is not blocked (hop-by-hop
    headers, [host], [content-length], [authorization], [cookie]) and is
    either one of [x-request-id], [x-correlation-id], [accept-language]
    or starts with [x-mapfre-]; they are written over the outbound
    headers and nothing else changes. *)
Theorem intercept_default_forwards_allowlisted (http_kwargs : HttpKwargs)
  (ctx : CallContext) (d : gmap string PyValue) :
  state ctx !! "propagation_headers" = Some (Dict d) →
  let result :=
    HeadersPropagation.intercept
      (HeadersPropagation.__init__ None None false) http_kwargs (Some ctx) in
  (∀ k v,
     result.2 !! k = Some v
     ↔ d !! k = Some v
       ∧ is_str_or_bytes v = true
       ∧ (lower k ∉ ["connection"; "keep-alive"; "transfer-encoding"; "te";
                     "trailer"; "upgrade"; "host"; "content-length";
                     "authorization"; "cookie"])
       ∧ (lower k ∈ ["x-request-id"; "x-correlation-id"; "accept-language"]
          ∨ startswith (lower k) "x-mapfre-" = true))
  ∧ (∀ k,
       default ∅ (headers result.1) !! k
       = match result.2 !! k with
         | Some v => Some v
         | None => default ∅ (headers http_kwargs) !! k
         end)
  ∧ other_options result.1 = other_options http_kwargs.
Proof.
  intros Hstate result.
  set (self := HeadersPropagation.__init__ None None false) in *.
  assert (state ctx ≠ ∅) as Hne.
  { intros Hempty. rewrite Hempty, lookup_empty in Hstate. discriminate. }
  assert (result
          = if bool_decide (d = ∅) then (http_kwargs, ∅)
            else
              let r := HeadersPropagation.forward self d
                         (default ∅ (headers http_kwargs)) in
              ({| headers := Some r.1;
                  other_options := other_options http_kwargs |}, r.2))
    as Hresult.
  { unfold result, HeadersPropagation.intercept.
    by rewrite (bool_decide_eq_false_2 _ Hne), Hstate. }
  rewrite Hresult. clear Hresult result.
  case_bool_decide as Hd.
  - subst d. simpl. split; [|by split].
    intros k v. rewrite !lookup_empty. split; [discriminate|].
    intros [H _]. discriminate H.
  - simpl. split; [|split; [|done]].
    + intros k v.
      destruct (forward_lookup self d (default ∅ (headers http_kwargs)) k)
        as [-> _].
      unfold kept.
      destruct (d !! k) as [w|]; [|split; [discriminate|by intros [? _]]].
      destruct (is_str_or_bytes w) eqn:Hw; simpl.
      * destruct (HeadersPropagation._is_allowed self k) eqn:Hallowed.
        -- apply default_is_allowed in Hallowed.
           split; [intros [= <-]; by split|]. by intros [[= <-] _].
        -- split; [discriminate|]. intros [[= <-] [_ Hok]].
           apply default_is_allowed in Hok. fold self in Hok. congruence.
      * split; [discriminate|]. intros [[= <-] [Hv _]]. congruence.
    + intros k.
      by destruct (forward_lookup self d (default ∅ (headers http_kwargs)) k)
        as [_ ->].
Qed.

Definition trace_context : CallContext :=
  {| state :=
       {[ "propagation_headers" :=
            Dict
              (<["x-mapfre-trace-id" := Str "abc"]>
                 {[ "authorization" := Str "secret" ]}) ]} |}.

Definition bare_options : HttpKwargs :=
  {| headers := None; other_options := {[ "timeout" := "60" ]} |}.

Lemma intercept_default_forwards_allowlisted_witness :
  (HeadersPropagation.intercept
     (HeadersPropagation.__init__ None None false) bare_options
     (Some trace_context)).2 !! "authorization" = None.
Proof.
  destruct (intercept_default_forwards_allowlisted bare_options trace_context
              (<["x-mapfre-trace-id" := Str "abc"]>
                 {[ "authorization" := Str "secret" ]}))
    as [Hadded _].
  - reflexivity.
  - apply eq_None_not_Some. intros [v Hv].
    apply Hadded in Hv as (_ & _ & Hblocked & _).
    apply Hblocked. apply list_elem_of_In. simpl.
    do 8 right. left. reflexivity.
Defined.

(** The specification's scenario: of [x-mapfre-trace-id] and
    [authorization], only the first is forwarded. *)
Example only_trace_id_is_forwarded :
  HeadersPropagation.intercept
    (HeadersPropagation.__init__ None None false) bare_options
    (Some trace_context)
  = ({| headers := Some {[ "x-mapfre-trace-id" := Str "abc" ]};
        other_options := {[ "timeout" := "60" ]} |},
     {[ "x-mapfre-trace-id" := Str "abc" ]}).
Proof. vm_compute. reflexivity. Qed.

(** ** Inbound headers handed to the executor *)

Section Propagated.

Import Utils.

Lemma keep_header_fold (h : gmap string PyValue) (k : string) :
  map_fold (fun k v acc => keep_header acc k v) ∅ h !! k
  = match h !! k with
    | Some v =>
        if is_str_or_bytes v && startswith k "x-mapfre-" then Some v else None
    | None => None
    end.
Proof.
  apply (map_fold_weak_ind
           (fun (acc : gmap string PyValue) m =>
              acc !! k
              = match m !! k with
                | Some v =>
                    if is_str_or_bytes v && startswith k "x-mapfre-"
                    then Some v else None
                | None => None
                end)).
  - by rewrite !lookup_empty.
  - intros i x m acc Hfresh IH. unfold keep_header.
    destruct (decide (i = k)) as [->|Hne].
    + rewrite lookup_insert_eq. rewrite Hfresh in IH.
      destruct (is_str_or_bytes x && startswith k "x-mapfre-"); simpl.
      * by rewrite lookup_insert_eq.
      * exact IH.
    + rewrite lookup_insert_ne by done.
      destruct (is_str_or_bytes x && startswith i "x-mapfre-"); simpl;
        [by rewrite lookup_insert_ne | done].
Qed.

Lemma traverse_text_parts (l : list A2APart) :
  (∀ part, part ∈ l → ∃ t m, part = TextPart t m) →
  ∃ content, traverse convert_a2a_part_to_genai l = ok content.
Proof.
  induction l as [|part l IH]; intros Htext; simpl; [by eexists|].
  destruct (Htext part) as (t & m & ->); [by left|]. simpl.
  destruct IH as [content ->]; [|by eexists].
  intros p Hp. apply Htext. by right.
Qed.

(** A comprehension that does not raise gives one element per element. *)
Lemma traverse_length {A B} (f : A → res B) (l : list A) (ys : list B) :
  traverse f l = ok ys → length ys = length l.
Proof.
  revert ys. induction l as [|x l IH]; intros ys; simpl; [by intros [= <-]|].
  destruct (f x) as [e|y]; simpl; [discriminate|].
  destruct (traverse f l) as [e|zs]; simpl; [discriminate|].
  intros [= <-]. simpl. by rewrite (IH zs).
Qed.

Lemma UserContent_parts (content : list GenaiPart) :
  content ≠ [] → UserContent content = ok content.
Proof. by destruct content. Qed.

End Propagated.

(** C10.  When the call context's state holds a [headers] dictionary,
    [get_propagated_headers] returns a flat dictionary holding exactly the
    inbound headers whose name starts with [x-mapfre-] and whose value is
    text or bytes (there is no [propagation_headers] key wrapped around
    them), and [generate_payload] passes that same dictionary as its
    [propagation_headers] entry; it does return a payload whenever the
    request has a message made of one or more text parts. *)
Theorem propagated_headers_are_flat (request : Utils.RequestContext)
  (h : gmap string PyValue) :
  state (Utils.call_context request) !! "headers" = Some (Dict h) →
  ∃ flat,
    Utils.get_propagated_headers request = ok flat
    ∧ (∀ k v,
         flat !! k = Some v
         ↔ h !! k = Some v
           ∧ startswith k "x-mapfre-" = true
           ∧ is_str_or_bytes v = true)
    ∧ flat !! "propagation_headers" = None
    ∧ (∀ payload,
         Utils.generate_payload request = ok payload →
         Utils.propagation_headers payload = flat)
    ∧ (∀ msg,
         Utils.message request = Some msg →
         Utils.parts msg ≠ [] →
         (∀ part,
            part ∈ Utils.parts msg → ∃ t m, part = Utils.TextPart t m) →
         ∃ payload,
           Utils.generate_payload request = ok payload
           ∧ Utils.propagation_headers payload = flat).
Proof.
  intros Hstate.
  assert (Utils.state_dict (Utils.call_context request) "headers" = ok h)
    as Hdict by (unfold Utils.state_dict; by rewrite Hstate).
  assert (∀ k v,
            map_fold (fun k v acc => Utils.keep_header acc k v) ∅ h !! k
            = Some v
            ↔ h !! k = Some v
              ∧ startswith k "x-mapfre-" = true
              ∧ is_str_or_bytes v = true) as Hflat.
  { intros k v. rewrite keep_header_fold.
    destruct (h !! k) as [w|]; [|split; [discriminate|by intros [? _]]].
    destruct (is_str_or_bytes w) eqn:Hw, (startswith k "x-mapfre-") eqn:Hk;
      simpl; split; try discriminate;
      try (intros [= <-]; by repeat split);
      intros [[= <-] [? ?]]; congruence. }
  eexists. split.
  { unfold Utils.get_propagated_headers. rewrite Hdict. reflexivity. }
  split; [exact Hflat|]. split.
  { apply eq_None_not_Some. intros [v Hv].
    apply Hflat in Hv as (_ & Hprefix & _). discriminate Hprefix. }
  assert (∀ payload,
            Utils.generate_payload request = ok payload →
            Utils.propagation_headers payload
            = map_fold (fun k v acc => Utils.keep_header acc k v) ∅ h)
    as Hpayload.
  { intros payload. unfold Utils.generate_payload.
    destruct (Utils.message request) as [msg|]; [|discriminate].
    rewrite Hdict. simpl.
    destruct (Utils.traverse _ _) as [e|converted]; simpl; [discriminate|].
    destruct (Utils.UserContent converted) as [e|content]; simpl;
      [discriminate|].
    unfold Utils.get_propagated_headers. rewrite Hdict. simpl.
    by intros [= <-]. }
  split; [exact Hpayload|].
  intros msg Hmsg Hparts Htext.
  destruct (traverse_text_parts (Utils.parts msg) Htext) as [content Hc].
  assert (∃ payload, Utils.generate_payload request = ok payload)
    as [payload Hp].
  { unfold Utils.generate_payload. rewrite Hmsg, Hdict. simpl.
    rewrite Hc. simpl. rewrite UserContent_parts.
    - simpl. unfold Utils.get_propagated_headers.
      rewrite Hdict. simpl. by eexists.
    - intros ->. apply traverse_length in Hc.
      by destruct (Utils.parts msg). }
  exists payload. split; [exact Hp | by apply Hpayload].
Qed.

Definition inbound_request : Utils.RequestContext :=
  {| Utils.call_context :=
       {| state :=
            {[ "headers" :=
                 Dict
                   (<["x-mapfre-user-id" := Str "u-17"]>
                      (<["x-mapfre-retries" := Other "3"]>
                         {[ "authorization" := Str "Bearer tok" ]})) ]} |};
     Utils.context_id := "ctx-1";
     Utils.task_id := "task-1";
     Utils.message := Some {| Utils.parts := [Utils.TextPart "hola" None] |};
     Utils.has_current_task := false |}.

Lemma propagated_headers_are_flat_witness :
  ∃ flat,
    Utils.get_propagated_headers inbound_request = ok flat
    ∧ flat !! "propagation_headers" = None.
Proof.
  destruct (propagated_headers_are_flat inbound_request
              (<["x-mapfre-user-id" := Str "u-17"]>
                 (<["x-mapfre-retries" := Other "3"]>
                    {[ "authorization" := Str "Bearer tok" ]})))
    as [flat [Hflat [_ [Hwrap _]]]].
  - reflexivity.
  - exists flat. split; [exact Hflat | exact Hwrap].
Defined.

Example only_mapfre_text_headers_are_propagated :
  Utils.generate_payload inbound_request
  = ok {| Utils.user_id := Str "u-17";
          Utils.session_id := Str "ctx-1";
          Utils.new_message := [Utils.text_part "hola"];
          Utils.propagation_headers :=
            {[ "x-mapfre-user-id" := Str "u-17" ]} |}.
Proof. vm_compute. reflexivity. Qed.

(** ** Task executors *)

Section Executors.

Import Utils Executor.

Definition is_failed_status (ev : QueueEvent) : bool :=
  match ev with
  | StatusUpdate failed _ _ => true
  | _ => false
  end.

Lemma enqueue_queue (sdk : Sdk) (ev : QueueEvent) (q q' : list QueueEvent) :
  enqueue sdk ev q = ok q' → q' = (q ++ [ev])%list.
Proof. unfold enqueue. destruct (sdk ev q); [discriminate|]. by intros [= <-]. Qed.

(** The ADK loop only ever queues artifacts and [working] or [completed]
    statuses: whatever it adds, it is not a [failed] status. *)
Lemma adk_consume_queue (sdk : Sdk) (events : Stream Event)
  (q : list QueueEvent) :
  ∃ added,
    (adk_consume sdk events q).2 = (q ++ added)%list
    ∧ Forall (fun ev => is_failed_status ev = false) added.
Proof.
  revert q. induction events as [|event rest IH|e]; intros q; simpl.
  - exists []. by rewrite app_nil_r.
  - destruct (is_final_response event).
    + destruct (traverse _ _) as [e|a2a_parts]; simpl;
        [exists []; by rewrite app_nil_r|].
      destruct (add_artifact sdk a2a_parts None q) as [e|q1] eqn:H1; simpl;
        [exists []; by rewrite app_nil_r|].
      apply enqueue_queue in H1 as ->.
      destruct (update_status sdk completed None true _) as [e|q2] eqn:H2;
        simpl.
      * eexists [_]. split; [reflexivity|]. by repeat constructor.
      * apply enqueue_queue in H2 as ->. rewrite <- app_assoc.
        eexists [_; _]. split; [reflexivity|]. by repeat constructor.
    + destruct (function_calls event); [|apply IH].
      destruct (traverse _ _) as [e|message_parts]; simpl;
        [exists []; by rewrite app_nil_r|].
      destruct (update_status sdk working _ false q) as [e|q1] eqn:H1; simpl;
        [exists []; by rewrite app_nil_r|].
      apply enqueue_queue in H1 as ->.
      destruct (IH (q ++ [StatusUpdate working (Some message_parts) false])%list)
        as [added [-> Hadded]].
      rewrite <- app_assoc. eexists (_ :: added).
      split; [reflexivity|]. by constructor.
  - exists []. by rewrite app_nil_r.
Qed.

(** An exception raised by the ADK event stream leaves the loop as it is. *)
Lemma adk_consume_throw (sdk : Sdk) (e : exn) (q : list QueueEvent) :
  adk_consume sdk (Throw e) q = (Some e, q).
Proof. reflexivity. Qed.

(** The LangChain executor does report: when an exception leaves the
    [try] and the SDK accepts the status, a final [failed] status is queued
    last and the classified error is raised. *)
Lemma langchain_reports_failure_then_raises (sdk : Sdk)
  (stream : string → PyValue → gmap string PyValue → Stream Item)
  (payload : ExecPayload) (active : gset string) (q q1 : list QueueEvent)
  (e : exn) :
  langchain_try sdk stream payload q = (Some e, q1) →
  let report :=
    StatusUpdate failed
      (Some [TextPart ("Error processing request: " +:+ exn_msg e) None]) true
    in
  sdk report q1 = None →
  let r := langchain_process_request sdk stream payload active q in
  raised r = Some (Raise (ServerError InternalError) "")
  ∧ queue r = (q1 ++ [report])%list.
Proof.
  intros Htry report Hsdk. unfold langchain_process_request.
  rewrite Htry, isinstance_Exception.
  unfold convert_genai_part_to_a2a, text_part. simpl.
  unfold update_status, enqueue. fold report. by rewrite Hsdk.
Qed.

End Executors.

(** C7.  Once [_upsert_session] has resolved the session, the id that
    [_process_request] adds to the active-session set is gone from the set
    when [_process_request] is left, whatever the runner yields or raises
    and whatever the task updater does; the other ids are untouched. *)
Theorem adk_process_request_releases_session (runner : Executor.Runner)
  (sdk : Executor.Sdk) (payload : Utils.ExecPayload) (active : gset string)
  (queue : list Executor.QueueEvent) (session_obj : Executor.Session) :
  Executor._upsert_session runner (Utils.session_id payload)
    (Utils.user_id payload) = ok session_obj →
  let r := Executor.adk_process_request runner sdk payload active queue in
  (Executor.session_obj_id session_obj ∉ Executor.active_sessions r)
  ∧ Executor.active_sessions r
    = active ∖ {[ Executor.session_obj_id session_obj ]}.
Proof.
  intros Hsession r. unfold r, Executor.adk_process_request.
  rewrite Hsession. simpl. split; set_solver.
Qed.

(** No path through [execute] leaves an id behind in the set. *)
Lemma adk_execute_leaks_no_session (runner : Executor.Runner)
  (sdk : Executor.Sdk) (context : Utils.RequestContext) (active : gset string)
  (queue : list Executor.QueueEvent) :
  Executor.active_sessions
    (Executor.adk_execute runner sdk context active queue) ⊆ active.
Proof.
  unfold Executor.adk_execute, Executor.execute_with.
  destruct (if Utils.has_current_task context then _ else _) as [e|q1];
    simpl; [done|].
  destruct (Executor.update_status sdk _ _ _ q1) as [e|q2]; simpl; [done|].
  destruct (Utils.generate_payload context) as [e|payload]; simpl; [done|].
  unfold Executor.adk_process_request.
  destruct (Executor._upsert_session _ _ _); simpl; set_solver.
Qed.

(** A runner whose session service knows the session and whose event
    stream is fixed in advance; an SDK that accepts every event. *)
Definition scripted_runner (events : Stream Executor.Event)
  : Executor.Runner :=
  {| Executor.get_session :=
       fun _ _ => ok (Some {| Executor.session_obj_id := "s-1" |});
     Executor.create_session :=
       fun _ _ => ok {| Executor.session_obj_id := "s-new" |};
     Executor.run_async := fun _ _ _ _ => events |}.

Definition accepting_sdk : Executor.Sdk := fun _ _ => None.

Definition sample_payload : Utils.ExecPayload :=
  {| Utils.user_id := Str "u-17"; Utils.session_id := Str "s-1";
     Utils.new_message := [Utils.text_part "hola"];
     Utils.propagation_headers := ∅ |}.

Definition partial_answer : Executor.Event :=
  {| Executor.is_final_response := false;
     Executor.content := Some [Utils.text_part "thinking"];
     Executor.function_calls := [] |}.

Definition final_answer : Executor.Event :=
  {| Executor.is_final_response := true;
     Executor.content := Some [Utils.text_part "done"];
     Executor.function_calls := [] |}.

Definition backend_failure : exn :=
  Raise RuntimeError "model backend unavailable".

Lemma adk_process_request_releases_session_witness :
  "s-1" ∉ Executor.active_sessions
            (Executor.adk_process_request
               (scripted_runner (Yield partial_answer (Throw backend_failure)))
               accepting_sdk sample_payload {[ "s-0" ]} []).
Proof.
  apply (adk_process_request_releases_session
           (scripted_runner (Yield partial_answer (Throw backend_failure)))
           accepting_sdk sample_payload {[ "s-0" ]} []
           {| Executor.session_obj_id := "s-1" |}).
  reflexivity.
Defined.

(** The three ways out of the loop: the stream ends, the final response
    breaks out of it, an exception is raised part-way. *)
Example session_released_on_each_exit :
  let run events :=
    Executor.adk_process_request (scripted_runner events) accepting_sdk
      sample_payload {[ "s-0" ]} [] in
  (Executor.raised (run (Yield partial_answer Stop)) = None
   ∧ Executor.active_sessions (run (Yield partial_answer Stop))
     = {[ "s-0" ]})
  ∧ (Executor.raised (run (Yield final_answer (Yield partial_answer Stop)))
     = None
     ∧ Executor.queue (run (Yield final_answer (Yield partial_answer Stop)))
       = [Executor.ArtifactUpdate [Utils.TextPart "done" None] None;
          Executor.StatusUpdate Executor.completed None true]
     ∧ Executor.active_sessions
         (run (Yield final_answer (Yield partial_answer Stop)))
       = {[ "s-0" ]})
  ∧ (Executor.raised (run (Yield partial_answer (Throw backend_failure)))
     = Some backend_failure
     ∧ Executor.active_sessions
         (run (Yield partial_answer (Throw backend_failure)))
       = {[ "s-0" ]}).
Proof. vm_compute. repeat split. Qed.

(** C6 at a failing input.  The ADK executor, given a runner whose stream
    raises after one partial answer, queues [submitted], [working] and the
    partial answer and then lets the runner's own exception out: no
    [failed] status is queued, and the exception is not the classified
    [ServerError] wrapping [InternalError]. *)
Theorem adk_stream_failure_is_not_reported :
  let r :=
    Executor.adk_execute
      (scripted_runner (Yield partial_answer (Throw backend_failure)))
      accepting_sdk inbound_request ∅ [] in
  Executor.raised r = Some backend_failure
  ∧ Executor.raised r ≠ Some (Raise (ServerError InternalError) "")
  ∧ Executor.queue r
    = [Executor.StatusUpdate Executor.submitted None false;
       Executor.StatusUpdate Executor.working None false;
       Executor.StatusUpdate Executor.working
         (Some [Utils.TextPart "thinking" None]) false]
  ∧ Forall (fun ev => is_failed_status ev = false) (Executor.queue r).
Proof.
  vm_compute. split; [reflexivity|]. split; [discriminate|].
  split; [reflexivity|]. by repeat constructor.
Qed.

(** Nothing the ADK [_process_request] queues is a [failed] status, on any
    input. *)
Lemma adk_process_request_never_reports_failed (runner : Executor.Runner)
  (sdk : Executor.Sdk) (payload : Utils.ExecPayload) (active : gset string)
  (queue : list Executor.QueueEvent) :
  ∃ added,
    Executor.queue
      (Executor.adk_process_request runner sdk payload active queue)
    = (queue ++ added)%list
    ∧ Forall (fun ev => is_failed_status ev = false) added.
Proof.
  unfold Executor.adk_process_request.
  destruct (Executor._upsert_session _ _ _) as [e|session_obj]; simpl.
  - exists []. by rewrite app_nil_r.
  - apply adk_consume_queue.
Qed.

(** The same failure under the LangChain executor: the [failed] status is
    queued, then the classified error is raised. *)
Example langchain_stream_failure_is_reported :
  let r :=
    Executor.langchain_execute accepting_sdk
      (fun _ _ _ =>
         Yield {| Executor.is_task_complete := false;
                  Executor.require_user_input := false;
                  Executor.item_content := "thinking" |}
           (Throw backend_failure))
      inbound_request ∅ [] in
  Executor.raised r = Some (Raise (ServerError InternalError) "")
  ∧ Executor.queue r
    = [Executor.StatusUpdate Executor.submitted None false;
       Executor.StatusUpdate Executor.working None false;
       Executor.StatusUpdate Executor.failed
         (Some [Utils.TextPart
                  "Error processing request: model backend unavailable"
                  None])
         true].
Proof. vm_compute. split; reflexivity. Qed.

(** ** Remote-agent registry *)

Section RegistryInit.

Import Auth Registry.

Variable world : World.

(** A config whose [auth] mapping validates and whose agent can be
    fetched and connected. *)
Definition reachable (config : RemoteConfig) (c : RemoteAgentConnections)
  : Prop :=
  ∃ auth_config,
    make_AuthConfig (auth config) = ok auth_config
    ∧ attempt world (url config) auth_config = ok c.

Definition valid_auth (config : RemoteConfig) : Prop :=
  ∃ auth_config, make_AuthConfig (auth config) = ok auth_config.

Lemma store_connections (self : A2AAgentCommunicationBase)
  (c : RemoteAgentConnections) (n : string) :
  is_Some (remote_agent_connections self !! n) →
  is_Some (remote_agent_connections (store self c) !! n).
Proof.
  intros Hn. unfold store. simpl.
  destruct (decide (name (card c) = n)) as [->|Hne].
  - rewrite lookup_insert_eq. by eexists.
  - by rewrite lookup_insert_ne.
Qed.

(** When every [auth] mapping validates, the loop raises nothing, keeps
    what was registered and registers every agent that can be reached,
    whatever happens to the others. *)
Lemma connect_each_tolerates_failures (configs : list RemoteConfig) :
  Forall valid_auth configs →
  ∀ self,
    (connect_each world configs self).1 = None
    ∧ (∀ n, is_Some (remote_agent_connections self !! n) →
            is_Some (remote_agent_connections
                       (connect_each world configs self).2 !! n))
    ∧ (∀ config c,
         config ∈ configs → reachable config c →
         is_Some (remote_agent_connections
                    (connect_each world configs self).2 !! name (card c))).
Proof.
  induction 1 as [|config configs [auth_config Hauth] Hvalid IH];
    intros self; simpl.
  - split; [done|]. split; [done|]. intros config c Hin.
    by apply elem_of_nil in Hin.
  - rewrite Hauth. unfold ok at 1 2 3. cbv beta iota.
    destruct (attempt world (url config) auth_config) as [e|connection]
      eqn:Hattempt.
    + rewrite isinstance_Exception.
      destruct (IH self) as (Hnone & Hkeep & Hreach).
      split; [done|]. split; [done|].
      intros config' c [->|Hin]%elem_of_cons Hr; [|by eapply Hreach].
      destruct Hr as [auth_config' [Hauth' Hattempt']].
      rewrite Hauth in Hauth'. injection Hauth' as <-.
      rewrite Hattempt in Hattempt'. discriminate.
    + destruct (IH (store self connection)) as (Hnone & Hkeep & Hreach).
      split; [done|]. split.
      * intros n Hn. by apply Hkeep, store_connections.
      * intros config' c [->|Hin]%elem_of_cons Hr; [|by eapply Hreach].
        destruct Hr as [auth_config' [Hauth' Hattempt']].
        rewrite Hauth in Hauth'. injection Hauth' as <-.
        rewrite Hattempt in Hattempt'. injection Hattempt' as <-.
        apply Hkeep. unfold store. simpl. rewrite lookup_insert_eq.
        by eexists.
Qed.

End RegistryInit.

Lemma initialize_loop (world : Registry.World)
  (first : Registry.RemoteConfig) (rest : list Registry.RemoteConfig)
  (self : Registry.A2AAgentCommunicationBase) :
  Registry.remote_agent_configs self = Some (first :: rest) →
  Registry.truthy_config first = true →
  Registry.initialize world self
  = match Registry.connect_each world (first :: rest) self with
    | (Some e, self1) => (Some e, self1)
    | (None, self1) => (None, Registry.set_initialized self1)
    end.
Proof.
  intros Hconfigs Hfirst. unfold Registry.initialize.
  by rewrite Hconfigs, Hfirst.
Qed.

(** Partial-failure tolerance, where it does hold: with well-formed [auth]
    mappings, [initialize] does not raise and every remote that can be
    fetched and connected is registered. *)
Lemma initialize_tolerates_unreachable_agents (world : Registry.World)
  (configs : list Registry.RemoteConfig) :
  Forall valid_auth configs →
  Forall (fun config => Registry.truthy_config config = true) configs →
  let r := Registry.initialize world (Registry.new (Some configs)) in
  r.1 = None
  ∧ Registry.is_initialized r.2 = true
  ∧ (∀ config c,
       config ∈ configs → reachable world config c →
       is_Some (Registry.remote_agent_connections r.2
                  !! Auth.name (Registry.card c))).
Proof.
  intros Hvalid Htruthy.
  destruct configs as [|first rest].
  - split; [done|]. split; [done|]. intros config c Hin.
    by apply elem_of_nil in Hin.
  - inversion Htruthy as [|? ? Hfirst _]; subst.
    rewrite (initialize_loop world first rest) by done.
    destruct (connect_each_tolerates_failures world (first :: rest) Hvalid
                (Registry.new (Some (first :: rest))))
      as (Hnone & _ & Hreach).
    destruct (Registry.connect_each world (first :: rest) _)
      as [[e|] self1]; [discriminate Hnone|].
    split; [done|]. split; [done|]. exact Hreach.
Qed.

(** Two remotes: the first one's [auth] block names an unknown type, the
    second is well-formed and reachable. *)
Definition mistyped_remote : Registry.RemoteConfig :=
  {| Registry.url := Some "https://claims.example";
     Registry.auth :=
       Some {| Registry.raw_type := Some "oauth2";
               Registry.raw_security := None |} |}.

Definition healthy_remote : Registry.RemoteConfig :=
  {| Registry.url := Some "https://billing.example";
     Registry.auth :=
       Some {| Registry.raw_type := Some "noauth";
               Registry.raw_security := None |} |}.

Definition billing_card : Auth.AgentCard :=
  {| Auth.name := "billing-agent";
     Auth.card_description := "Answers billing questions";
     Auth.security := None;
     Auth.security_schemes := None |}.

(** Every remote answers with a card and every client can be built. *)
Definition healthy_world : Registry.World :=
  {| Registry.get_agent_card := fun _ => ok billing_card;
     Registry.factory_create := fun _ _ => None |}.

(** C8 at a failing input.  With a first remote whose [auth] block does
    not validate, [initialize] raises (the [AuthConfig] is built outside
    the [try]), the registry is left uninitialised, and the healthy remote
    that follows is never registered. *)
Theorem initialize_aborts_on_invalid_auth_block :
  let r :=
    Registry.initialize healthy_world
      (Registry.new (Some [mistyped_remote; healthy_remote])) in
  (∃ msg, r.1 = Some (Raise ValidationError msg))
  ∧ Registry.remote_agent_connections r.2 = ∅
  ∧ Registry.is_initialized r.2 = false
  ∧ reachable healthy_world healthy_remote
      {| Registry.card := billing_card;
         Registry.interceptors := [Registry.SessionInterceptor] |}.
Proof.
  vm_compute. split; [by eexists|]. split; [reflexivity|].
  split; [reflexivity|]. eexists. split; reflexivity.
Qed.

(** With the two remotes in the other order the healthy one is registered
    first, and the registry is still left uninitialised by the raise. *)
Example initialize_aborts_after_registering :
  let r :=
    Registry.initialize healthy_world
      (Registry.new (Some [healthy_remote; mistyped_remote])) in
  is_Some r.1
  ∧ is_Some (Registry.remote_agent_connections r.2 !! "billing-agent")
  ∧ Registry.is_initialized r.2 = false.
Proof. vm_compute. repeat split; by eexists. Qed.

(** An unreachable remote, on the other hand, is skipped. *)
Example initialize_skips_unreachable_remote :
  let world :=
    {| Registry.get_agent_card :=
         fun address =>
           if bool_decide (address = Some "https://billing.example")
           then ok billing_card
           else raise ConnectionError "connection refused";
       Registry.factory_create := fun _ _ => None |} in
  let unreachable :=
    {| Registry.url := Some "https://claims.example";
       Registry.auth := Registry.auth healthy_remote |} in
  let r :=
    Registry.initialize world
      (Registry.new (Some [unreachable; healthy_remote])) in
  r.1 = None
  ∧ is_Some (Registry.remote_agent_connections r.2 !! "billing-agent")
  ∧ Registry.is_initialized r.2 = true.
Proof. vm_compute. repeat split; by eexists. Qed.

(** ** Streaming event normaliser *)

(** One turn of the loop, by the outcome of the item's normalisation. *)
Ltac case_outcome :=
  match goal with
  | |- context [match ?x with inl _ => _ | inr _ => _ end] =>
      let e := fresh "e" in
      let ev := fresh "ev" in
      let H := fresh "Hev" in
      destruct x as [e|ev] eqn:H
  end.

Section Normaliser.

Import AppClient.

Lemma message_event_id (o : Obj) (rid : string) (ev : NormalizedEvent) :
  message_event o rid = ok ev → id ev = rid.
Proof.
  unfold message_event. destruct (to_dict o); simpl; [discriminate|].
  by intros [= <-].
Qed.

Lemma normalize_object_id (o : Obj) (rid : string) (ev : NormalizedEvent) :
  normalize_object o rid = ok ev → id ev = rid.
Proof.
  unfold normalize_object.
  destruct (match attr_artifacts o with Some v => truthy v | None => false end);
    [apply message_event_id|].
  destruct (bool_decide _); [apply message_event_id|].
  by intros [= <-].
Qed.

(** Every event of one call carries the same correlation id. *)
Lemma normalize_ids_constant (rid : string) (items : Stream Item) :
  Forall (fun ev => id ev = rid) (normalize rid items).1.
Proof.
  induction items as [|item rest IH|e]; simpl; [constructor| |constructor].
  destruct item as [[err|event_payload]|fields|o].
  - by repeat constructor.
  - case_outcome; simpl; [constructor|].
    constructor; [by eapply message_event_id | exact IH].
  - case_outcome; simpl; [constructor|]. constructor; [|exact IH].
    destruct (unpack fields) as [e'|first]; simpl in *; [discriminate|].
    by eapply normalize_object_id.
  - case_outcome; simpl; [constructor|].
    constructor; [by eapply normalize_object_id | exact IH].
Qed.

Definition is_error_envelope (item : Item) : bool :=
  match item with
  | Rooted (ErrorResponse _) => true
  | _ => false
  end.

(** When the items of a prefix are no error envelopes and none of them
    makes the loop raise, the loop goes on with what follows them. *)
Lemma normalize_past (rid : string) (before : list Item)
  (tail : Stream Item) (earlier : list NormalizedEvent) :
  Forall (fun item => is_error_envelope item = false) before →
  normalize rid (foldr Yield Stop before) = (earlier, None) →
  normalize rid (foldr Yield tail before)
  = ((earlier ++ (normalize rid tail).1)%list, (normalize rid tail).2).
Proof.
  intros Hbefore. revert earlier.
  induction Hbefore as [|item before Hitem _ IH]; intros earlier; simpl.
  - intros [= <-]. by destruct (normalize rid tail).
  - destruct item as [[err|event_payload]|fields|o]; [discriminate|..];
      (case_outcome; [discriminate|];
       destruct (normalize rid (foldr Yield Stop before)) as [evs raised]
         eqn:Hrest;
       simpl; intros [= <- ->]; by rewrite (IH evs)).
Qed.

End Normaliser.

(** The correlation id of a call: the request id when one is given, else
    the message id when one is given, else the generated default. *)
Definition correlation_id (request_id message_id : option string)
  (uuid : string) : string :=
  match request_id, message_id with
  | Some (String c r), _ => String c r
  | _, Some (String c m) => String c m
  | _, _ => uuid
  end.

(** C9, as the code has it.  For a response object with non-empty
    artifacts that the call reaches (the items before it are no error
    envelopes and raise nothing) and that turns into a dictionary,
    [send_message] yields, after the events of the earlier items, an
    event named [message] whose top-level id is the correlation id of
    the call (the explicit request id, else the message id, else a
    generated default) and whose data is the object's dictionary with
    [id] set to the object's own id when it has one, and to the
    correlation id only when it has none; the loop then goes on with the
    rest, and every event of the call carries that same top-level id. *)
Theorem send_message_artifacts_event
  (client : AppClient.OutMessage → Stream AppClient.Item) (uuid text : string)
  (message_id context_id request_id : option string)
  (before : list AppClient.Item) (item : AppClient.Item) (o : AppClient.Obj)
  (rest : Stream AppClient.Item) (earlier : list AppClient.NormalizedEvent)
  (artifacts : AppClient.JV) (d : gmap string AppClient.JV) :
  let rid := correlation_id request_id message_id uuid in
  (∀ message, client message = foldr Yield (Yield item rest) before) →
  Forall (fun item => is_error_envelope item = false) before →
  AppClient.normalize rid (foldr Yield Stop before) = (earlier, None) →
  item = AppClient.Object o
  ∨ (∃ second, item = AppClient.Tupled [o; second]) →
  AppClient.attr_artifacts o = Some artifacts →
  AppClient.truthy artifacts = true →
  AppClient.to_dict o = ok d →
  let r :=
    AppClient.send_message client uuid text message_id context_id request_id in
  r.1
  = (earlier
       ++ {| AppClient.event := "message";
             AppClient.data :=
               <["id" := default (AppClient.JStr rid) (AppClient.attr_id o)]> d;
             AppClient.id := rid |}
       :: (AppClient.normalize rid rest).1)%list
  ∧ r.2 = (AppClient.normalize rid rest).2
  ∧ Forall (fun ev => AppClient.id ev = rid) r.1.
Proof.
  intros rid Hclient Hbefore Hearlier Hitem Hart Htruthy Hdict r.
  assert (r = AppClient.normalize rid (foldr Yield (Yield item rest) before))
    as ->.
  { unfold r, AppClient.send_message. rewrite Hclient.
    f_equal. unfold rid, correlation_id.
    destruct request_id as [[|c s]|], message_id as [[|c' s']|]; reflexivity. }
  split; [|split; [|apply normalize_ids_constant]];
    rewrite (normalize_past rid before _ earlier Hbefore Hearlier);
    assert (AppClient.normalize_object o rid
            = ok {| AppClient.event := "message";
                    AppClient.data :=
                      <["id" := default (AppClient.JStr rid)
                                  (AppClient.attr_id o)]> d;
                    AppClient.id := rid |}) as Hobj
      by (unfold AppClient.normalize_object, AppClient.message_event;
          by rewrite Hart, Htruthy, Hdict);
    destruct Hitem as [-> | [second ->]]; simpl; by rewrite Hobj.
Qed.

(** A task with one artifact and an id of its own. *)
Definition finished_task : AppClient.Obj :=
  {| AppClient.attr_artifacts :=
       Some (AppClient.JList [AppClient.JStr "artifact-1"]);
     AppClient.attr_id := Some (AppClient.JStr "t1");
     AppClient.attr_parts := None;
     AppClient.attr_event := None;
     AppClient.attr_type := None;
     AppClient.shape :=
       AppClient.Model
         (<["id" := AppClient.JStr "t1"]>
            {[ "kind" := AppClient.JStr "task" ]}) |}.

(** The update that comes with a task in a pair, when there is none. *)
Definition no_update : AppClient.Obj :=
  {| AppClient.attr_artifacts := None;
     AppClient.attr_id := None;
     AppClient.attr_parts := None;
     AppClient.attr_event := None;
     AppClient.attr_type := None;
     AppClient.shape := AppClient.Opaque "None" |}.

(** A status update sent while the task is running. *)
Definition progress_note : AppClient.Obj :=
  {| AppClient.attr_artifacts := None;
     AppClient.attr_id := None;
     AppClient.attr_parts := None;
     AppClient.attr_event := None;
     AppClient.attr_type := Some "status-update";
     AppClient.shape :=
       AppClient.Model {[ "state" := AppClient.JStr "working" ]} |}.

Definition task_stream (_ : AppClient.OutMessage) : Stream AppClient.Item :=
  Yield (AppClient.Tupled [finished_task; no_update]) Stop.

Definition progress_then_task (_ : AppClient.OutMessage)
  : Stream AppClient.Item :=
  Yield (AppClient.Object progress_note)
    (Yield (AppClient.Tupled [finished_task; no_update]) Stop).

Lemma send_message_artifacts_event_witness :
  (AppClient.send_message progress_then_task "0f3a" "hola" None None
     (Some "r1")).1
  = [ {| AppClient.event := "status-update";
         AppClient.data := {[ "state" := AppClient.JStr "working" ]};
         AppClient.id := "r1" |};
      {| AppClient.event := "message";
         AppClient.data :=
           <["id" := AppClient.JStr "t1"]>
             (<["id" := AppClient.JStr "t1"]>
                {[ "kind" := AppClient.JStr "task" ]});
         AppClient.id := "r1" |} ].
Proof.
  apply (send_message_artifacts_event progress_then_task "0f3a" "hola" None
           None (Some "r1") [AppClient.Object progress_note]
           (AppClient.Tupled [finished_task; no_update]) finished_task Stop
           [ {| AppClient.event := "status-update";
                AppClient.data := {[ "state" := AppClient.JStr "working" ]};
                AppClient.id := "r1" |} ]
           (AppClient.JList [AppClient.JStr "artifact-1"])
           (<["id" := AppClient.JStr "t1"]>
              {[ "kind" := AppClient.JStr "task" ]})).
  - intros message. reflexivity.
  - repeat constructor.
  - reflexivity.
  - right. by exists no_update.
  - reflexivity.
  - reflexivity.
  - reflexivity.
Defined.

(** C9, as stated, fails: for a task that has an id of its own, the [id]
    inside the data is the task's id, not the request id ["r1"]. *)
Lemma send_message_data_id_is_object_id :
  AppClient.send_message task_stream "0f3a" "hola" None None (Some "r1")
  = ([ {| AppClient.event := "message";
          AppClient.data :=
            <["id" := AppClient.JStr "t1"]>
              {[ "kind" := AppClient.JStr "task" ]};
          AppClient.id := "r1" |} ], None)
  ∧ (<["id" := AppClient.JStr "t1"]>
       ({[ "kind" := AppClient.JStr "task" ]} : gmap string AppClient.JV))
      !! "id" ≠ Some (AppClient.JStr "r1").
Proof.
  split; [vm_compute; reflexivity|].
  rewrite lookup_insert_eq. discriminate.
Qed.

(** * Further properties of the runtime *)

(** ** Gateway: what [dispatch] can answer *)

(** X1.  A gateway that the constructor built either forwards a request or
    answers it with status 401, 403 or 503; for a validated payload whose
    [scope] is text or absent it has no other outcome, and no exception
    leaves it. *)
Theorem dispatch_forwards_or_denies (card : Auth.AgentCard)
  (auth : option Auth.AuthConfig) (paths : option (list string))
  (self : Auth.Middleware) (env : Auth.Collaborators) (request : Request) :
  Auth.__init__ card auth paths = ok self →
  (∀ payload,
     Auth.authenticate self env request = inr payload →
     is_Some (scope_text payload)) →
  Auth.dispatch self env request = Auth.CallNext
  ∨ ∃ response,
      Auth.dispatch self env request = Auth.Respond response
      ∧ (status_code response = 401 ∨ status_code response = 403
         ∨ status_code response = 503)%Z.
Proof.
  intros Hinit Htext.
  destruct (decide (url_path request ∈ Auth.public_paths self)) as [Hin|Hpath];
    [left; apply dispatch_bypass; auto|].
  destruct (decide (Auth.credential_service self = Auth.NO_AUTH))
    as [Hno|Hkind]; [left; apply dispatch_bypass; auto|].
  rewrite (dispatch_protected self env request Hpath Hkind).
  destruct (Auth.authenticate self env request) as [e|payload].
  - right.
    destruct (auth_failure_clauses_total request e)
      as [[_ ->]|[_ [reason ->]]]; eexists; (split; [reflexivity|]).
    + right. right. apply status_service_unavailable.
    + left. apply status_unauthorized.
  - destruct (init_protected_has_scheme card auth paths self Hinit Hkind)
      as [[required Hreq] _].
    destruct (Htext payload eq_refl) as [scope Hscope].
    rewrite (check_claims_text _ _ _ _ Hscope), Hreq.
    destruct (Auth.missing_claims _ _); [by left|].
    right. eexists. split; [reflexivity|]. right. left. apply status_forbidden.
Qed.

Lemma dispatch_forwards_or_denies_witness :
  Auth.dispatch admin_gateway lenient_idp (bearer_request "read write")
  = Auth.CallNext
  ∨ ∃ response,
      Auth.dispatch admin_gateway lenient_idp (bearer_request "read write")
      = Auth.Respond response
      ∧ (status_code response = 401 ∨ status_code response = 403
         ∨ status_code response = 503)%Z.
Proof.
  apply (dispatch_forwards_or_denies admin_card (Some cognito_auth)
           (Some ["/health"]) admin_gateway lenient_idp
           (bearer_request "read write")).
  - reflexivity.
  - intros payload [= <-]. by eexists.
Defined.

(** The three kinds of denial: status, the category written in a plain
    text body and the category written in a JSON body. *)
Definition denial_kinds : list (Z * string * string) :=
  [ (401%Z, "unauthorized", "unauthorized");
    (403%Z, "forbidden", "forbidden");
    (503%Z, "service unavailable", "service_unavailable") ].

Lemma negotiated_unauthorized (reason : string) (request : Request) :
  ∃ status plain json why,
    (status, plain, json) ∈ denial_kinds
    ∧ status_code (Auth._unauthorized reason request) = status
    ∧ (if Auth.accepts_event_stream request
       then media_type (Auth._unauthorized reason request)
            = "text/event-stream"
            ∧ body (Auth._unauthorized reason request)
              = PlainText ("error " +:+ plain +:+ ": " +:+ why)
       else media_type (Auth._unauthorized reason request)
            = "application/json"
            ∧ body (Auth._unauthorized reason request)
              = Json [("error", json); ("reason", why)]).
Proof.
  exists 401%Z, "unauthorized", "unauthorized", reason.
  split; [by left|]. unfold Auth._unauthorized.
  by destruct (Auth.accepts_event_stream request).
Qed.

Lemma negotiated_forbidden (reason : string) (request : Request) :
  ∃ status plain json why,
    (status, plain, json) ∈ denial_kinds
    ∧ status_code (Auth._forbidden reason request) = status
    ∧ (if Auth.accepts_event_stream request
       then media_type (Auth._forbidden reason request)
            = "text/event-stream"
            ∧ body (Auth._forbidden reason request)
              = PlainText ("error " +:+ plain +:+ ": " +:+ why)
       else media_type (Auth._forbidden reason request)
            = "application/json"
            ∧ body (Auth._forbidden reason request)
              = Json [("error", json); ("reason", why)]).
Proof.
  exists 403%Z, "forbidden", "forbidden", reason.
  split; [right; by left|]. unfold Auth._forbidden.
  by destruct (Auth.accepts_event_stream request).
Qed.

Lemma negotiated_service_unavailable (reason : string) (request : Request) :
  ∃ status plain json why,
    (status, plain, json) ∈ denial_kinds
    ∧ status_code (Auth._service_unavailable reason request) = status
    ∧ (if Auth.accepts_event_stream request
       then media_type (Auth._service_unavailable reason request)
            = "text/event-stream"
            ∧ body (Auth._service_unavailable reason request)
              = PlainText ("error " +:+ plain +:+ ": " +:+ why)
       else media_type (Auth._service_unavailable reason request)
            = "application/json"
            ∧ body (Auth._service_unavailable reason request)
              = Json [("error", json); ("reason", why)]).
Proof.
  exists 503%Z, "service unavailable", "service_unavailable", reason.
  split; [right; right; by left|]. unfold Auth._service_unavailable.
  by destruct (Auth.accepts_event_stream request).
Qed.

(** X2.  Every response of [dispatch] is content-negotiated.  When the
    request's [Accept] header contains [text/event-stream] the body is the
    plain text [error <category>: <reason>] with that media type;
    otherwise it is the JSON object with [error] and [reason].  The
    category goes with the status: 401 unauthorized, 403 forbidden, 503
    service unavailable (spelt [service_unavailable] in JSON). *)
Theorem dispatch_response_is_negotiated (self : Auth.Middleware)
  (env : Auth.Collaborators) (request : Request) (response : Response) :
  Auth.dispatch self env request = Auth.Respond response →
  ∃ status plain json why,
    (status, plain, json) ∈ denial_kinds
    ∧ status_code response = status
    ∧ (if Auth.accepts_event_stream request
       then media_type response = "text/event-stream"
            ∧ body response = PlainText ("error " +:+ plain +:+ ": " +:+ why)
       else media_type response = "application/json"
            ∧ body response = Json [("error", json); ("reason", why)]).
Proof.
  unfold Auth.dispatch.
  destruct (_ || _); [discriminate|].
  destruct (Auth.authenticate self env request) as [e|payload].
  - destruct (auth_failure_clauses_total request e)
      as [[_ ->]|[_ [reason ->]]]; intros [= <-].
    + apply negotiated_service_unavailable.
    + apply negotiated_unauthorized.
  - destruct (scope_text payload) as [scope|] eqn:Hscope.
    + rewrite (check_claims_text _ _ _ _ Hscope).
      destruct (Auth.a2a_auth self); [|discriminate].
      destruct (Auth.missing_claims _ _); [discriminate|].
      intros [= <-]. apply negotiated_forbidden.
    + by rewrite (check_claims_not_text _ _ _ Hscope).
Qed.

Definition streaming_request : Request :=
  {| url_path := "/tasks";
     req_headers := [("accept", "application/json, text/event-stream")] |}.

Lemma dispatch_response_is_negotiated_witness :
  ∃ status plain json why,
    (status, plain, json) ∈ denial_kinds
    ∧ status_code
        (PlainTextResponse "error unauthorized: Invalid auth header" 401
           "text/event-stream") = status
    ∧ media_type
        (PlainTextResponse "error unauthorized: Invalid auth header" 401
           "text/event-stream") = "text/event-stream"
    ∧ body
        (PlainTextResponse "error unauthorized: Invalid auth header" 401
           "text/event-stream")
      = PlainText ("error " +:+ plain +:+ ": " +:+ why).
Proof.
  destruct (dispatch_response_is_negotiated admin_gateway lenient_idp
              streaming_request
              (PlainTextResponse "error unauthorized: Invalid auth header" 401
                 "text/event-stream"))
    as (status & plain & json & why & Hkind & Hstatus & Hbody).
  - reflexivity.
  - exists status, plain, json, why.
    split; [exact Hkind|]. split; [exact Hstatus|]. exact Hbody.
Defined.

(** X3.  The key set is fetched before the [Authorization] header is
    looked at.  On a protected path, when the JWKS request raises a
    [RequestException] (timeout, connection or HTTP error) the answer is
    the 503 response whatever the request carries; when it raises a
    [ValueError] or a [TypeError] that is no [RequestException] the
    answer is a 401 ("Invalid JWKS format", "Invalid JWKS
    configuration"). *)
Theorem dispatch_jwks_failure_decides (self : Auth.Middleware)
  (env : Auth.Collaborators) (request : Request)
  (scheme : Auth.SecurityScheme) (e : exn) :
  url_path request ∉ Auth.public_paths self →
  Auth.credential_service self ≠ Auth.NO_AUTH →
  Auth.security_scheme self = Some scheme →
  Auth.jwks_get env (Auth.description scheme) = inl e →
  (isinstance e RequestException = true →
   Auth.dispatch self env request
   = Auth.Respond (Auth._service_unavailable "Unable to fetch JWKS" request))
  ∧ (isinstance e RequestException = false →
     isinstance e ValueError = true →
     Auth.dispatch self env request
     = Auth.Respond (Auth._unauthorized "Invalid JWKS format" request))
  ∧ (isinstance e RequestException = false →
     isinstance e ValueError = false →
     isinstance e TypeError = true →
     Auth.dispatch self env request
     = Auth.Respond (Auth._unauthorized "Invalid JWKS configuration" request)).
Proof.
  intros Hpath Hkind Hscheme Hjwks.
  rewrite (dispatch_protected self env request Hpath Hkind).
  unfold Auth.authenticate, Auth.get_keys. rewrite Hscheme. simpl.
  rewrite Hjwks. destruct e as [c msg].
  destruct c; repeat split; intros; try discriminate; reflexivity.
Qed.

Definition unreachable_idp : Auth.Collaborators :=
  {| Auth.jwks_get := fun _ => raise ReqTimeout "read timed out";
     Auth.validate_token := Auth.validate_token lenient_idp |}.

Lemma dispatch_jwks_failure_decides_witness :
  Auth.dispatch admin_gateway unreachable_idp anonymous_request
  = Auth.Respond
      (Auth._service_unavailable "Unable to fetch JWKS" anonymous_request).
Proof.
  apply (dispatch_jwks_failure_decides admin_gateway unreachable_idp
           anonymous_request jwks_scheme (Raise ReqTimeout "read timed out")).
  - simpl. intros [H%elem_of_singleton|H%elem_of_empty]%elem_of_union.
    + discriminate H.
    + exact H.
  - discriminate.
  - reflexivity.
  - reflexivity.
  - reflexivity.
Defined.

(** X4.  A card that declares no security (the list is absent or empty)
    gives a gateway that forwards every request, whatever strategy the
    authentication settings name and whatever the request carries. *)
Theorem unsecured_card_forwards_every_request (card : Auth.AgentCard)
  (auth : option Auth.AuthConfig) (paths : option (list string)) :
  Auth.security card = None ∨ Auth.security card = Some [] →
  ∃ self,
    Auth.__init__ card auth paths = ok self
    ∧ ∀ env request, Auth.dispatch self env request = Auth.CallNext.
Proof.
  intros Hsec. unfold Auth.__init__, Auth.init_body.
  destruct Hsec as [-> | ->]; simpl; eexists; (split; [reflexivity|]);
    intros env request; apply dispatch_bypass; by right.
Qed.

Lemma unsecured_card_forwards_every_request_witness :
  ∃ self,
    Auth.__init__ open_card (Some cognito_auth) None = ok self
    ∧ ∀ env request, Auth.dispatch self env request = Auth.CallNext.
Proof.
  apply (unsecured_card_forwards_every_request open_card (Some cognito_auth)
           None).
  right. reflexivity.
Defined.

(** X5.  When the first security requirement is a plain scheme name, no
    claim is required: on a protected path the request is forwarded
    exactly when the token validates and the [scope] of its payload is
    text or absent, and a 403 is never given.  The scope is split even
    though no claim is looked for, so a validated payload whose [scope]
    is not text is not forwarded: the [AttributeError] of [split] leaves
    [dispatch]. *)
Theorem scheme_name_requires_no_claims (card : Auth.AgentCard)
  (auth : option Auth.AuthConfig) (paths : option (list string))
  (self : Auth.Middleware) (env : Auth.Collaborators) (request : Request)
  (scheme_name : string) (rest : list Auth.SecurityRequirement) :
  Auth.security card = Some (Auth.ReqName scheme_name :: rest) →
  Auth.__init__ card auth paths = ok self →
  url_path request ∉ Auth.public_paths self →
  Auth.credential_service self ≠ Auth.NO_AUTH →
  (Auth.dispatch self env request = Auth.CallNext
   ↔ ∃ payload,
       Auth.authenticate self env request = inr payload
       ∧ is_Some (scope_text payload))
  ∧ (∀ response,
       Auth.dispatch self env request = Auth.Respond response →
       status_code response ≠ 403%Z)
  ∧ (∀ payload,
       Auth.authenticate self env request = inr payload →
       scope_text payload = None →
       Auth.dispatch self env request
       = Auth.Propagate
           (Raise AttributeError "object has no attribute 'split'")).
Proof.
  intros Hsec Hinit Hpath Hkind.
  assert (Auth.a2a_auth self = Some []) as Hreq.
  { revert Hinit. unfold Auth.__init__, Auth.init_body. rewrite Hsec. simpl.
    destruct (Auth.security_schemes card) as [schemes|]; simpl;
      [|discriminate].
    destruct (schemes !! scheme_name); simpl; [|discriminate].
    destruct auth; simpl; [|discriminate]. by intros [= <-]. }
  rewrite (dispatch_protected self env request Hpath Hkind).
  destruct (Auth.authenticate self env request) as [e|payload].
  - destruct (auth_failure_clauses_total request e)
      as [[_ ->]|[_ [reason ->]]].
    + split; [split; [discriminate | by intros (? & ? & ?)]|].
      split; [|by intros ? ?].
      intros response [= <-]. by rewrite status_service_unavailable.
    + split; [split; [discriminate | by intros (? & ? & ?)]|].
      split; [|by intros ? ?].
      intros response [= <-]. by rewrite status_unauthorized.
  - destruct (scope_text payload) as [scope|] eqn:Hscope.
    + rewrite (check_claims_text _ _ _ _ Hscope), Hreq. simpl.
      split; [split; [intros _; exists payload; by split | done]|].
      split; [discriminate|]. intros p [= <-]. by rewrite Hscope.
    + rewrite (check_claims_not_text _ _ _ Hscope).
      split; [split; [discriminate|]|].
      * intros (p & [= <-] & [scope Hs]). by rewrite Hscope in Hs.
      * split; [discriminate | done].
Qed.

Definition named_scheme_card : Auth.AgentCard :=
  {| Auth.name := "billing-agent";
     Auth.card_description := "Answers billing questions";
     Auth.security := Some [Auth.ReqName "read"];
     Auth.security_schemes := Some {[ "read" := jwks_scheme ]} |}.

Lemma scheme_name_requires_no_claims_witness :
  Auth.dispatch
    {| Auth.public_paths := ∅; Auth.a2a_auth := Some [];
       Auth.credential_service := Auth.COGNITO;
       Auth.security_scheme := Some jwks_scheme |}
    lenient_idp (bearer_request "anything")
  = Auth.CallNext.
Proof.
  apply (scheme_name_requires_no_claims named_scheme_card (Some cognito_auth)
           None
           {| Auth.public_paths := ∅; Auth.a2a_auth := Some [];
              Auth.credential_service := Auth.COGNITO;
              Auth.security_scheme := Some jwks_scheme |}
           lenient_idp (bearer_request "anything") "read" []).
  - reflexivity.
  - reflexivity.
  - simpl. apply not_elem_of_empty.
  - discriminate.
  - eexists. split; [reflexivity|]. by eexists.
Defined.

(** ** Cognito strategy: the bearer token and the token cache *)

Lemma split_sep_go_cons (sep : string) (skip : nat) (cur s : string) :
  ∃ piece pieces, split_sep_go sep skip cur s = piece :: pieces.
Proof.
  revert skip cur. induction s as [|c s IH]; intros skip cur; simpl;
    [by eexists _, _|].
  destruct skip; [|apply IH].
  match goal with
  | |- context [if ?b then _ else _] => destruct b
  end; [by eexists _, _ | apply IH].
Qed.

(** A text in which the separator does not occur is one piece. *)
Lemma split_sep_go_absent (sep : string) (s cur : string) :
  str_contains sep s = false →
  split_sep_go sep 0 cur s = [String.rev_app cur s].
Proof.
  revert cur. induction s as [|c s IH]; intros cur; [done|].
  change (str_contains sep (String c s))
    with (String.prefix sep (String c s) || str_contains sep s).
  intros [Hhere Hlater]%orb_false_iff.
  change (split_sep_go sep 0 cur (String c s))
    with (if String.prefix sep (String c s)
          then String.rev cur
               :: split_sep_go sep (String.length sep - 1) "" s
          else split_sep_go sep 0 (String c cur) s).
  rewrite Hhere. by rewrite IH.
Qed.

Lemma split_bearer (rest : string) :
  split_sep ("Bearer " +:+ rest) "Bearer "
  = "" :: split_sep_go "Bearer " 0 "" rest.
Proof.
  unfold split_sep.
  change (split_sep_go "Bearer " 0 "" ("Bearer " +:+ rest))
    with (if String.prefix "Bearer " ("Bearer " +:+ rest)
          then "" :: split_sep_go "Bearer " 0 "" rest
          else split_sep_go "Bearer " 0 "B" ("earer " +:+ rest)).
  by rewrite prefix_app.
Qed.

(** X6.  [get_token] gives back the token of an [Authorization: Bearer]
    header: for every token in which the text [Bearer ] does not occur
    again, the header [Bearer <token>] yields exactly that token. *)
Theorem get_token_returns_bearer_value (request : Request) (token : string) :
  headers_get (req_headers request) "Authorization"
  = Some ("Bearer " +:+ token) →
  str_contains "Bearer " token = false →
  Cognito.get_token request = ok token.
Proof.
  intros Hheader Habsent. unfold Cognito.get_token. rewrite Hheader.
  change (default "" (Some ("Bearer " +:+ token))) with ("Bearer " +:+ token).
  unfold startswith. rewrite prefix_app, split_bearer.
  by rewrite (split_sep_go_absent _ _ _ Habsent).
Qed.

Lemma get_token_returns_bearer_value_witness :
  Cognito.get_token (bearer_request "eyJhbGciOi.payload.sig")
  = ok "eyJhbGciOi.payload.sig".
Proof.
  apply (get_token_returns_bearer_value
           (bearer_request "eyJhbGciOi.payload.sig")
           "eyJhbGciOi.payload.sig").
  - reflexivity.
  - reflexivity.
Defined.

(** X7.  [get_token] succeeds exactly when the request has an
    [Authorization] header that starts with [Bearer ] (in this spelling);
    in every other case it raises [InvalidAuthHeader], and it raises
    nothing else. *)
Theorem get_token_accepts_bearer_only (request : Request) :
  match Cognito.get_token request with
  | inr _ =>
      startswith
        (default "" (headers_get (req_headers request) "Authorization"))
        "Bearer " = true
  | inl e =>
      e = Raise InvalidAuthHeader "Missing or malformed Authorization header."
      ∧ startswith
          (default "" (headers_get (req_headers request) "Authorization"))
          "Bearer " = false
  end.
Proof.
  unfold Cognito.get_token.
  destruct (headers_get (req_headers request) "Authorization") as [h|];
    [|by split].
  simpl default. unfold startswith.
  destruct (String.prefix "Bearer " h) eqn:Hprefix.
  - destruct (prefix_split _ _ Hprefix) as [rest ->].
    change (truthy_opt_str (Some ("Bearer " +:+ rest))) with true.
    rewrite split_bearer.
    destruct (split_sep_go_cons "Bearer " 0 "" rest) as (piece & pieces & ->).
    done.
  - rewrite orb_true_r. by split.
Qed.

Section TokenCache.

Import Cognito.
Local Open Scope Z_scope.

Definition refresh_due (self : CognitoM2MCredentialService) (now : Z) : Prop :=
  truthy_opt_str (_access_token self) = false ∨ now > _expires_at self.

Lemma get_credentials_due (self : CognitoM2MCredentialService)
  (reply : res TokenData) (now now' : Z) :
  refresh_due self now →
  get_credentials self reply now now'
  = let r := _fetch_token self reply now' in
    match outcome r with
    | inl e => {| outcome := inl e; after := after r; posted := posted r |}
    | inr _ =>
        {| outcome := ok (_access_token (after r)); after := after r;
           posted := posted r |}
    end.
Proof.
  intros Hdue. unfold get_credentials.
  destruct Hdue as [-> | Hgt]; [done|].
  by rewrite (bool_decide_eq_true_2 _ Hgt), orb_true_r.
Qed.

End TokenCache.

(** X8.  A refresh that fails leaves the cache as it was.  When a refresh
    is due and the token endpoint call raises, or its answer has no
    [access_token], [get_credentials] raises after one request and
    neither the cached token nor the recorded expiry changes. *)
Theorem failed_refresh_keeps_cache
  (self : Cognito.CognitoM2MCredentialService)
  (reply : res Cognito.TokenData) (now now' : Z) :
  refresh_due self now →
  match reply with
  | inl _ => True
  | inr token_data => Cognito.td_access_token token_data = None
  end →
  let r := Cognito.get_credentials self reply now now' in
  (∃ e, Cognito.outcome r = inl e)
  ∧ Cognito.after r = self
  ∧ length (Cognito.posted r) = 1%nat.
Proof.
  intros Hdue Hfail r. unfold r.
  rewrite (get_credentials_due self reply now now' Hdue).
  unfold Cognito._fetch_token.
  destruct reply as [e|token_data]; simpl; [by eauto|].
  rewrite Hfail. simpl. by eauto.
Qed.

Lemma failed_refresh_keeps_cache_witness :
  Cognito.after
    (Cognito.get_credentials cached_service
       (raise HTTPStatusError "503 Service Unavailable") 2000 2000)
  = cached_service.
Proof.
  apply (failed_refresh_keeps_cache cached_service
           (raise HTTPStatusError "503 Service Unavailable") 2000 2000).
  - right. simpl. lia.
  - exact I.
Defined.

(** X9.  The lifetime of a fetched token.  When a refresh is due and the
    endpoint answers with a non-empty token at clock [now'], that token
    is returned, and every later call up to and including
    [now' + expires_in - 60] (3600 for a missing [expires_in]) returns it
    again without a request; the first call after that instant sends a
    new request. *)
Theorem fetched_token_is_reused_for_its_lifetime
  (self : Cognito.CognitoM2MCredentialService)
  (token_data : Cognito.TokenData) (tok : string) (now now' : Z) :
  refresh_due self now →
  Cognito.td_access_token token_data = Some tok →
  truthy_str tok = true →
  let r := Cognito.get_credentials self (inr token_data) now now' in
  let expiry :=
    (now' + default 3600 (Cognito.td_expires_in token_data) - 60)%Z in
  Cognito.outcome r = ok (Some tok)
  ∧ ∀ reply later later',
      ((later ≤ expiry)%Z →
       Cognito.get_credentials (Cognito.after r) reply later later'
       = {| Cognito.outcome := ok (Some tok);
            Cognito.after := Cognito.after r;
            Cognito.posted := [] |})
      ∧ ((later > expiry)%Z →
         length
           (Cognito.posted
              (Cognito.get_credentials (Cognito.after r) reply later later'))
         = 1%nat).
Proof.
  intros Hdue Htok Htruthy r expiry.
  assert (r = {| Cognito.outcome := ok (Some tok);
                 Cognito.after :=
                   Cognito.set_expires_at
                     (Cognito.set_access_token self tok) expiry;
                 Cognito.posted := Cognito.posted r |}) as Hr.
  { unfold r. rewrite (get_credentials_due self _ now now' Hdue).
    unfold Cognito._fetch_token. rewrite Htok. reflexivity. }
  rewrite Hr. simpl. split; [done|]. intros reply later later'. split.
  - intros Hle. rewrite get_credentials_cached; [done| |done].
    simpl. exact Htruthy.
  - intros Hgt. by apply get_credentials_refetch.
Qed.

Lemma fetched_token_is_reused_for_its_lifetime_witness :
  Cognito.outcome
    (Cognito.get_credentials cached_service fresh_reply 2000 2001)
  = ok (Some "tok2").
Proof.
  apply (fetched_token_is_reused_for_its_lifetime cached_service
           {| Cognito.td_access_token := Some "tok2";
              Cognito.td_expires_in := Some 3600%Z |}
           "tok2" 2000 2001).
  - right. simpl. lia.
  - reflexivity.
  - reflexivity.
Defined.

(** ** Header interceptors under any configuration *)

Section AnyConfiguration.

Import HeadersPropagation.

Variable self : HeadersPropagationInterceptor.

(** [intercept] on a context, as a function of its [propagation_headers]
    entry. *)
Lemma intercept_cases (http_kwargs : HttpKwargs) (ctx : CallContext) :
  intercept self http_kwargs (Some ctx)
  = match state ctx !! "propagation_headers" with
    | Some (Dict d) =>
        if bool_decide (d = ∅) then (http_kwargs, ∅)
        else
          let r := forward self d (default ∅ (headers http_kwargs)) in
          ({| headers := Some r.1;
              other_options := other_options http_kwargs |}, r.2)
    | _ => (http_kwargs, ∅)
    end.
Proof.
  unfold intercept. case_bool_decide as Hempty.
  - by rewrite Hempty, lookup_empty.
  - by destruct (state ctx !! "propagation_headers") as [[?|?]|].
Qed.

(** Whatever is added passed the test of the loop. *)
Lemma intercept_added_kept (http_kwargs : HttpKwargs)
  (context : option CallContext) (k : string) (v : PyValue) :
  (intercept self http_kwargs context).2 !! k = Some v →
  is_str_or_bytes v = true ∧ _is_allowed self k = true.
Proof.
  destruct context as [ctx|]; [|simpl; by rewrite lookup_empty].
  rewrite intercept_cases.
  destruct (state ctx !! "propagation_headers") as [[?|d]|];
    try (simpl; by rewrite lookup_empty).
  case_bool_decide; [simpl; by rewrite lookup_empty|]. simpl.
  destruct (forward_lookup self d (default ∅ (headers http_kwargs)) k)
    as [-> _].
  destruct (d !! k) as [w|]; [|discriminate].
  unfold kept. destruct (is_str_or_bytes w) eqn:Hw; [|discriminate].
  destruct (_is_allowed self k) eqn:Hk; [|discriminate].
  by intros [= <-].
Qed.

End AnyConfiguration.

(** X10.  Under every configuration of the interceptor, a header that is
    added has a text or bytes value, a lower-cased name that is none of
    the hop-by-hop names, [host] or [content-length], and that matches
    the configured names or prefixes.  [authorization] and [cookie] are
    never added unless [allow_authorization] is set, and setting it only
    lifts the block: the name must still be on the allowlist. *)
Theorem intercept_never_forwards_blocked
  (prefixes names : option (list string)) (allow_auth : bool)
  (http_kwargs : HttpKwargs) (context : option CallContext)
  (k : string) (v : PyValue) :
  (HeadersPropagation.intercept
     (HeadersPropagation.__init__ prefixes names allow_auth)
     http_kwargs context).2 !! k = Some v →
  is_str_or_bytes v = true
  ∧ (lower k ∉ ["connection"; "keep-alive"; "transfer-encoding"; "te";
                "trailer"; "upgrade"; "host"; "content-length"])
  ∧ (allow_auth = false → lower k ∉ ["authorization"; "cookie"])
  ∧ (lower k
     ∈ lower <$> HeadersPropagation.or_default names
                   ["x-request-id"; "x-correlation-id"; "accept-language"]
     ∨ ∃ p,
         p ∈ HeadersPropagation.or_default prefixes ["x-mapfre-"]
         ∧ startswith (lower k) (lower p) = true).
Proof.
  intros Hadded.
  apply intercept_added_kept in Hadded as [Hv Hallowed].
  split; [exact Hv|]. revert Hallowed.
  unfold HeadersPropagation._is_allowed.
  case_bool_decide as Hblocked; [discriminate|].
  assert ((lower k ∉ ["connection"; "keep-alive"; "transfer-encoding"; "te";
                      "trailer"; "upgrade"; "host"; "content-length"])
          ∧ (allow_auth = false → lower k ∉ ["authorization"; "cookie"]))
    as [Hhop Hauth].
  { assert (∀ x : string,
              x ∈ ["connection"; "keep-alive"; "transfer-encoding"; "te";
                   "trailer"; "upgrade"; "host"; "content-length"] →
              x ∈ HeadersPropagation.hop_by_hop) as Hhop.
    { intros x. unfold HeadersPropagation.hop_by_hop.
      rewrite !elem_of_cons, elem_of_nil, !elem_of_union, !elem_of_singleton.
      tauto. }
    destruct allow_auth; simpl in Hblocked.
    - split; [|discriminate]. intros Hin. by apply Hblocked, Hhop.
    - split.
      + intros Hin. apply Hblocked.
        apply elem_of_union_l, elem_of_union_l. by apply Hhop.
      + intros _. rewrite !elem_of_cons, elem_of_nil.
        intros [Heq|[Heq|[]]]; apply Hblocked; rewrite Heq.
        * apply elem_of_union_l, elem_of_union_r. by apply elem_of_singleton.
        * apply elem_of_union_r. by apply elem_of_singleton. }
  intros Hallowed. split; [exact Hhop|]. split; [exact Hauth|].
  revert Hallowed. case_bool_decide as Hname.
  - intros _. left. simpl in Hname. by apply elem_of_list_to_set in Hname.
  - intros Hprefix. right. apply existsb_exists in Hprefix as [q [Hq Hstarts]].
    simpl in Hq. apply list_elem_of_In, list_elem_of_fmap in Hq
      as [p [-> Hp]].
    by exists p.
Qed.

Definition cookie_context : CallContext :=
  {| state :=
       {[ "propagation_headers" :=
            Dict
              (<["X-Tenant" := Str "acme"]>
                 {[ "Cookie" := Str "sid=1" ]}) ]} |}.

Lemma intercept_never_forwards_blocked_witness :
  is_str_or_bytes (Str "acme") = true
  ∧ (lower "X-Tenant"
       ∉ ["connection"; "keep-alive"; "transfer-encoding"; "te";
          "trailer"; "upgrade"; "host"; "content-length"]).
Proof.
  destruct (intercept_never_forwards_blocked (Some ["X-"]) None true
              bare_options (Some cookie_context) "X-Tenant" (Str "acme"))
    as (Hv & Hhop & _).
  - vm_compute. reflexivity.
  - split; [exact Hv | exact Hhop].
Defined.

(** X11.  [intercept] is idempotent: running it again on its own output,
    with the same context, changes nothing. *)
Theorem intercept_is_idempotent
  (self : HeadersPropagation.HeadersPropagationInterceptor)
  (http_kwargs : HttpKwargs) (context : option CallContext) :
  HeadersPropagation.intercept self
    (HeadersPropagation.intercept self http_kwargs context).1 context
  = HeadersPropagation.intercept self http_kwargs context.
Proof.
  destruct context as [ctx|]; [|done].
  rewrite !intercept_cases.
  destruct (state ctx !! "propagation_headers") as [[?|d]|]; try done.
  case_bool_decide; [done|]. simpl.
  set (h0 := default ∅ (headers http_kwargs)).
  set (h1 := (HeadersPropagation.forward self d h0).1).
  assert ((HeadersPropagation.forward self d h1).2
          = (HeadersPropagation.forward self d h0).2) as Hadded.
  { apply map_eq. intros k.
    destruct (forward_lookup self d h1 k) as [-> _].
    by destruct (forward_lookup self d h0 k) as [-> _]. }
  assert ((HeadersPropagation.forward self d h1).1 = h1) as Hheaders.
  { apply map_eq. intros k.
    destruct (forward_lookup self d h1 k) as [_ ->]. rewrite Hadded.
    destruct ((HeadersPropagation.forward self d h0).2 !! k) as [v|] eqn:Hk;
      [|done].
    unfold h1. destruct (forward_lookup self d h0 k) as [_ ->].
    by rewrite Hk. }
  by rewrite Hadded, Hheaders.
Qed.

(** ** Broad forwarding by the session interceptor *)

Section Session.

Import SessionForwarding.

(** What one state entry writes under the header name [k], if anything. *)
Definition writes (entry : string * StateValue) (k : string)
  : option PyValue :=
  match entry with
  | (key, Leaf v) =>
      if is_str_or_bytes v && bool_decide (key = k) then Some v else None
  | (key, Dict d) =>
      if bool_decide (key = "propagation_headers") then
        match d !! k with
        | Some v => if is_str_or_bytes v then Some v else None
        | None => None
        end
      else None
  end.

Lemma flatten_lookup (d hdrs : gmap string PyValue) (k : string) :
  flatten d hdrs !! k
  = match d !! k with
    | Some v => if is_str_or_bytes v then Some v else hdrs !! k
    | None => hdrs !! k
    end.
Proof.
  unfold flatten.
  apply (map_fold_weak_ind
           (fun (acc : gmap string PyValue) m =>
              acc !! k
              = match m !! k with
                | Some v => if is_str_or_bytes v then Some v else hdrs !! k
                | None => hdrs !! k
                end)).
  - by rewrite lookup_empty.
  - intros i x m acc Hfresh IH. unfold copy_header.
    destruct (decide (i = k)) as [->|Hne].
    + rewrite lookup_insert_eq. rewrite Hfresh in IH.
      destruct (is_str_or_bytes x); [by rewrite lookup_insert_eq | done].
    + rewrite lookup_insert_ne by done.
      destruct (is_str_or_bytes x); [by rewrite lookup_insert_ne | done].
Qed.

Lemma forward_entry_lookup (hdrs : gmap string PyValue)
  (entry : string * StateValue) (k : string) :
  forward_entry hdrs entry !! k
  = match writes entry k with
    | Some v => Some v
    | None => hdrs !! k
    end.
Proof.
  destruct entry as [key [v|d]]; simpl.
  - destruct (is_str_or_bytes v); simpl; [|done].
    case_bool_decide as Hkey.
    + subst key. by rewrite lookup_insert_eq.
    + by rewrite lookup_insert_ne.
  - case_bool_decide; [|done]. rewrite flatten_lookup.
    destruct (d !! k) as [v|]; [|done]. by destruct (is_str_or_bytes v).
Qed.

Lemma writes_text (entry : string * StateValue) (k : string) (v : PyValue) :
  writes entry k = Some v → is_str_or_bytes v = true.
Proof.
  destruct entry as [key [w|d]]; simpl.
  - destruct (is_str_or_bytes w) eqn:Hw; simpl; [|discriminate].
    case_bool_decide; [|discriminate]. by intros [= <-].
  - case_bool_decide; [|discriminate].
    destruct (d !! k) as [w|]; [|discriminate].
    destruct (is_str_or_bytes w) eqn:Hw; [|discriminate]. by intros [= <-].
Qed.

(** What an entry writes is text, and is the entry's own value or a
    value of the nested [propagation_headers] dictionary. *)
Lemma writes_origin (entry : string * StateValue) (k : string) (v : PyValue) :
  writes entry k = Some v →
  is_str_or_bytes v = true
  ∧ (entry = (k, Leaf v)
     ∨ ∃ d, entry = ("propagation_headers", Dict d) ∧ d !! k = Some v).
Proof.
  intros Hw. split; [by eapply writes_text|]. revert Hw.
  destruct entry as [key [w|d]]; simpl.
  - destruct (is_str_or_bytes w); simpl; [|discriminate].
    case_bool_decide as Hkey; [|discriminate]. intros [= <-]. left.
    by rewrite Hkey.
  - case_bool_decide as Hkey; [|discriminate]. subst key.
    destruct (d !! k) as [w|] eqn:Hk; [|discriminate].
    destruct (is_str_or_bytes w); [|discriminate]. intros [= <-].
    right. by exists d.
Qed.

(** A header found after the loop was there before or was written by an
    entry. *)
Lemma fold_forward_origin (items : list (string * StateValue))
  (hdrs : gmap string PyValue) (k : string) (v : PyValue) :
  fold_left forward_entry items hdrs !! k = Some v →
  hdrs !! k = Some v ∨ ∃ entry, entry ∈ items ∧ writes entry k = Some v.
Proof.
  revert hdrs. induction items as [|entry items IH]; intros hdrs; simpl;
    [by left|].
  intros [Hin|[later [Hin Hw]]]%IH.
  - rewrite forward_entry_lookup in Hin.
    destruct (writes entry k) as [w|] eqn:Hw.
    + right. exists entry. split; [by left | congruence].
    + by left.
  - right. exists later. split; [by right | done].
Qed.

(** When every entry that writes [k] writes [v], and one does, the header
    [k] ends up as [v]. *)
Lemma fold_forward_agree (items : list (string * StateValue))
  (hdrs : gmap string PyValue) (k : string) (v : PyValue) :
  (∀ entry, entry ∈ items →
            writes entry k = None ∨ writes entry k = Some v) →
  hdrs !! k = Some v ∨ (∃ entry, entry ∈ items ∧ writes entry k = Some v) →
  fold_left forward_entry items hdrs !! k = Some v.
Proof.
  revert hdrs. induction items as [|entry items IH]; intros hdrs Hall Hsome;
    simpl.
  - destruct Hsome as [Hin|[entry [Hin _]]]; [done|].
    by apply elem_of_nil in Hin.
  - apply IH; [intros later Hin; apply Hall; by right|].
    rewrite forward_entry_lookup.
    destruct (Hall entry ltac:(by left)) as [Hnone|Hv].
    + rewrite Hnone.
      destruct Hsome as [Hin|[later [[->|Hin]%elem_of_cons Hw]]].
      * by left.
      * congruence.
      * right. by exists later.
    + rewrite Hv. by left.
Qed.

Lemma nodup_keys_value {B} (items : list (string * B)) (key : string)
  (x y : B) :
  NoDup items.*1 → (key, x) ∈ items → (key, y) ∈ items → x = y.
Proof.
  induction items as [|[key' z] items IH]; simpl; intros Hnodup Hx Hy.
  - by apply elem_of_nil in Hx.
  - apply NoDup_cons in Hnodup as [Hfresh Hnodup].
    apply elem_of_cons in Hx as [Hx|Hx];
      apply elem_of_cons in Hy as [Hy|Hy]; simplify_eq; try done.
    + exfalso. apply Hfresh. apply list_elem_of_fmap. by exists (key', y).
    + exfalso. apply Hfresh. apply list_elem_of_fmap. by exists (key', x).
    + by apply IH.
Qed.

End Session.

(** X12.  The session interceptor only ever writes text taken from the
    call context: every outbound header it leaves behind was among the
    headers it was given, or has a text or bytes value that is an entry
    of the context's state under that name or an entry of the state's
    nested [propagation_headers] dictionary under that name. *)
Theorem session_interceptor_writes_text_only (http_kwargs : HttpKwargs)
  (context : option (list (string * StateValue)))
  (k : string) (v : PyValue) :
  default ∅ (headers (SessionForwarding.intercept http_kwargs context)) !! k
  = Some v →
  default ∅ (headers http_kwargs) !! k = Some v
  ∨ (is_str_or_bytes v = true
     ∧ ∃ items,
         context = Some items
         ∧ ((k, Leaf v) ∈ items
            ∨ ∃ d,
                ("propagation_headers", Dict d) ∈ items ∧ d !! k = Some v)).
Proof.
  destruct context as [[|entry items]|]; [by left| |by left].
  intros Hsent.
  apply (fold_forward_origin (entry :: items)) in Hsent
    as [Hin|[later [Hlater Hw]]]; [by left|].
  right. apply writes_origin in Hw as [Hv Horigin]. split; [exact Hv|].
  exists (entry :: items). split; [done|].
  destruct Horigin as [->|[d [-> Hk]]]; [by left|]. right. by exists d.
Qed.

Definition delegated_state : list (string * StateValue) :=
  [ ("x-mapfre-user-id", Leaf (Str "u-17"));
    ("retries", Leaf (Other "3"));
    ("propagation_headers",
      Dict {[ "authorization" := Str "Bearer tok" ]}) ].

Lemma session_interceptor_writes_text_only_witness :
  default ∅ (headers bare_options) !! "authorization"
  = Some (Str "Bearer tok")
  ∨ (is_str_or_bytes (Str "Bearer tok") = true
     ∧ ∃ items,
         Some delegated_state = Some items
         ∧ (("authorization", Leaf (Str "Bearer tok")) ∈ items
            ∨ ∃ d,
                ("propagation_headers", Dict d) ∈ items
                ∧ d !! "authorization" = Some (Str "Bearer tok"))).
Proof.
  apply (session_interceptor_writes_text_only bare_options
           (Some delegated_state) "authorization" (Str "Bearer tok")).
  vm_compute. reflexivity.
Defined.

(** X13.  The session interceptor forwards broadly.  For a call context
    whose state is a dictionary (no key twice): a text or bytes entry is
    sent as a header under its own key unless the nested
    [propagation_headers] dictionary has that key too, and every text or
    bytes entry of the nested [propagation_headers] dictionary is sent
    under its key (there is no blocked name: [authorization] goes out as
    well) unless a text entry of the state has that key. *)
Theorem session_interceptor_forwards_text (http_kwargs : HttpKwargs)
  (items : list (string * StateValue)) :
  NoDup items.*1 →
  let sent :=
    default ∅
      (headers (SessionForwarding.intercept http_kwargs (Some items))) in
  (∀ key v,
     (key, Leaf v) ∈ items → is_str_or_bytes v = true →
     (∀ d, ("propagation_headers", Dict d) ∈ items → d !! key = None) →
     sent !! key = Some v)
  ∧ (∀ d k v,
       ("propagation_headers", Dict d) ∈ items →
       d !! k = Some v → is_str_or_bytes v = true →
       (∀ w, (k, Leaf w) ∈ items → is_str_or_bytes w = false) →
       sent !! k = Some v).
Proof.
  intros Hnodup sent.
  assert (∀ k, items ≠ [] →
               sent !! k
               = fold_left SessionForwarding.forward_entry items
                   (default ∅ (headers http_kwargs)) !! k) as Hsent.
  { intros k Hne. unfold sent. by destruct items. }
  split.
  - intros key v Hin Hv Hnested.
    rewrite Hsent by (intros ->; by apply elem_of_nil in Hin).
    apply fold_forward_agree.
    + intros [key' [w|d]] Hentry; simpl.
      * destruct (is_str_or_bytes w) eqn:Hw; simpl; [|by left].
        case_bool_decide as Hkey; [|by left]. subst key'. right.
        assert (Leaf w = Leaf v) as [= ->]
          by (eapply nodup_keys_value; eauto).
        done.
      * case_bool_decide as Hkey; [|by left]. subst key'.
        rewrite (Hnested d Hentry). by left.
    + right. exists (key, Leaf v). split; [done|]. simpl.
      by rewrite Hv, bool_decide_eq_true_2.
  - intros d k v Hin Hk Hv Htop.
    rewrite Hsent by (intros ->; by apply elem_of_nil in Hin).
    apply fold_forward_agree.
    + intros [key' [w|d']] Hentry; simpl.
      * destruct (is_str_or_bytes w) eqn:Hw; simpl; [|by left].
        case_bool_decide as Hkey; [|by left]. subst key'.
        rewrite (Htop w Hentry) in Hw. discriminate.
      * case_bool_decide as Hkey; [|by left]. subst key'.
        assert (Dict d' = Dict d) as [= ->]
          by (eapply nodup_keys_value; eauto).
        rewrite Hk, Hv. by right.
    + right. exists ("propagation_headers", Dict d). split; [done|]. simpl.
      by rewrite Hk, Hv.
Qed.

Lemma session_interceptor_forwards_text_witness :
  default ∅
    (headers (SessionForwarding.intercept bare_options (Some delegated_state)))
    !! "authorization"
  = Some (Str "Bearer tok").
Proof.
  apply (proj2 (session_interceptor_forwards_text bare_options delegated_state
                  ltac:(vm_compute; repeat constructor;
                        rewrite ?elem_of_cons, ?elem_of_nil;
                        intuition discriminate))
           {[ "authorization" := Str "Bearer tok" ]} "authorization"
           (Str "Bearer tok")).
  - unfold delegated_state. do 2 right. left.
  - reflexivity.
  - reflexivity.
  - intros w Hin. unfold delegated_state in Hin.
    rewrite !elem_of_cons, elem_of_nil in Hin.
    destruct Hin as [H|[H|[H|[]]]]; discriminate H.
Defined.

(** ** Parts, payloads and propagated headers *)

Section Payloads.

Import Utils.

Lemma traverse_ok_iff {A B} (f : A → res B) (l : list A) :
  (∃ ys, traverse f l = ok ys) ↔ Forall (fun x => ∃ y, f x = ok y) l.
Proof.
  induction l as [|x l IH]; simpl.
  - split; [constructor | by eexists].
  - split.
    + intros [ys Hys]. destruct (f x) as [e|y] eqn:Hx; [discriminate|].
      simpl in Hys. destruct (traverse f l) as [e|zs]; [discriminate|].
      constructor; [by eexists | apply IH; by eexists].
    + intros Hall. apply Forall_cons in Hall as [[y Hy] Hl].
      apply IH in Hl as [zs Hzs]. rewrite Hy. simpl. rewrite Hzs.
      by eexists.
Qed.

(** When an element cannot be converted, the comprehension raises what
    the first such element raises. *)
Lemma traverse_error {A B} (f : A → res B) (l : list A) (e : exn) :
  traverse f l = inl e → ∃ x, x ∈ l ∧ f x = inl e.
Proof.
  induction l as [|x l IH]; simpl; [discriminate|].
  destruct (f x) as [e'|y] eqn:Hx; simpl.
  - intros [= <-]. exists x. split; [by left | done].
  - destruct (traverse f l) as [e'|zs]; simpl; [|discriminate].
    intros [= <-]. destruct IH as [x' [Hin Hx']]; [done|].
    exists x'. split; [by right | done].
Qed.

End Payloads.


(** X15.  [generate_payload] succeeds exactly when the request has a
    message with at least one part whose parts are all text parts; in
    every other case (no message, no part, a part that is no text part)
    it raises [ValueError] (the call context holding its inbound headers
    as a dictionary, or none). *)
Theorem generate_payload_needs_text_message
  (request : Utils.RequestContext) :
  (∀ v, state (Utils.call_context request) !! "headers" ≠ Some (Leaf v)) →
  match Utils.generate_payload request with
  | inr payload =>
      ∃ msg,
        Utils.message request = Some msg
        ∧ Utils.parts msg ≠ []
        ∧ Forall (fun part => ∃ t m, part = Utils.TextPart t m)
            (Utils.parts msg)
        ∧ Utils.new_message payload
          = (fun part =>
               match part with
               | Utils.TextPart t _ => Utils.text_part t
               | _ => Utils.text_part ""
               end) <$> Utils.parts msg
  | inl e =>
      exn_cls e = ValueError
      ∧ match Utils.message request with
        | None => True
        | Some msg =>
            Utils.parts msg = []
            ∨ ¬ Forall (fun part => ∃ t m, part = Utils.TextPart t m)
                  (Utils.parts msg)
        end
  end.
Proof.
  intros Hheaders.
  assert (∃ h, Utils.state_dict (Utils.call_context request) "headers" = ok h)
    as [h Hdict].
  { unfold Utils.state_dict.
    destruct (state (Utils.call_context request) !! "headers")
      as [[v|d]|] eqn:Hs; [by destruct (Hheaders v) | by eexists..]. }
  unfold Utils.generate_payload, Utils.get_propagated_headers.
  destruct (Utils.message request) as [msg|]; [|by split].
  rewrite Hdict. simpl.
  assert (∀ l,
            match Utils.traverse Utils.convert_a2a_part_to_genai l with
            | inr content =>
                Forall (fun part => ∃ t m, part = Utils.TextPart t m) l
                ∧ content
                  = (fun part =>
                       match part with
                       | Utils.TextPart t _ => Utils.text_part t
                       | _ => Utils.text_part ""
                       end) <$> l
            | inl e =>
                exn_cls e = ValueError
                ∧ ¬ Forall (fun part => ∃ t m, part = Utils.TextPart t m) l
            end) as Hparts.
  { induction l as [|part l IH]; simpl; [by split|].
    destruct part as [t m|data mime|]; simpl.
    - destruct (Utils.traverse _ l) as [e|content]; simpl.
      + destruct IH as [He Hnot]. split; [done|].
        intros [_ Hl]%Forall_cons. by apply Hnot.
      + destruct IH as [Hl ->]. split; [|done].
        constructor; [by eexists _, _ | done].
    - split; [done|]. intros [(t & m & Ht) _]%Forall_cons. discriminate.
    - split; [done|]. intros [(t & m & Ht) _]%Forall_cons. discriminate. }
  specialize (Hparts (Utils.parts msg)).
  destruct (Utils.traverse _ _) as [e|converted]; simpl;
    [destruct Hparts; split; [done | by right]|].
  destruct Hparts as [Hall ->].
  destruct (Utils.parts msg) as [|part l] eqn:Hl; simpl;
    [split; [done | by left]|].
  exists msg. by rewrite Hl.
Qed.

Lemma generate_payload_needs_text_message_witness :
  ∃ msg,
    Utils.message inbound_request = Some msg
    ∧ Utils.parts msg ≠ []
    ∧ Forall (fun part => ∃ t m, part = Utils.TextPart t m) (Utils.parts msg).
Proof.
  pose proof (generate_payload_needs_text_message inbound_request) as H.
  assert (∀ v,
            state (Utils.call_context inbound_request) !! "headers"
            ≠ Some (Leaf v)) as Hheaders by (intros v; discriminate).
  specialize (H Hheaders).
  change (Utils.generate_payload inbound_request)
    with (ok {| Utils.user_id := Str "u-17";
               Utils.session_id := Str "ctx-1";
               Utils.new_message := [Utils.text_part "hola"];
               Utils.propagation_headers :=
                 {[ "x-mapfre-user-id" := Str "u-17" ]} |}
          : res Utils.ExecPayload) in H.
  destruct H as [msg [Hmsg [Hne [Hparts _]]]].
  exists msg. split; [exact Hmsg|]. split; [exact Hne | exact Hparts].
Defined.

Lemma lower_app (a b : string) : lower (a +:+ b) = lower a +:+ lower b.
Proof. induction a as [|c a IH]; simpl; [done | by rewrite IH]. Qed.

(** X16.  The two header filters agree: every header that
    [get_propagated_headers] keeps for the executor has a text or bytes
    value and a name that the header interceptor, in its default
    configuration, allows. *)
Theorem propagated_headers_pass_default_allowlist
  (request : Utils.RequestContext) (flat : gmap string PyValue)
  (k : string) (v : PyValue) :
  Utils.get_propagated_headers request = ok flat →
  flat !! k = Some v →
  is_str_or_bytes v = true
  ∧ HeadersPropagation._is_allowed
      (HeadersPropagation.__init__ None None false) k = true.
Proof.
  unfold Utils.get_propagated_headers, Utils.state_dict.
  intros Hflat Hk.
  assert (∃ h,
            flat = map_fold (fun k v acc => Utils.keep_header acc k v) ∅ h)
    as [h ->].
  { destruct (state (Utils.call_context request) !! "headers") as [[w|d]|];
      simpl in Hflat; [discriminate|..]; injection Hflat as <-; by eexists. }
  rewrite keep_header_fold in Hk.
  destruct (h !! k) as [w|]; [|discriminate].
  destruct (is_str_or_bytes w) eqn:Hw; [|discriminate].
  destruct (startswith k "x-mapfre-") eqn:Hprefix; [|discriminate].
  simpl in Hk. injection Hk as <-. split; [done|].
  apply default_is_allowed.
  destruct (prefix_split _ _ Hprefix) as [rest ->].
  rewrite lower_app.
  change (lower "x-mapfre-") with "x-mapfre-". split.
  - rewrite !elem_of_cons, elem_of_nil. intros Hin.
    repeat (destruct Hin as [Hin|Hin]; [discriminate Hin|]). exact Hin.
  - right. apply prefix_app.
Qed.

Lemma propagated_headers_pass_default_allowlist_witness :
  is_str_or_bytes (Str "u-17") = true
  ∧ HeadersPropagation._is_allowed
      (HeadersPropagation.__init__ None None false) "x-mapfre-user-id" = true.
Proof.
  apply (propagated_headers_pass_default_allowlist inbound_request
           {[ "x-mapfre-user-id" := Str "u-17" ]} "x-mapfre-user-id"
           (Str "u-17")).
  - vm_compute. reflexivity.
  - reflexivity.
Defined.

(** ** Executors: what reaches the event queue *)

Definition is_working_update (ev : Executor.QueueEvent) : bool :=
  match ev with
  | Executor.StatusUpdate Executor.working (Some _) false => true
  | _ => false
  end.

(** The shapes the end of an ADK run can have: nothing, an artifact alone
    (the completion could not be queued), or an artifact followed by the
    final [completed] status. *)
Definition adk_ending (raised : option exn)
  (tail : list Executor.QueueEvent) : Prop :=
  tail = []
  ∨ (∃ artifact,
       tail = [Executor.ArtifactUpdate artifact None] ∧ is_Some raised)
  ∨ (∃ artifact,
       tail = [Executor.ArtifactUpdate artifact None;
               Executor.StatusUpdate Executor.completed None true]
       ∧ raised = None).

Lemma adk_consume_protocol (sdk : Executor.Sdk)
  (events : Stream Executor.Event) (q : list Executor.QueueEvent) :
  ∃ updates tail,
    (Executor.adk_consume sdk events q).2 = (q ++ updates ++ tail)%list
    ∧ Forall (fun ev => is_working_update ev = true) updates
    ∧ adk_ending (Executor.adk_consume sdk events q).1 tail.
Proof.
  revert q. induction events as [|event rest IH|e]; intros q; simpl.
  - exists [], []. rewrite !app_nil_r. repeat split; [constructor | by left].
  - destruct (Executor.is_final_response event).
    + destruct (Utils.traverse _ _) as [e|a2a_parts]; simpl.
      { exists [], []. rewrite !app_nil_r.
        repeat split; [constructor | by left]. }
      destruct (Executor.add_artifact sdk a2a_parts None q) as [e|q1] eqn:H1;
        simpl.
      { exists [], []. rewrite !app_nil_r.
        repeat split; [constructor | by left]. }
      apply enqueue_queue in H1 as ->.
      destruct (Executor.update_status sdk Executor.completed None true _)
        as [e|q2] eqn:H2; simpl.
      * exists [], [Executor.ArtifactUpdate a2a_parts None].
        repeat split; [constructor|]. right. left. by eexists.
      * apply enqueue_queue in H2 as ->.
        exists [], [Executor.ArtifactUpdate a2a_parts None;
                    Executor.StatusUpdate Executor.completed None true].
        rewrite <- app_assoc. repeat split; [constructor|].
        right. right. by eexists.
    + destruct (Executor.function_calls event); [|apply IH].
      destruct (Utils.traverse _ _) as [e|message_parts]; simpl.
      { exists [], []. rewrite !app_nil_r.
        repeat split; [constructor | by left]. }
      destruct (Executor.update_status sdk Executor.working _ false q)
        as [e|q1] eqn:H1; simpl.
      { exists [], []. rewrite !app_nil_r.
        repeat split; [constructor | by left]. }
      apply enqueue_queue in H1 as ->.
      destruct (IH (q ++ [Executor.StatusUpdate Executor.working
                            (Some message_parts) false])%list)
        as (updates & tail & -> & Hupdates & Hending).
      exists (Executor.StatusUpdate Executor.working (Some message_parts) false
                :: updates), tail.
      rewrite <- app_assoc. repeat split; [by constructor | done].
  - exists [], []. rewrite !app_nil_r. repeat split; [constructor | by left].
Qed.

(** X17.  The ADK run speaks a fixed protocol.  Whatever the runner
    yields, [_process_request] queues a run of non-final [working]
    statuses that carry a message, then at most one artifact, then at
    most the final [completed] status, which is always the last event;
    it never queues a second artifact, and it returns normally after an
    artifact only when [completed] was queued too. *)
Theorem adk_process_request_protocol (runner : Executor.Runner)
  (sdk : Executor.Sdk) (payload : Utils.ExecPayload) (active : gset string)
  (queue : list Executor.QueueEvent) :
  let r := Executor.adk_process_request runner sdk payload active queue in
  ∃ updates tail,
    Executor.queue r = (queue ++ updates ++ tail)%list
    ∧ Forall (fun ev => is_working_update ev = true) updates
    ∧ adk_ending (Executor.raised r) tail.
Proof.
  unfold Executor.adk_process_request.
  destruct (Executor._upsert_session _ _ _) as [e|session_obj]; simpl.
  - exists [], []. rewrite !app_nil_r. repeat split; [constructor | by left].
  - apply adk_consume_protocol.
Qed.

(** A part that only refers to a file: no text, no inline data. *)
Definition file_reference (part : Utils.GenaiPart) : Prop :=
  truthy_opt_str (Utils.part_text part) = false
  ∧ Utils.inline_data part = None
  ∧ is_Some (Utils.file_data part).

Lemma traverse_unsupported_part (l : list Utils.GenaiPart)
  (part : Utils.GenaiPart) :
  part ∈ l →
  Utils.convert_genai_part_to_a2a part
  = raise ValueError "Unsupported part type" →
  Utils.traverse Utils.convert_genai_part_to_a2a l
  = raise ValueError "Unsupported part type".
Proof.
  intros Hin Hpart.
  destruct (Utils.traverse Utils.convert_genai_part_to_a2a l)
    as [e|ys] eqn:Hl.
  - apply traverse_error in Hl as [x [_ Hx]]. revert Hx.
    unfold Utils.convert_genai_part_to_a2a.
    destruct (truthy_opt_str _); [discriminate|].
    destruct (Utils.inline_data x) as [[? ?]|]; [discriminate|].
    by intros [= <-].
  - exfalso.
    assert (∃ ys, Utils.traverse Utils.convert_genai_part_to_a2a l = ok ys)
      as Hok by by eexists.
    apply traverse_ok_iff in Hok. rewrite Forall_forall in Hok.
    destruct (Hok part Hin) as [y Hy]. rewrite Hpart in Hy. discriminate.
Qed.

(** The parts kept for a progress message all have text, so their
    conversion does not raise. *)
Lemma traverse_has_text (l : list Utils.GenaiPart) :
  ∃ message_parts,
    Utils.traverse Utils.convert_genai_part_to_a2a
      (List.filter Executor.has_text l) = ok message_parts.
Proof.
  induction l as [|part l [message_parts IH]]; simpl; [by eexists|].
  destruct (Executor.has_text part) eqn:Hpart; [|by eexists].
  simpl. unfold Utils.convert_genai_part_to_a2a at 1.
  unfold Executor.has_text in Hpart. rewrite Hpart. simpl. rewrite IH.
  by eexists.
Qed.

(** With a task updater that accepts every event, the loop gets past the
    events that are no final response, queuing working updates only. *)
Lemma adk_consume_past_partial (sdk : Executor.Sdk)
  (before : list Executor.Event) (tail : Stream Executor.Event) :
  (∀ ev q, sdk ev q = None) →
  Forall (fun event => Executor.is_final_response event = false) before →
  ∀ q,
    ∃ updates,
      Executor.adk_consume sdk (foldr Yield tail before) q
      = Executor.adk_consume sdk tail (q ++ updates)%list
      ∧ Forall (fun ev => is_working_update ev = true) updates.
Proof.
  intros Hsdk Hbefore.
  induction Hbefore as [|event before Hevent _ IH]; intros q; simpl.
  - exists []. by rewrite app_nil_r.
  - rewrite Hevent. destruct (Executor.function_calls event); [|apply IH].
    destruct (traverse_has_text (default [] (Executor.content event)))
      as [message_parts ->].
    unfold ok. cbv beta iota.
    unfold Executor.update_status, Executor.enqueue. rewrite Hsdk.
    unfold ok. cbv beta iota.
    destruct (IH (q ++ [Executor.StatusUpdate Executor.working
                          (Some message_parts) false])%list)
      as (updates & -> & Hupdates).
    exists (Executor.StatusUpdate Executor.working (Some message_parts) false
              :: updates).
    rewrite <- app_assoc. split; [done | by constructor].
Qed.

(** X18.  A final response that holds a part referring to a file (no
    text, no inline data) cannot be delivered.  Wherever it comes in the
    run, after any number of events that are no final response and that
    the task updater accepts, the ADK run raises [ValueError]: it queues
    the working updates of the earlier events and nothing else, neither
    the artifact nor [completed], and still releases the session. *)
Theorem adk_final_file_reference_is_rejected (runner : Executor.Runner)
  (sdk : Executor.Sdk) (payload : Utils.ExecPayload) (active : gset string)
  (queue : list Executor.QueueEvent) (session_obj : Executor.Session)
  (before : list Executor.Event) (event : Executor.Event)
  (rest : Stream Executor.Event)
  (parts : list Utils.GenaiPart) (part : Utils.GenaiPart) :
  Executor._upsert_session runner (Utils.session_id payload)
    (Utils.user_id payload) = ok session_obj →
  Executor.run_async runner (Executor.session_obj_id session_obj)
    (Utils.user_id payload) (Utils.new_message payload)
    (Utils.propagation_headers payload)
  = foldr Yield (Yield event rest) before →
  Forall (fun event => Executor.is_final_response event = false) before →
  (∀ ev q, sdk ev q = None) →
  Executor.is_final_response event = true →
  Executor.content event = Some parts →
  part ∈ parts →
  file_reference part →
  let r := Executor.adk_process_request runner sdk payload active queue in
  Executor.raised r = Some (Raise ValueError "Unsupported part type")
  ∧ (∃ updates,
       Executor.queue r = (queue ++ updates)%list
       ∧ Forall (fun ev => is_working_update ev = true) updates)
  ∧ Executor.session_obj_id session_obj ∉ Executor.active_sessions r.
Proof.
  intros Hsession Hrun Hbefore Hsdk Hfinal Hcontent Hin
    (Htext & Hinline & Hfile) r.
  unfold r, Executor.adk_process_request. rewrite Hsession. simpl.
  rewrite Hrun.
  destruct (adk_consume_past_partial sdk before (Yield event rest) Hsdk
              Hbefore queue) as (updates & -> & Hupdates).
  simpl. rewrite Hfinal, Hcontent. simpl.
  rewrite (traverse_unsupported_part
             (List.filter Executor.has_payload parts) part).
  - simpl. split; [done|]. split; [by exists updates | set_solver].
  - apply list_elem_of_In, filter_In. split; [by apply list_elem_of_In|].
    unfold Executor.has_payload.
    by rewrite Htext, (bool_decide_eq_true_2 _ Hfile).
  - unfold Utils.convert_genai_part_to_a2a. by rewrite Htext, Hinline.
Qed.

Definition file_answer : Executor.Event :=
  {| Executor.is_final_response := true;
     Executor.content :=
       Some [ Utils.text_part "see attachment";
              {| Utils.part_text := None; Utils.inline_data := None;
                 Utils.file_data := Some "gs://bucket/report.pdf" |} ];
     Executor.function_calls := [] |}.

Lemma adk_final_file_reference_is_rejected_witness :
  Executor.raised
    (Executor.adk_process_request
       (scripted_runner (Yield partial_answer (Yield file_answer Stop)))
       accepting_sdk sample_payload ∅ [])
  = Some (Raise ValueError "Unsupported part type").
Proof.
  apply (adk_final_file_reference_is_rejected
           (scripted_runner (Yield partial_answer (Yield file_answer Stop)))
           accepting_sdk sample_payload ∅ []
           {| Executor.session_obj_id := "s-1" |}
           [partial_answer] file_answer Stop
           [ Utils.text_part "see attachment";
              {| Utils.part_text := None; Utils.inline_data := None;
                 Utils.file_data := Some "gs://bucket/report.pdf" |} ]
           {| Utils.part_text := None; Utils.inline_data := None;
              Utils.file_data := Some "gs://bucket/report.pdf" |}).
  - reflexivity.
  - reflexivity.
  - repeat constructor.
  - intros ev q. reflexivity.
  - reflexivity.
  - reflexivity.
  - right. left.
  - split; [reflexivity|]. split; [reflexivity|]. by eexists.
Defined.

(** X19.  [cancel] only prunes the bookkeeping.  With the inbound headers
    held as a dictionary (or absent) and a session id that is text or
    bytes, the ADK [cancel] always raises the unsupported-operation
    error, queues nothing, removes the session id it resolves (the
    [x-mapfre-session-id] header, else the context id) from the active
    set and leaves every other id where it was. *)
Theorem adk_cancel_prunes_and_refuses (context : Utils.RequestContext)
  (active : gset string) (queue : list Executor.QueueEvent) :
  (∀ v, state (Utils.call_context context) !! "headers" ≠ Some (Leaf v)) →
  let hdrs :=
    match state (Utils.call_context context) !! "headers" with
    | Some (Dict d) => d
    | _ => ∅
    end in
  is_str_or_bytes
    (default (Str (Utils.context_id context))
       (hdrs !! "x-mapfre-session-id")) = true →
  let r := Cancellation.adk_cancel context active queue in
  Executor.raised r = Some (Raise (ServerError UnsupportedOperationError) "")
  ∧ Executor.queue r = queue
  ∧ Executor.active_sessions r
    = match default (Str (Utils.context_id context))
              (hdrs !! "x-mapfre-session-id") with
      | Str s => active ∖ {[ s ]}
      | _ => active
      end.
Proof.
  intros Hheaders hdrs Htext r.
  unfold r, Cancellation.adk_cancel, Utils.state_dict. unfold hdrs.
  destruct (state (Utils.call_context context) !! "headers") as [[v|d]|] eqn:Hs;
    [by destruct (Hheaders v)|..]; simpl; (split; [done|]); (split; [done|]).
  - destruct (default _ _) as [s| |]; simpl; try done.
    case_bool_decide; [done | set_solver].
  - rewrite lookup_empty. simpl. case_bool_decide; [done | set_solver].
Qed.

Lemma adk_cancel_prunes_and_refuses_witness :
  Executor.active_sessions
    (Cancellation.adk_cancel inbound_request {[ "ctx-1" ]} [])
  = {[ "ctx-1" ]} ∖ {[ "ctx-1" ]}.
Proof.
  apply (adk_cancel_prunes_and_refuses inbound_request {[ "ctx-1" ]} []).
  - intros v. discriminate.
  - reflexivity.
Defined.

(** X20.  With an SDK that accepts every event, the LangChain
    [_process_request] has two outcomes only: it returns, or it raises
    the classified [ServerError] wrapping [InternalError], and then the
    last event on the queue is a final [failed] status whose message
    starts with [Error processing request: ].  No other exception gets
    out, and the active-session set is not touched. *)
Theorem langchain_failures_are_classified (sdk : Executor.Sdk)
  (stream : string → PyValue → gmap string PyValue → Stream Executor.Item)
  (payload : Utils.ExecPayload) (active : gset string)
  (queue : list Executor.QueueEvent) :
  (∀ ev q, sdk ev q = None) →
  let r :=
    Executor.langchain_process_request sdk stream payload active queue in
  Executor.active_sessions r = active
  ∧ (Executor.raised r = None
     ∨ Executor.raised r = Some (Raise (ServerError InternalError) "")
       ∧ ∃ before why,
           Executor.queue r
           = (before
                ++ [Executor.StatusUpdate Executor.failed
                      (Some [Utils.TextPart
                               ("Error processing request: " +:+ why) None])
                      true])%list).
Proof.
  intros Hsdk r. unfold r, Executor.langchain_process_request.
  destruct (Executor.langchain_try sdk stream payload queue) as [[e|] q1];
    simpl; [|by split; [|left]].
  rewrite isinstance_Exception.
  unfold Utils.convert_genai_part_to_a2a, Utils.text_part. simpl.
  unfold Executor.update_status, Executor.enqueue. rewrite Hsdk. simpl.
  split; [done|]. right. split; [done|]. by exists q1, (exn_msg e).
Qed.

Lemma langchain_failures_are_classified_witness :
  Executor.active_sessions
    (Executor.langchain_process_request accepting_sdk
       (fun _ _ _ => Throw backend_failure) sample_payload {[ "s-0" ]} [])
  = {[ "s-0" ]}.
Proof.
  apply (langchain_failures_are_classified accepting_sdk
           (fun _ _ _ => Throw backend_failure) sample_payload {[ "s-0" ]} []).
  intros ev q. reflexivity.
Defined.

Lemma gather_query_no_text (l : list Utils.GenaiPart) (query : string) :
  Forall (fun part => truthy_opt_str (Utils.part_text part) = false) l →
  Executor.gather_query query l = query.
Proof.
  revert query. induction l as [|part l IH]; intros query Hall; simpl;
    [done|].
  apply Forall_cons in Hall as [-> Hl]. by apply IH.
Qed.

(** X21.  A message without text never reaches the agent.  When no part
    of the message carries text, the LangChain [_process_request] queues
    one final [failed] status saying so and returns normally: it does not
    raise, and its outcome does not depend on the agent's stream. *)
Theorem langchain_empty_query_is_reported (sdk : Executor.Sdk)
  (stream : string → PyValue → gmap string PyValue → Stream Executor.Item)
  (payload : Utils.ExecPayload) (active : gset string)
  (queue : list Executor.QueueEvent) :
  Forall (fun part => truthy_opt_str (Utils.part_text part) = false)
    (Utils.new_message payload) →
  sdk (Executor.StatusUpdate Executor.failed
         (Some [Utils.TextPart "No text content found in the message" None])
         true)
    queue = None →
  Executor.langchain_process_request sdk stream payload active queue
  = {| Executor.raised := None;
       Executor.active_sessions := active;
       Executor.queue :=
         (queue
            ++ [Executor.StatusUpdate Executor.failed
                  (Some [Utils.TextPart
                           "No text content found in the message" None])
                  true])%list
    |}.
Proof.
  intros Hparts Hsdk.
  unfold Executor.langchain_process_request, Executor.langchain_try.
  rewrite (gather_query_no_text _ "" Hparts). simpl.
  unfold Executor.update_status, Executor.enqueue. by rewrite Hsdk.
Qed.

Lemma langchain_empty_query_is_reported_witness :
  Executor.raised
    (Executor.langchain_process_request accepting_sdk
       (fun _ _ _ => Throw backend_failure)
       {| Utils.user_id := Str "u-17"; Utils.session_id := Str "s-1";
          Utils.new_message := [Utils.text_part ""];
          Utils.propagation_headers := ∅ |}
       ∅ [])
  = None.
Proof.
  rewrite (langchain_empty_query_is_reported accepting_sdk
             (fun _ _ _ => Throw backend_failure)
             {| Utils.user_id := Str "u-17"; Utils.session_id := Str "s-1";
                Utils.new_message := [Utils.text_part ""];
                Utils.propagation_headers := ∅ |}
             ∅ []).
  - reflexivity.
  - repeat constructor.
  - reflexivity.
Defined.

(** X22.  A request whose payload cannot be built is refused before any
    work starts, in both executors alike.  When [generate_payload] raises
    and the SDK accepts the statuses, [execute] queues [submitted] (for a
    new task) and [working], then lets that exception out as it is: the
    runner or agent is not called, no [failed] status is queued and the
    active-session set is unchanged. *)
Theorem execute_refuses_unbuildable_payload (runner : Executor.Runner)
  (stream : string → PyValue → gmap string PyValue → Stream Executor.Item)
  (sdk : Executor.Sdk) (context : Utils.RequestContext)
  (active : gset string) (queue : list Executor.QueueEvent) (e : exn) :
  (∀ ev q, sdk ev q = None) →
  Utils.generate_payload context = inl e →
  let refused :=
    {| Executor.raised := Some e;
       Executor.active_sessions := active;
       Executor.queue :=
         (queue
            ++ (if Utils.has_current_task context then []
                else [Executor.StatusUpdate Executor.submitted None false])
            ++ [Executor.StatusUpdate Executor.working None false])%list |} in
  Executor.adk_execute runner sdk context active queue = refused
  ∧ Executor.langchain_execute sdk stream context active queue = refused.
Proof.
  intros Hsdk Hpayload refused.
  assert (∀ process,
            Executor.execute_with process sdk context active queue = refused)
    as Hboth.
  { intros process. unfold Executor.execute_with, refused.
    unfold Executor.update_status, Executor.enqueue.
    destruct (Utils.has_current_task context); rewrite ?Hsdk; simpl;
      rewrite Hsdk, Hpayload; simpl; by rewrite <- ?app_assoc. }
  split; apply Hboth.
Qed.

Definition image_request : Utils.RequestContext :=
  {| Utils.call_context := {| state := ∅ |};
     Utils.context_id := "ctx-2";
     Utils.task_id := "task-2";
     Utils.message :=
       Some {| Utils.parts := [Utils.FilePart "iVBORw0KGgo" "image/png"] |};
     Utils.has_current_task := true |}.

Lemma execute_refuses_unbuildable_payload_witness :
  Executor.raised
    (Executor.langchain_execute accepting_sdk
       (fun _ _ _ => Stop) image_request ∅ [])
  = Some (Raise ValueError "Unsupported part type").
Proof.
  rewrite (proj2 (execute_refuses_unbuildable_payload
                    (scripted_runner Stop) (fun _ _ _ => Stop) accepting_sdk
                    image_request ∅ []
                    (Raise ValueError "Unsupported part type")
                    ltac:(intros ev q; reflexivity)
                    ltac:(reflexivity))).
  reflexivity.
Defined.

(** ** Registry: what ends up registered *)

Section RegistryContents.

Import Auth Registry.

Variable world : World.
Variable all : list RemoteConfig.

(** Every connection is filed under the name on its card, was obtained
    from one of the configs, and has its card filed beside it. *)
Definition well_filed (self : A2AAgentCommunicationBase) : Prop :=
  (∀ n c,
     remote_agent_connections self !! n = Some c →
     name (card c) = n
     ∧ ∃ config, config ∈ all ∧ reachable world config c)
  ∧ ∀ n, cards self !! n = card <$> remote_agent_connections self !! n.

Lemma store_well_filed (self : A2AAgentCommunicationBase)
  (config : RemoteConfig) (c : RemoteAgentConnections) :
  config ∈ all → reachable world config c →
  well_filed self → well_filed (store self c).
Proof.
  intros Hin Hreach [Hconn Hcards]. split; unfold store; simpl.
  - intros n c'. destruct (decide (name (card c) = n)) as [<-|Hne].
    + rewrite lookup_insert_eq. intros [= <-]. split; [done|]. by exists config.
    + rewrite lookup_insert_ne by done. apply Hconn.
  - intros n. destruct (decide (name (card c) = n)) as [<-|Hne].
    + by rewrite !lookup_insert_eq.
    + rewrite !lookup_insert_ne by done. apply Hcards.
Qed.

Lemma connect_each_well_filed (configs : list RemoteConfig) :
  (∀ config, config ∈ configs → config ∈ all) →
  ∀ self, well_filed self → well_filed (connect_each world configs self).2.
Proof.
  induction configs as [|config configs IH]; intros Hsub self Hself; simpl;
    [done|].
  destruct (make_AuthConfig (auth config)) as [e|auth_config] eqn:Hauth;
    [done|].
  destruct (attempt world (url config) auth_config) as [e|connection]
    eqn:Hattempt.
  - destruct (isinstance e Exception); [|done].
    apply IH; [|done]. intros c Hc. apply Hsub. by right.
  - apply IH; [intros c Hc; apply Hsub; by right|].
    apply (store_well_filed self config); [apply Hsub; by left | |done].
    by exists auth_config.
Qed.

End RegistryContents.

Lemma initialize_well_filed (world : Registry.World)
  (configs : option (list Registry.RemoteConfig)) :
  well_filed world (default [] configs)
    (Registry.initialize world (Registry.new configs)).2.
Proof.
  assert (well_filed world (default [] configs) (Registry.new configs))
    as Hnew.
  { split; simpl; intros n; [intros c|]; by rewrite ?lookup_empty. }
  unfold Registry.initialize.
  change (Registry.remote_agent_configs (Registry.new configs)) with configs.
  destruct configs as [[|first rest]|]; [exact Hnew| |exact Hnew].
  destruct (negb (Registry.truthy_config first)); [exact Hnew|].
  pose proof (connect_each_well_filed world (first :: rest) (first :: rest)
                ltac:(done) _ Hnew) as Hloop.
  by destruct (Registry.connect_each world (first :: rest) _) as [[e|] self1].
Qed.

(** X23.  Whatever [initialize] does (return, return early or raise),
    the registry it leaves is consistent: every connection is filed under
    the name on its own card, comes from a config of the list whose agent
    could be fetched and connected, and has exactly that card filed under
    the same name in [cards]. *)
Theorem initialize_files_connections_by_card_name (world : Registry.World)
  (configs : option (list Registry.RemoteConfig)) :
  let r := Registry.initialize world (Registry.new configs) in
  (∀ n c,
     Registry.remote_agent_connections r.2 !! n = Some c →
     Auth.name (Registry.card c) = n
     ∧ ∃ config,
         config ∈ default [] configs ∧ reachable world config c)
  ∧ ∀ n,
      Registry.cards r.2 !! n
      = Registry.card <$> Registry.remote_agent_connections r.2 !! n.
Proof.
  intros r.
  assert (well_filed world (default [] configs) (Registry.new configs))
    as Hnew.
  { split; simpl; intros n; [intros c|]; by rewrite ?lookup_empty. }
  unfold r, Registry.initialize.
  change (Registry.remote_agent_configs (Registry.new configs)) with configs.
  destruct configs as [[|first rest]|]; [exact Hnew| |exact Hnew].
  destruct (negb (Registry.truthy_config first)); [exact Hnew|].
  pose proof (connect_each_well_filed world (first :: rest) (first :: rest)
                ltac:(done) _ Hnew) as Hloop.
  by destruct (Registry.connect_each world (first :: rest) _) as [[e|] self1].
Qed.

(** X24.  With well-formed [auth] blocks, the registry holds exactly the
    reachable agents: [initialize] returns normally, marks the registry
    initialised, and a name is registered if and only if some config of
    the list has an agent that could be fetched and connected and whose
    card bears that name. *)
Theorem initialize_registers_exactly_reachable (world : Registry.World)
  (configs : list Registry.RemoteConfig) :
  Forall valid_auth configs →
  Forall (fun config => Registry.truthy_config config = true) configs →
  let r := Registry.initialize world (Registry.new (Some configs)) in
  r.1 = None
  ∧ Registry.is_initialized r.2 = true
  ∧ ∀ n,
      is_Some (Registry.remote_agent_connections r.2 !! n)
      ↔ ∃ config c,
          config ∈ configs ∧ reachable world config c
          ∧ Auth.name (Registry.card c) = n.
Proof.
  intros Hvalid Htruthy r.
  destruct (initialize_tolerates_unreachable_agents world configs Hvalid
              Htruthy) as (Hnone & Hinit & Hreach).
  split; [exact Hnone|]. split; [exact Hinit|]. intros n. split.
  - intros [c Hc].
    destruct (initialize_well_filed world (Some configs)) as [Hfiled _].
    destruct (Hfiled n c Hc) as [Hname [config [Hin Hr]]].
    by exists config, c.
  - intros (config & c & Hin & Hr & <-). by eapply Hreach.
Qed.

Lemma initialize_registers_exactly_reachable_witness :
  (Registry.initialize healthy_world
     (Registry.new (Some [healthy_remote]))).1 = None.
Proof.
  apply (initialize_registers_exactly_reachable healthy_world
           [healthy_remote]).
  - repeat constructor. eexists. reflexivity.
  - repeat constructor.
Defined.

(** ** Delegation: the context kept per remote agent *)

Section Delegating.

Import Registry Delegation.

Variable connections : gmap string RemoteAgentConnections.
Variable transport :
  RemoteAgentConnections → OutboundMessage → ToolState → Stream Reply.

(** The state after a delegation to a registered agent: the agent has a
    context id, the one it had or else the fresh one. *)
Definition with_context (st : ToolState) (agent_name fresh : string)
  : ToolState :=
  match default ∅ (remote_agent_contexts st) !! agent_name with
  | Some _ =>
      {| remote_agent_contexts := Some (default ∅ (remote_agent_contexts st));
         state_task_id := state_task_id st;
         input_message_id := input_message_id st |}
  | None => set_context st agent_name fresh
  end.

Lemma send_message_state (client : RemoteAgentConnections)
  (fresh_context fresh_message fresh_payload agent_name task : string)
  (st : ToolState) :
  connections !! agent_name = Some client →
  (send_message connections transport fresh_context fresh_message
     fresh_payload agent_name task st).2
  = with_context st agent_name fresh_context.
Proof.
  intros Hclient. unfold send_message, with_context. rewrite Hclient.
  destruct (remote_agent_contexts st) as [contexts|] eqn:Hctx; simpl.
  - rewrite Hctx. simpl.
    destruct (contexts !! agent_name) eqn:Hagent; simpl.
    + match goal with
      | |- context [last_reply ?a ?b] => destruct (last_reply a b)
      end; simpl; destruct st; simpl in *; by rewrite Hctx.
    + match goal with
      | |- context [last_reply ?a ?b] => by destruct (last_reply a b)
      end.
  - rewrite lookup_empty. simpl.
    match goal with
    | |- context [last_reply ?a ?b] => destruct (last_reply a b)
    end; unfold set_context; simpl; by rewrite Hctx.
Qed.

End Delegating.

(** X25.  The conversation with a remote agent keeps its context id.  The
    first delegation to a registered agent stores a context id for it
    (a fresh one unless the state already has one); every later
    delegation to that agent leaves the state as it is, whatever new ids
    are on offer and whether or not the calls succeed, and the context
    ids of the other agents are never touched. *)
Theorem send_message_keeps_context_id
  (connections : gmap string Registry.RemoteAgentConnections)
  (transport :
     Registry.RemoteAgentConnections → Delegation.OutboundMessage →
     Delegation.ToolState → Stream Delegation.Reply)
  (client : Registry.RemoteAgentConnections)
  (fresh1 fresh2 fresh3 later1 later2 later3 agent_name task task' : string)
  (st : Delegation.ToolState) :
  connections !! agent_name = Some client →
  let st1 :=
    (Delegation.send_message connections transport fresh1 fresh2 fresh3
       agent_name task st).2 in
  let st2 :=
    (Delegation.send_message connections transport later1 later2 later3
       agent_name task' st1).2 in
  default ∅ (Delegation.remote_agent_contexts st1) !! agent_name
  = Some (default fresh1
            (default ∅ (Delegation.remote_agent_contexts st) !! agent_name))
  ∧ st2 = st1
  ∧ ∀ other,
      other ≠ agent_name →
      default ∅ (Delegation.remote_agent_contexts st1) !! other
      = default ∅ (Delegation.remote_agent_contexts st) !! other.
Proof.
  intros Hclient st1 st2. unfold st2, st1.
  rewrite !(send_message_state connections transport client) by done.
  set (after := with_context st agent_name fresh1).
  assert (default ∅ (Delegation.remote_agent_contexts after) !! agent_name
          = Some (default fresh1
                    (default ∅ (Delegation.remote_agent_contexts st)
                       !! agent_name))
          ∧ ∀ other,
              other ≠ agent_name →
              default ∅ (Delegation.remote_agent_contexts after) !! other
              = default ∅ (Delegation.remote_agent_contexts st) !! other)
    as [Hagent Hothers].
  { unfold after, with_context.
    destruct (default ∅ (Delegation.remote_agent_contexts st) !! agent_name)
      as [cid|] eqn:Hcid; simpl.
    - by split.
    - rewrite lookup_insert_eq. split; [done|].
      intros other Hne. by rewrite lookup_insert_ne. }
  split; [exact Hagent|]. split; [|exact Hothers].
  unfold with_context at 1. rewrite Hagent.
  unfold after, with_context.
  by destruct (default ∅ (Delegation.remote_agent_contexts st) !! agent_name).
Qed.

Definition billing_connection : Registry.RemoteAgentConnections :=
  {| Registry.card := billing_card;
     Registry.interceptors := [Registry.SessionInterceptor] |}.

Definition new_tool_state : Delegation.ToolState :=
  {| Delegation.remote_agent_contexts := None;
     Delegation.state_task_id := None;
     Delegation.input_message_id := Some "m-1" |}.

Lemma send_message_keeps_context_id_witness :
  default ∅
    (Delegation.remote_agent_contexts
       (Delegation.send_message {[ "billing-agent" := billing_connection ]}
          (fun _ _ _ => Yield (Delegation.TaskReply "t-1") Stop)
          "c-1" "m-2" "m-3" "billing-agent" "open invoices"
          new_tool_state).2)
    !! "billing-agent"
  = Some "c-1".
Proof.
  apply (send_message_keeps_context_id
           {[ "billing-agent" := billing_connection ]}
           (fun _ _ _ => Yield (Delegation.TaskReply "t-1") Stop)
           billing_connection "c-1" "m-2" "m-3" "c-9" "m-8" "m-7"
           "billing-agent" "open invoices" "and the total"
           new_tool_state).
  reflexivity.
Defined.

(** X26.  An agent that was left out of the registry cannot be called.
    When no config of the list has a reachable agent whose card bears
    the name, a delegation to that name after [initialize] (however it
    ended) raises [ValueError] naming the agent, does not use the
    transport and leaves the tool state as it was. *)
Theorem omitted_agent_cannot_be_called (world : Registry.World)
  (configs : list Registry.RemoteConfig)
  (transport :
     Registry.RemoteAgentConnections → Delegation.OutboundMessage →
     Delegation.ToolState → Stream Delegation.Reply)
  (fresh1 fresh2 fresh3 agent_name task : string)
  (st : Delegation.ToolState) :
  (∀ config c,
     config ∈ configs → reachable world config c →
     Auth.name (Registry.card c) ≠ agent_name) →
  let registry :=
    (Registry.initialize world (Registry.new (Some configs))).2 in
  Delegation.send_message (Registry.remote_agent_connections registry)
    transport fresh1 fresh2 fresh3 agent_name task st
  = (raise ValueError ("Agent '" +:+ agent_name +:+ "' not found."), st).
Proof.
  intros Habsent registry.
  destruct (initialize_well_filed world (Some configs)) as [Hfiled _].
  unfold Delegation.send_message.
  destruct (Registry.remote_agent_connections registry !! agent_name)
    as [c|] eqn:Hc; [|done].
  exfalso. destruct (Hfiled agent_name c Hc) as [Hname [config [Hin Hr]]].
  by apply (Habsent config c).
Qed.

Lemma omitted_agent_cannot_be_called_witness :
  (Delegation.send_message
     (Registry.remote_agent_connections
        (Registry.initialize healthy_world
           (Registry.new (Some [healthy_remote]))).2)
     (fun _ _ _ => Stop) "c-1" "m-2" "m-3" "claims-agent" "file a claim"
     new_tool_state).2
  = new_tool_state.
Proof.
  rewrite (omitted_agent_cannot_be_called healthy_world [healthy_remote]
             (fun _ _ _ => Stop) "c-1" "m-2" "m-3" "claims-agent"
             "file a claim" new_tool_state).
  - reflexivity.
  - intros config c [->|Hin]%elem_of_cons.
    + intros [auth_config [Hauth Hattempt]].
      vm_compute in Hauth. injection Hauth as <-.
      vm_compute in Hattempt. injection Hattempt as <-. discriminate.
    + by apply elem_of_nil in Hin.
Defined.

(** ** Normaliser: error envelopes and unknown shapes *)

(** X27.  An error envelope ends the call.  Whatever the remote agent
    sends after a JSON-RPC error response is never looked at: the events
    of a stream are those of the same stream cut right after its first
    error envelope. *)
Theorem normalize_stops_at_error_envelope (rid : string)
  (before : list AppClient.Item) (err : gmap string AppClient.JV)
  (rest : Stream AppClient.Item) :
  AppClient.normalize rid
    (foldr Yield
       (Yield (AppClient.Rooted (AppClient.ErrorResponse err)) rest) before)
  = AppClient.normalize rid
      (foldr Yield
         (Yield (AppClient.Rooted (AppClient.ErrorResponse err)) Stop) before).
Proof.
  induction before as [|item before IH]; simpl; [done|].
  destruct item as [[err'|event_payload]|fields|o]; [done|..];
    (case_outcome; [done|]; by rewrite IH).
Qed.

(** An object that carries content: non-empty artifacts, or parts. *)
Definition carries_content (o : AppClient.Obj) : bool :=
  match AppClient.attr_artifacts o with
  | Some v => AppClient.truthy v
  | None => false
  end
  || bool_decide (is_Some (AppClient.attr_parts o)).

(** The event an object without content falls back to. *)
Definition fallback_event (rid : string) (o : AppClient.Obj)
  : AppClient.NormalizedEvent :=
  {| AppClient.event :=
       AppClient.first_true (AppClient.attr_event o) (AppClient.attr_type o)
         "update";
     AppClient.data := AppClient.to_payload o;
     AppClient.id := rid |}.

Lemma normalize_object_fallback (o : AppClient.Obj) (rid : string) :
  carries_content o = false →
  AppClient.normalize_object o rid = ok (fallback_event rid o).
Proof.
  unfold carries_content, AppClient.normalize_object.
  intros [-> ->]%orb_false_iff. done.
Qed.

(** An item that is no tuple, or a pair, of which the loop looks at the
    first field. *)
Definition item_of (entry : AppClient.Obj * option AppClient.Obj)
  : AppClient.Item :=
  match entry with
  | (o, None) => AppClient.Object o
  | (o, Some second) => AppClient.Tupled [o; second]
  end.

(** X28.  Unknown shapes do not raise, tuples apart.  A stream of items
    that are objects other than tuples, or pairs, and whose object (the
    first field of a pair) carries neither artifacts nor parts yields
    exactly one event per item, in order, and ends normally: each event
    is named after the object's [event], else its [type], else [update],
    and its data is the object's dictionary or, for a shape with none,
    its text under [value].  A tuple that is no pair is what makes the
    loop raise: unpacking it fails with [ValueError] and ends the call
    there. *)
Theorem normalize_unknown_shapes_never_raise (rid : string) :
  (∀ entries : list (AppClient.Obj * option AppClient.Obj),
     Forall (fun entry => carries_content entry.1 = false) entries →
     AppClient.normalize rid
       (foldr (fun entry rest => Yield (item_of entry) rest) Stop entries)
     = (fallback_event rid <$> entries.*1, None))
  ∧ (∀ (before : list AppClient.Item) (fields : list AppClient.Obj)
       (rest : Stream AppClient.Item),
       length fields ≠ 2 →
       ∃ e,
         exn_cls e = ValueError
         ∧ AppClient.normalize rid
             (foldr Yield (Yield (AppClient.Tupled fields) rest) before)
           = AppClient.normalize rid (foldr Yield (Throw e) before)).
Proof.
  split.
  - induction 1 as [|[o second] entries Ho _ IH]; simpl; [done|].
    simpl in Ho.
    destruct second as [second|]; simpl;
      rewrite (normalize_object_fallback o rid Ho); by rewrite IH.
  - intros before fields rest Hlen.
    assert (∃ e, exn_cls e = ValueError ∧ AppClient.unpack fields = inl e)
      as (e & He & Hfail).
    { destruct fields as [|f1 [|f2 [|f3 fields]]]; simpl in *;
        try done; eexists; (split; [|reflexivity]); reflexivity. }
    exists e. split; [exact He|].
    induction before as [|item before IH]; simpl; [by rewrite Hfail|].
    destruct item as [[err|event_payload]|fields'|o']; [done|..];
      (case_outcome; [done|]; by rewrite IH).
Qed.

Definition heartbeat : AppClient.Obj :=
  {| AppClient.attr_artifacts := None;
     AppClient.attr_id := None;
     AppClient.attr_parts := None;
     AppClient.attr_event := None;
     AppClient.attr_type := Some "ping";
     AppClient.shape := AppClient.Opaque "<Heartbeat>" |}.

Lemma normalize_unknown_shapes_never_raise_witness :
  AppClient.normalize "r1"
    (Yield (AppClient.Object heartbeat)
       (Yield (AppClient.Tupled [heartbeat; no_update]) Stop))
  = ([ {| AppClient.event := "ping";
          AppClient.data := {[ "value" := AppClient.JStr "<Heartbeat>" ]};
          AppClient.id := "r1" |};
       {| AppClient.event := "ping";
          AppClient.data := {[ "value" := AppClient.JStr "<Heartbeat>" ]};
          AppClient.id := "r1" |} ], None).
Proof.
  apply (proj1 (normalize_unknown_shapes_never_raise "r1")
           [(heartbeat, None); (heartbeat, Some no_update)]).
  repeat constructor.
Defined.

(** X29.  One object that carries content but cannot be turned into a
    dictionary aborts the call.  When a bare object with non-empty
    artifacts, or with parts, is neither a model nor a mapping nor
    iterable, [dict(item)] raises [TypeError] inside the generator: the
    events of the items before it are yielded as usual, then the call
    ends with that error, and nothing after the object is looked at. *)
Theorem content_without_dictionary_aborts_call (rid : string)
  (before : list AppClient.Item) (o : AppClient.Obj) (shown : string)
  (rest : Stream AppClient.Item) :
  carries_content o = true →
  AppClient.shape o = AppClient.Opaque shown →
  ∃ e,
    exn_cls e = TypeError
    ∧ AppClient.normalize rid
        (foldr Yield (Yield (AppClient.Object o) rest) before)
      = AppClient.normalize rid (foldr Yield (Throw e) before).
Proof.
  intros Hcontent Hshape.
  assert (∃ e, exn_cls e = TypeError
               ∧ AppClient.normalize_object o rid = inl e) as (e & He & Hfail).
  { unfold carries_content in Hcontent.
    unfold AppClient.normalize_object, AppClient.message_event,
      AppClient.to_dict.
    rewrite Hshape.
    destruct (match AppClient.attr_artifacts o with
              | Some v => AppClient.truthy v
              | None => false
              end); simpl in *;
      [eexists; split; [|reflexivity]; reflexivity|].
    rewrite Hcontent. eexists. split; [|reflexivity]. reflexivity. }
  exists e. split; [exact He|].
  induction before as [|item before IH]; simpl; [by rewrite Hfail|].
  destruct item as [[err|event_payload]|fields|o']; [done|..];
    (case_outcome; [done|]; by rewrite IH).
Qed.

Definition opaque_task : AppClient.Obj :=
  {| AppClient.attr_artifacts := Some (AppClient.JList [AppClient.JStr "a-1"]);
     AppClient.attr_id := Some (AppClient.JStr "t-1");
     AppClient.attr_parts := None;
     AppClient.attr_event := None;
     AppClient.attr_type := None;
     AppClient.shape := AppClient.Opaque "<Task t-1>" |}.

Lemma content_without_dictionary_aborts_call_witness :
  ∃ e,
    exn_cls e = TypeError
    ∧ AppClient.normalize "r1"
        (Yield (AppClient.Object heartbeat)
           (Yield (AppClient.Object opaque_task)
              (Yield (AppClient.Object heartbeat) Stop)))
      = AppClient.normalize "r1"
          (Yield (AppClient.Object heartbeat) (Throw e)).
Proof.
  apply (content_without_dictionary_aborts_call "r1"
           [AppClient.Object heartbeat] opaque_task "<Task t-1>"
           (Yield (AppClient.Object heartbeat) Stop)).
  - reflexivity.
  - reflexivity.
Defined.

(** ** Scopes: joined by the connector, split by the gateway *)

Fixpoint no_space (s : string) : bool :=
  match s with
  | EmptyString => true
  | String c s' => negb (isspace c) && no_space s'
  end.

(** A scope token: not empty and free of white space. *)
Definition scope_token (w : string) : Prop := w ≠ "" ∧ no_space w = true.

Lemma rev_app_rev_app (w a b : string) :
  String.rev_app (String.rev_app w a) b = String.rev_app a (w +:+ b).
Proof.
  revert a b. induction w as [|c w IH]; intros a b; [done|].
  rewrite append_cons. cbn. by rewrite IH.
Qed.

Lemma split_go_token (w : string) (cur : option string) (rest : string) :
  scope_token w →
  split_go cur (w +:+ rest)
  = split_go (Some (String.rev_app w (default "" cur))) rest.
Proof.
  intros [Hne Hw]. revert cur Hw.
  induction w as [|c w IH]; intros cur Hw; [done|].
  cbn in Hw. apply andb_true_iff in Hw as [Hc Hw].
  apply negb_true_iff in Hc.
  rewrite append_cons.
  change (split_go cur (String c (w +:+ rest)))
    with (if isspace c then
            match cur with
            | Some acc => String.rev acc :: split_go None (w +:+ rest)
            | None => split_go None (w +:+ rest)
            end
          else split_go (Some (String c (default "" cur))) (w +:+ rest)).
  rewrite Hc. destruct w as [|c' w']; [done|].
  rewrite IH; [done | discriminate | done].
Qed.

Lemma missing_claims_all_present (required scopes : list string) :
  (∀ claim, claim ∈ required → claim ∈ scopes) →
  Auth.missing_claims required scopes = [].
Proof.
  induction required as [|claim required IH]; intros Hall; [done|].
  cbn. unfold str_in at 1.
  rewrite bool_decide_eq_true_2 by (apply Hall; by left). cbn.
  apply IH. intros c Hc. apply Hall. by right.
Qed.

(** X30.  The scope string survives the trip.  The connector asks for its
    scopes as one string joined by single spaces; the gateway splits the
    token's scope on white space.  For scope tokens (not empty, no white
    space) the split gives the list back, so a token granted exactly the
    requested scopes lacks none of them at a gateway that requires the
    same list. *)
Theorem joined_scopes_split_back (scopes : list string) :
  Forall scope_token scopes →
  split_ws (join " " scopes) = scopes
  ∧ Auth.missing_claims scopes (split_ws (join " " scopes)) = [].
Proof.
  intros Htokens.
  assert (split_ws (join " " scopes) = scopes) as Hsplit.
  { unfold split_ws.
    induction Htokens as [|w l Hw Hl IH]; [done|].
    destruct l as [|w2 l].
    - change (join " " [w]) with w. rewrite <- (append_empty w) at 1.
      rewrite (split_go_token w None "" Hw). cbn.
      unfold String.rev. rewrite rev_app_rev_app. cbn.
      by rewrite append_empty.
    - change (join " " (w :: w2 :: l))
        with (w +:+ String " " (join " " (w2 :: l))).
      rewrite (split_go_token w None _ Hw).
      change (split_go (Some (String.rev_app w (default "" None)))
                (String " " (join " " (w2 :: l))))
        with (String.rev (String.rev_app w "")
                :: split_go None (join " " (w2 :: l))).
      rewrite IH. unfold String.rev. rewrite rev_app_rev_app. cbn.
      by rewrite append_empty. }
  split; [exact Hsplit|]. rewrite Hsplit.
  by apply missing_claims_all_present.
Qed.

Lemma joined_scopes_split_back_witness :
  split_ws (join " " ["agents/read"; "agents/write"])
  = ["agents/read"; "agents/write"].
Proof.
  apply (joined_scopes_split_back ["agents/read"; "agents/write"]).
  repeat constructor; discriminate.
Defined.
